(** * ase.ga.bulk_startgenerator: the random bulk-structure generator

    A shallow embedding of [StartGenerator] (src/ase/ga/bulk_startgenerator.py).

    - Python floats are idealised as real numbers ([R]); there is no NaN
      and no rounding.
    - [Atoms] objects are mutable and are passed by reference: they live in
      an object store, and the methods that work in place ([set_tags],
      [translate], [euler_rotate], [wrap], [+=]) update the store.
    - The random sources ([random], [numpy.random]) are two streams that the
      calls consume in order.
    - The two retry loops of [get_new_candidate] have no bound in the
      source; the model runs them on fuel and answers [OutOfFuel] when the
      fuel is used up before the loop exits. *)

From Stdlib Require Import Reals Lra Lia List Arith ZArith PeanoNat.
From Stdlib Require Import Permutation Bool.
From Stdlib Require String.
From Stdlib Require Import ClassicalDescription.
Import ListNotations.

(* ================================================================== *)
(** ** Vectors and cells *)

Module Geometry.

Open Scope R_scope.

Definition vec : Type := (R * R * R)%type.

(** A cell is a 3x3 array, held as its three row vectors. *)
Definition mat : Type := (vec * vec * vec)%type.

Definition vzero : vec := (0, 0, 0).

Definition vadd (u v : vec) : vec :=
  let '(a, b, c) := u in let '(x, y, z) := v in (a + x, b + y, c + z).

Definition vsub (u v : vec) : vec :=
  let '(a, b, c) := u in let '(x, y, z) := v in (a - x, b - y, c - z).

Definition vscale (k : R) (v : vec) : vec :=
  let '(x, y, z) := v in (k * x, k * y, k * z).

Definition vdiv (v : vec) (k : R) : vec :=
  let '(x, y, z) := v in (x / k, y / k, z / k).

(** [np.linalg.norm] of a row. *)
Definition norm (v : vec) : R :=
  let '(x, y, z) := v in sqrt (x * x + y * y + z * z).

Definition row (m : mat) (i : nat) : vec :=
  let '(r0, r1, r2) := m in
  match i with 0%nat => r0 | 1%nat => r1 | _ => r2 end.

(** [np.linalg.det]. *)
Definition det (m : mat) : R :=
  let '((a, b, c), (d, e, f), (g, h, i)) := m in
  a * (e * i - f * h) - b * (d * i - f * g) + c * (d * h - e * g).

(** [cell *= s]: every entry times [s]. *)
Definition mscale (s : R) (m : mat) : mat :=
  let '(r0, r1, r2) := m in (vscale s r0, vscale s r1, vscale s r2).

(** [np.dot((m0, m1, m2), cell)]. *)
Definition lattice (k : R * R * R) (m : mat) : vec :=
  let '(k0, k1, k2) := k in let '(r0, r1, r2) := m in
  vadd (vadd (vscale k0 r0) (vscale k1 r1)) (vscale k2 r2).

(** Python's [x ** 0.33] on a float.  For [x > 0] it is the real power;
    [0 ** 0.33] is [0].  (A negative [x] gives NaN on a numpy float, which
    the real numbers do not have; the model's value there means nothing.) *)
Definition pow033 (x : R) : R :=
  if Rlt_dec 0 x then Rpower x (33 / 100) else 0.

End Geometry.

Export Geometry.

(* ================================================================== *)
(** ** Atoms objects, by value *)

Module AtomsValue.

Open Scope R_scope.

(** One atom of an [Atoms] object: a row of its [numbers], [positions]
    and [tags] arrays. *)
Record Atom : Type := mkAtom {
  number : nat;
  position : vec;
  tag : nat
}.

Record Atoms : Type := mkAtoms {
  atoms_list : list Atom;
  cell : mat;
  pbc : bool * bool * bool
}.

Definition zero_cell : mat := (vzero, vzero, vzero).

(** [Atoms('', cell=cell, pbc=pbc)]. *)
Definition Atoms_empty (c : mat) (p : bool * bool * bool) : Atoms :=
  mkAtoms [] c p.

(** [Atoms(symbol)] for a chemical symbol: one atom at the origin. *)
Definition Atoms_symbol (z : nat) : Atoms :=
  mkAtoms [mkAtom z vzero 0] zero_cell (false, false, false).

Definition default_atom : Atom := mkAtom 0 vzero 0.

Definition len (a : Atoms) : nat := length (atoms_list a).

Definition get_atomic_numbers (a : Atoms) : list nat :=
  map number (atoms_list a).

Definition get_tags (a : Atoms) : list nat := map tag (atoms_list a).

Definition with_atoms (a : Atoms) (l : list Atom) : Atoms :=
  mkAtoms l (cell a) (pbc a).

Definition retag (t : nat) (x : Atom) : Atom :=
  mkAtom (number x) (position x) t.

Definition move (f : vec -> vec) (x : Atom) : Atom :=
  mkAtom (number x) (f (position x)) (tag x).

(** [atoms.set_tags(i)] with one integer. *)
Definition set_tags (t : nat) (a : Atoms) : Atoms :=
  with_atoms a (map (retag t) (atoms_list a)).

(** [atoms.set_tags(array)]. *)
Definition set_tags_array (ts : list nat) (a : Atoms) : Atoms :=
  with_atoms a (map (fun p => retag (snd p) (fst p)) (combine (atoms_list a) ts)).

Definition vsum (l : list vec) : vec := fold_right vadd vzero l.

(** [atoms.get_positions().mean(axis=0)]. *)
Definition mean_position (a : Atoms) : vec :=
  vdiv (vsum (map position (atoms_list a))) (INR (len a)).

(** [atoms.translate(v)]. *)
Definition translate (v : vec) (a : Atoms) : Atoms :=
  with_atoms a (map (move (vadd v)) (atoms_list a)).

(** [a += b] ([Atoms.extend]): the atoms of [b] after those of [a]; cell
    and pbc stay those of [a]. *)
Definition extend (a b : Atoms) : Atoms :=
  with_atoms a (atoms_list a ++ atoms_list b).

(** The images of [Atoms.__imul__], in its loop order: [m0] outermost. *)
Definition images (rep : nat * nat * nat) : list (nat * nat * nat) :=
  let '(n0, n1, n2) := rep in
  flat_map (fun m0 =>
    flat_map (fun m1 =>
      map (fun m2 => (m0, m1, m2)) (seq 0 n2)) (seq 0 n1)) (seq 0 n0).

Definition INR3 (m : nat * nat * nat) : R * R * R :=
  let '(m0, m1, m2) := m in (INR m0, INR m1, INR m2).

(** [(repeat * cell.T).T]: row [i] times [repeat[i]]. *)
Definition mul_rows (rep : nat * nat * nat) (c : mat) : mat :=
  let '(n0, n1, n2) := rep in let '(r0, r1, r2) := c in
  (vscale (INR n0) r0, vscale (INR n1) r1, vscale (INR n2) r2).

(** [(full_cell.T / repeat).T]: row [i] divided by [repeat[i]]. *)
Definition div_rows (c : mat) (rep : nat * nat * nat) : mat :=
  let '(n0, n1, n2) := rep in let '(r0, r1, r2) := c in
  (vdiv r0 (INR n0), vdiv r1 (INR n1), vdiv r2 (INR n2)).

(** [atoms.repeat(rep)]: the arrays tiled once per image, the positions
    of image [(m0, m1, m2)] moved by [np.dot((m0, m1, m2), cell)], the
    cell rows multiplied. *)
Definition repeat_atoms (rep : nat * nat * nat) (a : Atoms) : Atoms :=
  mkAtoms
    (flat_map (fun m =>
       map (move (fun p => vadd p (lattice (INR3 m) (cell a)))) (atoms_list a))
       (images rep))
    (mul_rows rep (cell a)) (pbc a).

(** [[a.index for a in atoms if a.tag == t]]. *)
Fixpoint select_from (i : nat) (t : nat) (l : list Atom) : list nat :=
  match l with
  | [] => []
  | x :: r =>
      if Nat.eqb (tag x) t then i :: select_from (S i) t r
      else select_from (S i) t r
  end.

Definition select_tag (t : nat) (a : Atoms) : list nat :=
  select_from 0 t (atoms_list a).

(** [atoms[select]] with a list of indices: a new object. *)
Definition getitem (sel : list nat) (a : Atoms) : Atoms :=
  with_atoms a (map (fun i => nth i (atoms_list a) default_atom) sel).

End AtomsValue.

Export AtomsValue.

(* ================================================================== *)
(** ** The world: the generator object, the object store, the random
       sources *)

Module Runtime.

Open Scope R_scope.

(** A reference to an [Atoms] object. *)
Definition loc : Type := nat.

(** The [blmin] dictionary: its items, in iteration order. *)
Definition blmin_t : Type := list ((nat * nat) * R).

(** The [splits] dictionary: its items, in iteration order.  A split is
    a tuple of split factors (positive integers). *)
Definition splits_t : Type := list (list positive * R).

(** The attributes [__init__] sets on [self].  [self.blocks] holds
    references to [Atoms] objects; a [CellBounds] object is held as its
    [is_within_bounds] method. *)
Record StartGenerator : Type := mkGen {
  self_volume : R;
  self_cellbounds : option (mat -> bool);
  self_cell : option mat;
  self_splits : splits_t;
  self_blocks : list (loc * nat);
  self_blmin : blmin_t
}.

Record World : Type := mkWorld {
  self : StartGenerator;
  objs : loc -> Atoms;      (* the Atoms objects, by reference *)
  next : loc;               (* the next free reference *)
  floats : nat -> R;        (* what random() and np.random.random give *)
  fpos : nat;
  ints : nat -> nat;        (* the integer draws behind shuffle, sample, choice *)
  ipos : nat
}.

Inductive Exn : Type :=
  | ZeroDivisionError
  | ValueError
  | UnboundLocalError
  | AssertionError
  | UnknownMolecule.        (* what molecule() raises on a name it does not know *)

Inductive Outcome (A : Type) : Type :=
  | Ret (a : A) (w : World)
  | Raise (e : Exn)
  | OutOfFuel.

Arguments Ret {A} a w.
Arguments Raise {A} e.
Arguments OutOfFuel {A}.

Definition M (A : Type) : Type := World -> Outcome A.

Definition ret {A} (a : A) : M A := fun w => Ret a w.

Definition bind {A B} (m : M A) (k : A -> M B) : M B :=
  fun w => match m w with
           | Ret a w' => k a w'
           | Raise e => Raise e
           | OutOfFuel => OutOfFuel
           end.

Definition raise {A} (e : Exn) : M A := fun _ => Raise e.

Definition out_of_fuel {A} : M A := fun _ => OutOfFuel.

Declare Scope monad_scope.
Delimit Scope monad_scope with monad.
Notation "x <- m ;; k" := (bind m (fun x => k))
  (at level 61, m at next level, right associativity) : monad_scope.
Notation "' p <- m ;; k" := (bind m (fun x => let p := x in k))
  (at level 61, p pattern, m at next level, right associativity) : monad_scope.
Notation "m ;;; k" := (bind m (fun _ => k))
  (at level 61, right associativity) : monad_scope.
Open Scope monad_scope.

(** *** The generator object *)

Definition get_self : M StartGenerator := fun w => Ret (self w) w.

Definition set_self (g : StartGenerator) : M unit :=
  fun w => Ret tt (mkWorld g (objs w) (next w) (floats w) (fpos w) (ints w) (ipos w)).

(** *** The object store *)

Definition upd (h : loc -> Atoms) (l : loc) (a : Atoms) : loc -> Atoms :=
  fun l' => if Nat.eqb l' l then a else h l'.

Definition alloc (a : Atoms) : M loc :=
  fun w => Ret (next w)
    (mkWorld (self w) (upd (objs w) (next w) a) (S (next w))
             (floats w) (fpos w) (ints w) (ipos w)).

Definition load (l : loc) : M Atoms := fun w => Ret (objs w l) w.

(** An in-place method: the object behind [l] becomes [f] of itself. *)
Definition modify (l : loc) (f : Atoms -> Atoms) : M unit :=
  fun w => Ret tt
    (mkWorld (self w) (upd (objs w) l (f (objs w l))) (next w)
             (floats w) (fpos w) (ints w) (ipos w)).

(** *** The random sources *)

(** [random()]. *)
Definition random : M R :=
  fun w => Ret (floats w (fpos w))
    (mkWorld (self w) (objs w) (next w) (floats w) (S (fpos w)) (ints w) (ipos w)).

(** A random index below [n]. *)
Definition randbelow (n : nat) : M nat :=
  fun w => Ret (Nat.modulo (ints w (ipos w)) n)
    (mkWorld (self w) (objs w) (next w) (floats w) (fpos w) (ints w) (S (ipos w))).

Definition insert_at (j : nat) (x : nat) (l : list nat) : list nat :=
  firstn j l ++ x :: skipn j l.

(** A random order of [0 .. n-1]: every order is the answer of some
    sequence of draws. *)
Fixpoint permutation (n : nat) : M (list nat) :=
  match n with
  | O => ret []
  | S k =>
      p <- permutation k ;;
      j <- randbelow (S k) ;;
      ret (insert_at j k p)
  end.

(** [shuffle(order)] on [order = range(n)]. *)
Definition shuffle_range (n : nat) : M (list nat) := permutation n.

(** [sample(range(n), k)]: [k] different members of [range(n)];
    ValueError when [k] is larger than [n]. *)
Definition sample_range (n k : nat) : M (list nat) :=
  if Nat.ltb n k then raise ValueError
  else p <- permutation n ;; ret (firstn k p).

(** [np.random.choice(a, size=k, replace=False)]: [k] entries of [a] at
    different places; ValueError when [k] is larger than [len(a)]. *)
Definition choice (a : list nat) (k : nat) : M (list nat) :=
  if Nat.ltb (length a) k then raise ValueError
  else p <- permutation (length a) ;;
       ret (map (fun i => nth i a O) (firstn k p)).

(** [np.random.random(3)]. *)
Definition random3 : M (R * R * R) :=
  a <- random ;; b <- random ;; c <- random ;; ret (a, b, c).

End Runtime.

Export Runtime.

(* ================================================================== *)
(** ** StartGenerator *)

(** What the generator imports from the rest of ase: these functions are
    not part of bulk_startgenerator.py and are taken as given. *)
Record Imports : Type := mkImports {
  (* ase.data.atomic_numbers: symbol -> atomic number *)
  atomic_numbers : String.string -> option nat;
  (* ase.build.molecule: None when it raises on the name *)
  molecule : String.string -> option Atoms;
  (* ase.ga.utilities.closest_distances_generator(numbers, ratio) *)
  closest_distances_generator : list nat -> R -> blmin_t;
  (* ase.ga.bulk_utilities.atoms_too_close(atoms, blmin, use_tags=True) *)
  atoms_too_close : Atoms -> blmin_t -> bool;
  (* Atoms.wrap, on one position: cell -> position -> wrapped position *)
  wrap_pos : mat -> vec -> vec;
  (* Atoms.euler_rotate, on one position: phi theta psi center position *)
  euler_rot : R -> R -> R -> vec -> vec -> vec
}.

Module Generator.

Open Scope R_scope.

(** A block as [__init__] receives it: an [Atoms] object or a string. *)
Inductive block_arg : Type :=
  | BAtoms (l : loc)
  | BName (s : String.string).

(** The [blmin] argument: a dict, or a number. *)
Inductive blmin_arg : Type :=
  | BlDict (d : blmin_t)
  | BlNumber (r : R).

Definition rep3 : Type := (positive * positive * positive)%type.

Definition to_nat3 (rep : rep3) : nat * nat * nat :=
  let '(a, b, c) := rep in (Pos.to_nat a, Pos.to_nat b, Pos.to_nat c).

(** [np.product(repeat)]. *)
Definition product (rep : rep3) : positive :=
  let '(a, b, c) := rep in (a * b * c)%positive.

(** [repeat[d] = f]; [d] comes from [sample(range(3), ..)]. *)
Definition set_axis (rep : rep3) (d : nat) (f : positive) : rep3 :=
  let '(a, b, c) := rep in
  match d with
  | 0%nat => (f, b, c)
  | 1%nat => (a, f, c)
  | 2%nat => (a, b, f)
  | _ => rep
  end.

(** [sum(list)] of floats. *)
Definition Rsum (l : list R) : R := fold_right Rplus 0 l.

(** [max(list)] of floats; None on an empty list (ValueError). *)
Definition Rmax_list (l : list R) : option R :=
  match l with
  | [] => None
  | x :: r => Some (fold_left Rmax r x)
  end.

(** [[blmin[k] for k in blmin if k[0] == k[1]]]. *)
Definition same_element_values (bl : blmin_t) : list R :=
  map snd (filter (fun kv => Nat.eqb (fst (fst kv)) (snd (fst kv))) bl).

(** [int(np.ceil(count * 1. / nparts))]. *)
Definition ceil_div (count nparts : nat) : nat :=
  ((count + nparts - 1) / nparts)%nat.

(** [tags_full[lo:hi] += d]. *)
Definition add_slice (lo hi d : nat) (l : list nat) : list nat :=
  firstn lo l ++ map (fun t => (t + d)%nat) (firstn (hi - lo) (skipn lo l))
           ++ skipn hi l.

(** [np.tile(indices, nrep)]. *)
Definition tile (l : list nat) (n : nat) : list nat := concat (repeat l n).

(** [np.where(a == i)[0]]. *)
Fixpoint where_eq_from (k i : nat) (a : list nat) : list nat :=
  match a with
  | [] => []
  | x :: r =>
      if Nat.eqb x i then k :: where_eq_from (S k) i r
      else where_eq_from (S k) i r
  end.

Definition where_eq (i : nat) (a : list nat) : list nat := where_eq_from 0 i a.

(** [tag in bad]. *)
Definition mem (t : nat) (l : list nat) : bool := existsb (Nat.eqb t) l.

Definition pbc3 : bool * bool * bool := (true, true, true).

Section WithImports.

Variable ase : Imports.

(** *** Methods of Atoms objects, by reference *)

Definition Atoms_init (c : mat) (p : bool * bool * bool) : M loc :=
  alloc (Atoms_empty c p).

Definition copy (l : loc) : M loc := a <- load l ;; alloc a.

Definition wrap (a : Atoms) : Atoms :=
  with_atoms a (map (move (wrap_pos ase (cell a))) (atoms_list a)).

Definition euler_rotate (phi theta psi : R) (center : vec) (a : Atoms) : Atoms :=
  with_atoms a (map (move (euler_rot ase phi theta psi center)) (atoms_list a)).

(** [a + b]: a copy of [a], extended by [b]. *)
Definition add (l1 l2 : loc) : M loc :=
  a <- load l1 ;; b <- load l2 ;; alloc (extend a b).

(** [a += b]. *)
Definition iadd (l1 l2 : loc) : M unit :=
  b <- load l2 ;; modify l1 (fun a => extend a b).

(** [a.repeat(rep)]: a copy, multiplied in place. *)
Definition repeat_ (l : loc) (rep : nat * nat * nat) : M loc :=
  a <- load l ;; alloc (repeat_atoms rep a).

(** *** __init__ (lines 57-85) *)

(** One turn of the loop over [blocks]: the object the block resolves
    to. *)
Definition resolve (b : block_arg) : M loc :=
  match b with
  | BAtoms l => ret l
  | BName s =>
      match atomic_numbers ase s with
      | Some z => alloc (Atoms_symbol z)
      | None =>
          match molecule ase s with
          | Some a => alloc a
          | None => raise UnknownMolecule
          end
      end
  end.

Fixpoint resolve_blocks (blocks : list (block_arg * nat))
    : M (list (loc * nat) * list nat) :=
  match blocks with
  | [] => ret ([], [])
  | (b, count) :: rest =>
      l <- resolve b ;;
      a <- load l ;;
      ' (bs, numbers) <- resolve_blocks rest ;;
      ret ((l, count) :: bs, get_atomic_numbers a ++ numbers)
  end.

(** [{k: v * 1. / tot for k, v in splits.iteritems()}]: the division is
    reached once per item, and raises when [tot] is zero. *)
Definition normalize (splits : splits_t) : M splits_t :=
  let tot := Rsum (map snd splits) in
  match splits with
  | [] => ret []
  | _ :: _ =>
      if Req_dec_T tot 0 then raise ZeroDivisionError
      else ret (map (fun kv => (fst kv, snd kv * 1 / tot)) splits)
  end.

Definition __init__ (blocks : list (block_arg * nat)) (blmin : blmin_arg)
    (volume : R) (cellbounds : option (mat -> bool)) (cell : option mat)
    (splits : splits_t) : M unit :=
  splits' <- normalize splits ;;
  ' (bs, numbers) <- resolve_blocks blocks ;;
  let numbers := nodup Nat.eq_dec numbers in
  let bl := match blmin with
            | BlDict d => d
            | BlNumber r => closest_distances_generator ase numbers r
            end in
  set_self (mkGen volume cellbounds cell splits' bs bl).

(** *** get_new_candidate (lines 87-228) *)

(** Lines 96-101: the loop over the items of [self.splits].  [split] is
    the loop variable: after the loop it is the item where the loop broke,
    or the last item; None when the dict is empty (the name is unbound). *)
Fixpoint choose_split (items : splits_t) (cumprob r : R)
    (split : option (list positive)) : option (list positive) :=
  match items with
  | [] => split
  | (s, prob) :: rest =>
      let cumprob := cumprob + prob in
      if Rgt_dec cumprob r then Some s
      else choose_split rest cumprob r (Some s)
  end.

(** Lines 104-107. *)
Definition assign_factors (directions : list nat) (split : list positive)
    : rep3 :=
  fold_left (fun rep ds => set_axis rep (fst ds) (snd ds))
            (combine directions split) (1, 1, 1)%positive.

(** Lines 129-139: one random lower triangular cell, rescaled. *)
Definition sample_once (target_volume : R) : M mat :=
  let l := pow033 target_volume in
  r00 <- random ;; let c00 := r00 * l in
  r10 <- random ;; let c10 := (r10 - 5 / 10) * c00 in
  r11 <- random ;; let c11 := r11 * l in
  r20 <- random ;; let c20 := (r20 - 5 / 10) * c00 in
  r21 <- random ;; let c21 := (r21 - 5 / 10) * c11 in
  r22 <- random ;; let c22 := r22 * l in
  let cell := ((c00, 0, 0), (c10, c11, 0), (c20, c21, c22)) in
  let volume := Rabs (det cell) in
  ret (mscale (pow033 (target_volume / volume)) cell).

(** Lines 143-149. *)
Definition is_valid (cellbounds : option (mat -> bool)) (blminmax : R)
    (cell full_cell : mat) : bool :=
  let valid := true in
  let valid := match cellbounds with
               | Some is_within_bounds =>
                   if is_within_bounds full_cell then valid else false
               | None => valid
               end in
  fold_left (fun valid i =>
               if Rlt_dec (norm (row cell i)) blminmax then false else valid)
            (seq 0 3) valid.

(** Lines 127-149: [while not valid]. *)
Fixpoint sample_cell (fuel : nat) (target_volume : R) (repeat : rep3)
    : M (mat * mat) :=
  match fuel with
  | O => out_of_fuel
  | S fuel' =>
      g <- get_self ;;
      match Rmax_list (same_element_values (self_blmin g)) with
      | None => raise ValueError
      | Some blminmax =>
          cell <- sample_once target_volume ;;
          let full_cell := mul_rows (to_nat3 repeat) cell in
          if is_valid (self_cellbounds g) blminmax cell full_cell
          then ret (cell, full_cell)
          else sample_cell fuel' target_volume repeat
      end
  end.

(** Lines 120-149: the subcell and the full cell. *)
Definition make_cell (fuel : nat) (target_volume : R) (repeat : rep3)
    : M (mat * mat) :=
  g <- get_self ;;
  match self_cell g with
  | Some c =>
      let full_cell := c in
      ret (div_rows full_cell (to_nat3 repeat), full_cell)
  | None => sample_cell fuel target_volume repeat
  end.

(** Lines 152-159: (blocks, surplus, indices). *)
Fixpoint expand (i : nat) (nparts : nat) (bs : list (loc * nat))
    : list loc * list nat * list nat :=
  match bs with
  | [] => ([], [], [])
  | (block, count) :: rest =>
      let count_part := ceil_div count nparts in
      let '(blocks, surplus, indices) := expand (S i) nparts rest in
      (repeat block count_part ++ blocks,
       (nparts * count_part - count)%nat :: surplus,
       repeat i count_part ++ indices)
  end.

(** Lines 16-22. *)
Definition random_pos (cell : mat) : M vec :=
  r0 <- random ;; r1 <- random ;; r2 <- random ;;
  ret (vadd (vadd (vadd vzero (vscale r0 (row cell 0)))
                  (vscale r1 (row cell 1)))
            (vscale r2 (row cell 2))).

(** Lines 183-192: one pass of the loop body, up to the wrapped
    [attempt]. *)
Definition try_position (cand atoms : loc) (rotate : bool) (cell : mat)
    : M loc :=
  a <- load atoms ;;
  let cop := mean_position a in
  pos <- random_pos cell ;;
  modify atoms (translate (vsub pos cop)) ;;;
  (if rotate then
     ' (phi, theta, psi) <- random3 ;;
     modify atoms
       (euler_rotate (360 * phi) (5 / 10 * (360 * theta)) (360 * psi) pos)
   else ret tt) ;;;
  attempt <- add cand atoms ;;
  modify attempt wrap ;;;
  ret attempt.

(** Lines 182-197: [while not pos_found] for one block. *)
Fixpoint place_block (fuel : nat) (cand atoms : loc) (rotate : bool)
    (cell : mat) (blmin : blmin_t) : M unit :=
  match fuel with
  | O => out_of_fuel
  | S fuel' =>
      attempt <- try_position cand atoms rotate cell ;;
      att <- load attempt ;;
      if atoms_too_close ase att blmin then
        place_block fuel' cand atoms rotate cell blmin
      else
        iadd cand atoms
  end.

(** Lines 175-197: [for i in range(N_blocks)]; the answer is
    [cand_list]. *)
Fixpoint place_all (fuel : nat) (cand : loc) (cell : mat) (blmin : blmin_t)
    (blocks : list loc) (i : nat) : M (list loc) :=
  match blocks with
  | [] => ret []
  | block :: rest =>
      atoms <- copy block ;;
      modify atoms (set_tags i) ;;;
      a <- load atoms ;;
      let rotate := Nat.ltb 1 (len a) in
      place_block fuel cand atoms rotate cell blmin ;;;
      cand_list <- place_all fuel cand cell blmin rest (S i) ;;
      ret (atoms :: cand_list)
  end.

(** Lines 217-224: [for tag in tags]. *)
Fixpoint keep_tags (cand cand_full block : loc) (bad tags : list nat)
    (tag_counter : nat) : M nat :=
  match tags with
  | [] => ret tag_counter
  | tag :: rest =>
      if mem tag bad then
        keep_tags cand cand_full block bad rest tag_counter
      else
        cf <- load cand_full ;;
        let select := select_tag tag cf in
        atoms <- alloc (getitem select cf) ;;
        modify atoms (set_tags tag_counter) ;;;
        a <- load atoms ;;
        b <- load block ;;
        if Nat.eqb (len a) (len b) then
          iadd cand atoms ;;;
          keep_tags cand cand_full block bad rest (S tag_counter)
        else raise AssertionError
  end.

(** Lines 214-224: [for i, (block, count) in enumerate(self.blocks)]. *)
Fixpoint rebuild_blocks (cand cand_full : loc) (indices_full surplus : list nat)
    (i : nat) (bs : list (loc * nat)) (tag_counter : nat) : M nat :=
  match bs with
  | [] => ret tag_counter
  | (block, count) :: rest =>
      let tags := where_eq i indices_full in
      bad <- choice tags (nth i surplus O) ;;
      tag_counter <- keep_tags cand cand_full block bad tags tag_counter ;;
      rebuild_blocks cand cand_full indices_full surplus (S i) rest tag_counter
  end.

(** Lines 206-209: the tags of the images, each image moved by
    [i * N_blocks]. *)
Definition offset_tags (n nrep N_blocks : nat) (tags_full : list nat)
    : list nat :=
  fold_left (fun tf i =>
               add_slice (n * i) (n * (i + 1)) (i * N_blocks) tf)
            (seq 0 nrep) tags_full.

(** Lines 202-224: repeat, delete the surplus, put together again. *)
Definition rebuild (cand : loc) (repeat : rep3) (full_cell : mat)
    (N_blocks : nat) (indices surplus : list nat) : M loc :=
  g <- get_self ;;
  c <- load cand ;;
  let nrep := Pos.to_nat (product repeat) in
  cand_full <- repeat_ cand (to_nat3 repeat) ;;
  cf <- load cand_full ;;
  let tags_full := offset_tags (len c) nrep N_blocks (get_tags cf) in
  modify cand_full (set_tags_array tags_full) ;;;
  cand <- Atoms_init full_cell pbc3 ;;
  let indices_full := tile indices nrep in
  tag_counter <- rebuild_blocks cand cand_full indices_full surplus
                   0 (self_blocks g) 0 ;;
  ret cand.

Definition get_new_candidate (fuel : nat) : M loc :=
  g <- get_self ;;
  let blmin := self_blmin g in
  r <- random ;;
  match choose_split (self_splits g) 0 r None with
  | None => raise UnboundLocalError
  | Some split =>
      directions <- sample_range 3 (length split) ;;
      let repeat := assign_factors directions split in
      let nparts := Pos.to_nat (product repeat) in
      let target_volume := self_volume g / INR nparts in
      ' (cell, full_cell) <- make_cell fuel target_volume repeat ;;
      let '(blocks, surplus, indices) := expand 0 nparts (self_blocks g) in
      let N_blocks := length blocks in
      order <- shuffle_range N_blocks ;;
      let blocks := map (fun i => nth i blocks O) order in
      let indices := map (fun i => nth i indices O) order in
      cand <- Atoms_init cell pbc3 ;;
      cand_list <- place_all fuel cand cell blmin blocks 0 ;;
      rebuild cand repeat full_cell N_blocks indices surplus
  end.

End WithImports.

End Generator.

Export Generator.

(* ================================================================== *)
(** ** The vocabulary of the statements *)

Module Vocabulary.

Open Scope nat_scope.

(** *** What a call may change *)

(** What a call leaves alone: the generator object and the random
    streams; the store and the stream positions only grow. *)
Record evolves (w w' : World) : Prop := mkEvolves {
  ev_self : self w' = self w;
  ev_floats : floats w' = floats w;
  ev_ints : ints w' = ints w;
  ev_next : next w <= next w';
  ev_fpos : fpos w <= fpos w';
  ev_ipos : ipos w <= ipos w'
}.

(** The objects below [n] are the same in both worlds. *)
Definition frame (n : loc) (w w' : World) : Prop :=
  forall l, l < n -> objs w' l = objs w l.

(** *** Selecting atoms by tag *)

Definition has_tag (t : nat) (x : Atom) : bool := Nat.eqb (tag x) t.

(** *** Steps that only draw *)

(** Only the random sources moved. *)
Record rng_only (w w' : World) : Prop := mkRngOnly {
  ro_self : self w' = self w;
  ro_objs : objs w' = objs w;
  ro_next : next w' = next w;
  ro_floats : floats w' = floats w;
  ro_ints : ints w' = ints w;
  ro_fpos : fpos w <= fpos w';
  ro_ipos : ipos w <= ipos w'
}.

(** *** The repeated candidate: [cand_full] *)

(** The atoms of the repeated cell with the tags of lines 206-209: image
    number [i], at [m], holds every atom of [a], moved by [m] cell
    vectors, its tag raised by [i * N]. *)
Definition image_atom (c : mat) (N : nat) (im : nat * (nat * nat * nat))
    (x : Atom) : Atom :=
  mkAtom (number x) (vadd (position x) (lattice (INR3 (snd im)) c))
         (tag x + fst im * N).

Definition tagged_from (s : nat) (ims : list (nat * nat * nat)) (N : nat)
    (a : Atoms) : list Atom :=
  flat_map (fun im => map (image_atom (cell a) N im) (atoms_list a))
           (combine (seq s (length ims)) ims).

Definition tagged_full (rep : nat * nat * nat) (N : nat) (a : Atoms) : list Atom :=
  tagged_from 0 (images rep) N a.

(** *** Placing the blocks *)

(** Same atoms, up to where they are. *)
Definition similar (a b : Atoms) : Prop :=
  get_atomic_numbers a = get_atomic_numbers b /\ get_tags a = get_tags b /\
  cell a = cell b /\ pbc a = pbc b.

(** What an in-place method does to the world. *)
Record modified (l : loc) (f : Atoms -> Atoms) (w w' : World) : Prop := mkModified {
  md_ev : evolves w w';
  md_next : next w' = next w;
  md_at : objs w' l = f (objs w l);
  md_else : forall l', l' <> l -> objs w' l' = objs w l'
}.

(** What creating an object does to the world. *)
Record allocated (a : Atoms) (l : loc) (w w' : World) : Prop := mkAllocated {
  al_ev : evolves w w';
  al_loc : l = next w;
  al_next : next w' = S (next w);
  al_at : objs w' l = a;
  al_else : forall l', l' <> l -> objs w' l' = objs w l'
}.

(** A computation that gives an answer. *)
Definition returns {A} (m : M A) (w : World) : Prop :=
  exists a w', m w = Ret a w'.

(** The instances placed for the blocks [bs], the first with tag [i]:
    each has the atomic numbers of its block, and its tag on every
    atom. *)
Inductive instances (h : loc -> Atoms) : nat -> list loc -> list Atoms -> Prop :=
  | inst_nil i : instances h i [] []
  | inst_cons i b bs a rest :
      get_atomic_numbers a = get_atomic_numbers (h b) ->
      get_tags a = repeat i (len (h b)) ->
      instances h (S i) bs rest ->
      instances h i (b :: bs) (a :: rest).

(** The candidate grows by one accepted instance at a time. *)
Inductive built (ase : Imports) (bl : blmin_t) : Atoms -> list Atoms -> Atoms -> Prop :=
  | built_nil c : built ase bl c [] c
  | built_cons c a rest c' :
      atoms_too_close ase (wrap ase (extend c a)) bl = false ->
      built ase bl (extend c a) rest c' ->
      built ase bl c (a :: rest) c'.

(** *** The tags kept *)

(** The atoms kept for the tags [kept], in order: the group of each tag,
    renumbered from [tc] on. *)
Fixpoint groups (cf : list Atom) (tc : nat) (kept : list nat) : list Atom :=
  match kept with
  | [] => []
  | g :: r => map (retag tc) (filter (has_tag g) cf) ++ groups cf (S tc) r
  end.

Definition not_bad (bad : list nat) (t : nat) : bool := negb (mem t bad).

(** What the loop over [self.blocks] keeps: for block number [i], the
    tags of its instances ([where_eq i indices_full]) but for [bad], the
    [surplus[i]] of them that were drawn. *)
Inductive kept_lists (h : loc -> Atoms) (cf : list Atom)
    (indices_full surplus : list nat)
    : nat -> list (loc * nat) -> list (list nat) -> Prop :=
  | kl_nil i : kept_lists h cf indices_full surplus i [] []
  | kl_cons i b c bs bad ks :
      NoDup bad ->
      incl bad (where_eq i indices_full) ->
      length bad = nth i surplus 0 ->
      Forall (fun g => length (filter (has_tag g) cf) = len (h b))
             (filter (not_bad bad) (where_eq i indices_full)) ->
      kept_lists h cf indices_full surplus (S i) bs ks ->
      kept_lists h cf indices_full surplus i ((b, c) :: bs)
        (filter (not_bad bad) (where_eq i indices_full) :: ks).

(** What makes the loop over [self.blocks] go through: enough tags to
    draw the surplus from, and every group as long as its block. *)
Inductive groups_ok (h : loc -> Atoms) (cf : list Atom)
    (indices_full surplus : list nat) : nat -> list (loc * nat) -> Prop :=
  | go_nil i : groups_ok h cf indices_full surplus i []
  | go_cons i b c bs :
      nth i surplus 0 <= length (where_eq i indices_full) ->
      (forall g, In g (where_eq i indices_full) ->
                 length (filter (has_tag g) cf) = len (h b)) ->
      groups_ok h cf indices_full surplus (S i) bs ->
      groups_ok h cf indices_full surplus i ((b, c) :: bs).

(** *** Blocks and their indices *)

(** Block [b] is the block number [i] of [bs]. *)
Definition block_at (bs : list (loc * nat)) (b : loc) (i : nat) : Prop :=
  exists c, nth_error bs i = Some (b, c).

(** *** The sampled cell *)

(** The lower triangular cell of lines 129-136, from six draws. *)
Definition raw_cell (tv : R) (r : nat -> R) : mat :=
  let l := pow033 tv in
  let c00 := (r 0%nat * l)%R in
  let c11 := (r 2%nat * l)%R in
  ((c00, 0%R, 0%R),
   (((r 1%nat - 5 / 10) * c00)%R, c11, 0%R),
   (((r 3%nat - 5 / 10) * c00)%R, ((r 4%nat - 5 / 10) * c11)%R,
    (r 5%nat * l)%R)).

(** Lines 138-139. *)
Definition rescale (tv : R) (c : mat) : mat :=
  mscale (pow033 (tv / Rabs (det c))) c.

(** *** The course of a call *)

(** Every block of the generator is an object of the store. *)
Definition wf (w : World) : Prop :=
  forall b c, In (b, c) (self_blocks (self w)) -> b < next w.

(** What a finished call went through. *)
Record Trace : Type := mkTrace {
  t_repeat : rep3;             (* repeat *)
  t_cell : mat;                (* the subcell *)
  t_full_cell : mat;           (* full_cell *)
  t_order : list nat;          (* order, after shuffle *)
  t_insts : list Atoms;        (* cand_list, as it is at the end *)
  t_cand : Atoms;              (* cand, when the placing is over *)
  t_kept : list (list nat)     (* the tags kept, block by block *)
}.

Definition t_nparts (t : Trace) : nat := Pos.to_nat (product (t_repeat t)).

Definition t_expand (g : StartGenerator) (t : Trace)
    : list loc * list nat * list nat :=
  expand 0 (t_nparts t) (self_blocks g).

(** [blocks], [surplus], [indices] at line 161; [blocks] and [indices]
    after the shuffle; [cand_full] with its new tags. *)
Definition t_blocksE g t : list loc := fst (fst (t_expand g t)).

Definition t_surplus g t : list nat := snd (fst (t_expand g t)).

Definition t_indicesE g t : list nat := snd (t_expand g t).

Definition t_N g t : nat := length (t_blocksE g t).

Definition t_blocks g t : list loc :=
  map (fun i => nth i (t_blocksE g t) 0) (t_order t).

Definition t_indices g t : list nat :=
  map (fun i => nth i (t_indicesE g t) 0) (t_order t).

Definition t_cand_full g t : list Atom :=
  tagged_full (to_nat3 (t_repeat t)) (t_N g t) (t_cand t).

Record explains (ase : Imports) (fuel : nat) (w : World) (F : Atoms) (t : Trace) : Prop :=
  mkExplains {
  ex_cell : exists w0 w1,
      make_cell fuel (self_volume (self w) / INR (t_nparts t))%R (t_repeat t) w0
        = Ret (t_cell t, t_full_cell t) w1 /\
      self w0 = self w;
  ex_order : Permutation (t_order t) (seq 0 (t_N (self w) t));
  ex_insts : instances (objs w) 0 (t_blocks (self w) t) (t_insts t);
  ex_built : built ase (self_blmin (self w)) (Atoms_empty (t_cell t) pbc3)
                   (t_insts t) (t_cand t);
  ex_kept : kept_lists (objs w) (t_cand_full (self w) t)
              (tile (t_indices (self w) t) (t_nparts t)) (t_surplus (self w) t)
              0 (self_blocks (self w)) (t_kept t);
  ex_atoms : atoms_list F = groups (t_cand_full (self w) t) 0 (concat (t_kept t));
  ex_full_cell : cell F = t_full_cell t;
  ex_pbc : pbc F = pbc3
}.

(** *** The shape of the repeated candidate *)

Definition no_atoms : Atoms := Atoms_empty zero_cell pbc3.

(** *** The composition configured *)

(** [c] instances of a block with atomic numbers [nums], tagged from
    [tc] on: the (number, tag) of each atom, in order. *)
Fixpoint block_groups (nums : list nat) (tc c : nat) : list (nat * nat) :=
  match c with
  | O => []
  | S c' => map (fun z => (z, tc)) nums ++ block_groups nums (S tc) c'
  end.

(** The configured composition: block after block, [count] instances of
    each. *)
Fixpoint layout (h : loc -> Atoms) (tc : nat) (bs : list (loc * nat))
    : list (nat * nat) :=
  match bs with
  | [] => []
  | (b, c) :: r =>
      block_groups (get_atomic_numbers (h b)) tc c ++ layout h (tc + c) r
  end.

Definition number_tag (x : Atom) : nat * nat := (number x, tag x).

(** *** Loops that are over *)

(** The answer of a loop that is over does not depend on how many more
    turns it was allowed. *)
Definition settled {A} (f : nat -> M A) : Prop :=
  forall fuel fuel' w,
    fuel <= fuel' -> f fuel w <> OutOfFuel -> f fuel' w = f fuel w.

(** *** The arguments of the constructor *)

Definition unresolved (ase : Imports) (b : block_arg) : Prop :=
  match b with
  | BAtoms _ => False
  | BName s => atomic_numbers ase s = None /\ molecule ase s = None
  end.

Definition degenerate (splits : splits_t) : Prop :=
  splits <> [] /\ Rsum (map snd splits) = 0%R.

Definition table_of (ase : Imports) (numbers : list nat) (blmin : blmin_arg) : blmin_t :=
  match blmin with
  | BlDict d => d
  | BlNumber r => closest_distances_generator ase (nodup Nat.eq_dec numbers) r
  end.

(** *** Images of the subcell *)

(** From image [mi] of the subcell to image [mj], [k] full cells
    further: so many subcell vectors. *)
Definition shift (mi mj : nat * nat * nat) (k : Z * Z * Z)
    (rep : nat * nat * nat) : Z * Z * Z :=
  let '(i0, i1, i2) := mi in let '(j0, j1, j2) := mj in
  let '(k0, k1, k2) := k in let '(n0, n1, n2) := rep in
  (Z.of_nat j0 - Z.of_nat i0 + k0 * Z.of_nat n0,
   Z.of_nat j1 - Z.of_nat i1 + k1 * Z.of_nat n1,
   Z.of_nat j2 - Z.of_nat i2 + k2 * Z.of_nat n2)%Z.

(** *** Successive calls *)

(** [n] calls of [get_new_candidate], one after the other; each result
    is recorded as it is when its call returns. *)
Fixpoint candidates (ase : Imports) (fuel n : nat) : M (list (loc * Atoms)) :=
  match n with
  | O => ret []
  | S n' =>
      l <- get_new_candidate ase fuel ;;
      a <- load l ;;
      rest <- candidates ase fuel n' ;;
      ret ((l, a) :: rest)
  end.

(** *** Block arguments *)

(** How a block argument shows in [self.blocks]: an [Atoms] object is
    kept as it is, the same object; a name gives an object made by the
    constructor, [Atoms(name)] when the name is a chemical symbol,
    [molecule(name)] otherwise. *)
Definition resolved (ase : Imports) (n : loc) (h : loc -> Atoms)
    (bc : block_arg * nat) (lc : loc * nat) : Prop :=
  snd lc = snd bc /\
  match fst bc with
  | BAtoms l => fst lc = l
  | BName s =>
      n <= fst lc /\
      match atomic_numbers ase s with
      | Some z => h (fst lc) = Atoms_symbol z
      | None => molecule ase s = Some (h (fst lc))
      end
  end.

(** A helium dimer, as a caller may hand it over. *)
Definition dimer : Atoms :=
  mkAtoms [mkAtom 2 vzero 0; mkAtom 2 (1, 0, 0)%R 0] zero_cell (false, false, false).

(** The world of a caller that holds one [Atoms] object, the dimer. *)
Definition world_caller : World :=
  mkWorld (mkGen 0%R None None [] [] []) (fun _ => dimer) 1
          (fun _ => (5 / 10)%R) 0 (fun _ => 0) 0.

(** *** The axes of [repeat] *)

(** One axis of [repeat]. *)
Definition axis (rep : rep3) (d : nat) : positive :=
  let '(a, b, c) := rep in
  match d with 0 => a | 1 => b | 2 => c | _ => 1%positive end.

(** *** The causes of an error *)

(** Why a call raises [e]: [splits] is empty and [split] is never bound
    (line 103), or the split taken has more factors than [range(3)] has
    members (line 103), or there is no fixed cell and [blmin] has no pair
    of one element with itself, so that [max] gets an empty list
    (line 128). *)
Definition cause (w : World) (e : Exn) : Prop :=
  (self_splits (self w) = [] /\ e = UnboundLocalError) \/
  exists split,
    choose_split (self_splits (self w)) 0 (floats w (fpos w)) None = Some split /\
    e = ValueError /\
    (3 < length split \/
     (self_cell (self w) = None /\
      same_element_values (self_blmin (self w)) = [])).

(** A table without the pair (H, H), no fixed cell. *)
Definition gen_no_pair : StartGenerator :=
  mkGen 64%R None None [([1%positive], 1%R)] [(0%nat, 1%nat)]
        [((1%nat, 2%nat), 1%R)].

(** *** Cells drawn *)

(** A lower triangular cell with a diagonal that is not negative, whose
    entries below the diagonal are at most half the diagonal entry of
    their column (lines 129-136). *)
Definition tilted (m : mat) : Prop :=
  let '((a, b, c), (d, e, f), (g, h, i)) := m in
  (b = 0 /\ c = 0 /\ f = 0)%R /\
  (0 <= a /\ 0 <= e /\ 0 <= i)%R /\
  (Rabs d <= a / 2 /\ Rabs g <= a / 2 /\ Rabs h <= e / 2)%R.

(** *** The surplus of a block *)

(** What lines 156 and 157 give for one block: [s] is the surplus of
    a block of [count] instances split in [nparts]. *)
Definition surplus_of (nparts : nat) (bc : loc * nat) (s : nat) : Prop :=
  s < nparts /\
  snd bc + s = nparts * ceil_div (snd bc) nparts /\
  (s = 0 <-> Nat.divide nparts (snd bc)).

(** A world with two objects, each one atom of hydrogen at the origin. *)
Definition world_placing : World :=
  mkWorld (mkGen 0%R None None [] [] []) (fun _ => Atoms_symbol 1%nat) 2%nat
          (fun _ => (5 / 10)%R) 0%nat (fun _ => 0%nat) 0%nat.

(** *** The atomic numbers of a block *)

(** The atomic numbers of a block as the constructor is given it: those
    of the [Atoms] object, the one of the element, or those of the
    molecule of that name. *)
Definition numbers_of (ase : Imports) (h : loc -> Atoms) (b : block_arg)
    : list nat :=
  match b with
  | BAtoms l => get_atomic_numbers (h l)
  | BName s =>
      match atomic_numbers ase s with
      | Some z => [z]
      | None =>
          match molecule ase s with
          | Some a => get_atomic_numbers a
          | None => []
          end
      end
  end.

(** *** A test that refuses every attempt *)

(** Imports whose too-close test refuses every attempt, as it does when
    the distances asked for do not fit in the cell. *)
Definition ase_refusing : Imports :=
  mkImports (fun _ => None) (fun _ => None) (fun _ _ => [])
            (fun _ _ => true) (fun _ p => p) (fun _ _ _ _ p => p).

End Vocabulary.

Export Vocabulary.

(* ================================================================== *)
(** ** Minimal distances *)

Module Separation.

Open Scope R_scope.

(** [blmin[(a, b)]]; None when the key is missing. *)
Definition lookup (bl : blmin_t) (k : nat * nat) : option R :=
  option_map snd
    (find (fun kv => Nat.eqb (fst (fst kv)) (fst k) &&
                     Nat.eqb (snd (fst kv)) (snd k)) bl).

Definition IZR3 (k : Z * Z * Z) : R * R * R :=
  let '(k0, k1, k2) := k in (IZR k0, IZR k1, IZR k2).

Definition atom_at (a : Atoms) (i : nat) : Atom :=
  nth i (atoms_list a) default_atom.

(** The distance from atom [x] to the periodic image of atom [y] that
    lies [k] cell vectors away. *)
Definition image_distance (c : mat) (x y : Atom) (k : Z * Z * Z) : R :=
  norm (vsub (vadd (position y) (lattice (IZR3 k) c)) (position x)).

(** Two atoms of the periodic structure [a] are closer than the table
    allows.  Atoms with the same tag in the same image belong to one
    placed instance and are not compared. *)
Definition violation (bl : blmin_t) (a : Atoms) : Prop :=
  exists i j k d,
    (i < len a)%nat /\ (j < len a)%nat /\
    ~ (tag (atom_at a i) = tag (atom_at a j) /\ k = (0, 0, 0)%Z) /\
    lookup bl (number (atom_at a i), number (atom_at a j)) = Some d /\
    image_distance (cell a) (atom_at a i) (atom_at a j) k < d.

(** Modelled from the spec: [atoms_too_close(atoms, blmin, use_tags=True)]
    of ase.ga.bulk_utilities, which is not among the sources.  The spec
    has it test all pairwise distances, periodic images included, against
    the table entry of the two elements, tag-aware so that the atoms of
    one placement instance are not compared with each other. *)
Definition atoms_too_close_spec (a : Atoms) (bl : blmin_t) : bool :=
  if excluded_middle_informative (violation bl a) then true else false.

(** Modelled from the spec: what [get_new_candidate] relies on when it
    wraps an attempt and hands it to [atoms_too_close] (not among the
    sources): the test answers False only for an attempt without
    violation. *)
Definition too_close_sound (ase : Imports) : Prop :=
  forall a bl,
    atoms_too_close ase (wrap ase a) bl = false -> ~ violation bl a.

(** Every two atoms with different tags keep the minimal distance of
    their elements, whatever the periodic image. *)
Definition well_separated (bl : blmin_t) (a : Atoms) : Prop :=
  forall i j k d,
    (i < len a)%nat -> (j < len a)%nat ->
    tag (atom_at a i) <> tag (atom_at a j) ->
    lookup bl (number (atom_at a i), number (atom_at a j)) = Some d ->
    d <= image_distance (cell a) (atom_at a i) (atom_at a j) k.

End Separation.

(* ================================================================== *)
(** ** A small configuration, for the examples *)

Module Examples.

Import Separation.
Open Scope R_scope.

(** The symbol H. *)
Definition hydrogen : String.string :=
  String.String (Ascii.ascii_of_nat 72) String.EmptyString.

(** Imports for the examples: hydrogen is the one symbol known, the
    too-close test is the ideal one, [wrap] and [euler_rotate] leave the
    positions alone. *)
Definition ase0 : Imports :=
  mkImports
    (fun s => if String.eqb s hydrogen then Some 1%nat else None)
    (fun _ => None)
    (fun numbers r => map (fun p => (p, r)) (list_prod numbers numbers))
    atoms_too_close_spec
    (fun _ p => p)
    (fun _ _ _ _ p => p).

Definition cubic (a : R) : mat := ((a, 0, 0), (0, a, 0), (0, 0, a)).

Definition diag (a b c : R) : mat := ((a, 0, 0), (0, b, 0), (0, 0, c)).

(** One hydrogen atom, once, in a fixed cubic cell of side 4; atoms of
    hydrogen stay 1 apart; no splitting. *)
Definition gen_fixed : StartGenerator :=
  mkGen 64 None (Some (cubic 4)) [([1%positive], 1)] [(0%nat, 1%nat)]
        [((1%nat, 1%nat), 1)].

(** The same, with a [cellbounds] object that accepts no cell. *)
Definition gen_fixed_bounded : StartGenerator :=
  mkGen 64 (Some (fun _ => false)) (Some (cubic 4)) [([1%positive], 1)]
        [(0%nat, 1%nat)] [((1%nat, 1%nat), 1)].

(** Two hydrogen atoms in a fixed cubic cell of side 8, always split in
    two along one direction: one atom is placed in the subcell. *)
Definition gen_split : StartGenerator :=
  mkGen 128 None (Some (cubic 8)) [([2%positive], 1)] [(0%nat, 2%nat)]
        [((1%nat, 1%nat), 1)].

(** No fixed cell, and a [cellbounds] object that accepts no cell. *)
Definition gen_rejecting : StartGenerator :=
  mkGen 64 (Some (fun _ => false)) None [([1%positive], 1)]
        [(0%nat, 1%nat)] [((1%nat, 1%nat), 1)].

(** No fixed cell, volume 1, a [cellbounds] object that accepts every
    cell, atoms of hydrogen stay 1/2 apart. *)
Definition gen_sampled : StartGenerator :=
  mkGen 1 (Some (fun _ => true)) None [([1%positive], 1)] [(0%nat, 1%nat)]
        [((1%nat, 1%nat), 5 / 10)].

(** A world with the object of the one block, where every float drawn is
    1/2 and every integer drawn is 0. *)
Definition world_of (g : StartGenerator) : World :=
  mkWorld g (fun _ => Atoms_symbol 1) 1%nat (fun _ => 5 / 10) 0%nat
          (fun _ => 0%nat) 0%nat.

(** The side of the cell that the draws 1/2 give for volume 1. *)
Definition half_side : R := (pow033 8 * (5 / 10))%R.

(** The world before the generator is made: no object yet. *)
Definition world_before : World :=
  mkWorld (mkGen 0%R None None [] [] []) (fun _ => Atoms_symbol 1%nat) 0%nat
          (fun _ => (5 / 10)%R) 0%nat (fun _ => 0%nat) 0%nat.

End Examples.

Export Separation.
Export Examples.

(* ================================================================== *)
(** ** Reasoning about computations *)

Module Run.

Open Scope nat_scope.

Lemma bind_ret {A B} (m : M A) (k : A -> M B) w b w' :
  bind m k w = Ret b w' ->
  exists a w1, m w = Ret a w1 /\ k a w1 = Ret b w'.
Proof.
  unfold bind. destruct (m w) as [a w1| |]; try discriminate.
  intros H. exists a, w1. auto.
Qed.

Lemma bind_raise {A B} (m : M A) (k : A -> M B) w e :
  bind m k w = Raise e ->
  m w = Raise e \/ exists a w1, m w = Ret a w1 /\ k a w1 = Raise e.
Proof.
  unfold bind. destruct (m w) as [a w1| |]; try discriminate.
  - intros H. right. exists a, w1. auto.
  - intros H. left. congruence.
Qed.

Lemma bind_eq {A B} (m : M A) (k : A -> M B) w a w1 :
  m w = Ret a w1 -> bind m k w = k a w1.
Proof. unfold bind. intros ->. reflexivity. Qed.

Arguments bind_eq {A B m} k {w a w1} _.

Lemma bind_raise_eq {A B} (m : M A) (k : A -> M B) w e :
  m w = Raise e -> bind m k w = Raise e.
Proof. unfold bind. intros ->. reflexivity. Qed.

Arguments bind_raise_eq {A B m} k {w e} _.

Lemma bind_fuel_eq {A B} (m : M A) (k : A -> M B) w :
  m w = OutOfFuel -> bind m k w = OutOfFuel.
Proof. unfold bind. intros ->. reflexivity. Qed.

Arguments bind_fuel_eq {A B m} k {w} _.

Lemma bind_ret_l {A B} (a : A) (k : A -> M B) w : bind (ret a) k w = k a w.
Proof. reflexivity. Qed.

Lemma bind_load {B} l (k : Atoms -> M B) w :
  bind (load l) k w = k (objs w l) w.
Proof. reflexivity. Qed.

Lemma bind_get_self {B} (k : StartGenerator -> M B) w :
  bind get_self k w = k (self w) w.
Proof. reflexivity. Qed.

Lemma bind_alloc {B} a (k : loc -> M B) w :
  bind (alloc a) k w =
  k (next w) (mkWorld (self w) (upd (objs w) (next w) a) (S (next w))
                      (floats w) (fpos w) (ints w) (ipos w)).
Proof. reflexivity. Qed.

Lemma bind_modify {B} l f (k : unit -> M B) w :
  bind (modify l f) k w =
  k tt (mkWorld (self w) (upd (objs w) l (f (objs w l))) (next w)
                (floats w) (fpos w) (ints w) (ipos w)).
Proof. reflexivity. Qed.

Lemma bind_random {B} (k : R -> M B) w :
  bind random k w =
  k (floats w (fpos w))
    (mkWorld (self w) (objs w) (next w) (floats w) (S (fpos w)) (ints w) (ipos w)).
Proof. reflexivity. Qed.

Lemma bind_randbelow {B} n (k : nat -> M B) w :
  bind (randbelow n) k w =
  k (Nat.modulo (ints w (ipos w)) n)
    (mkWorld (self w) (objs w) (next w) (floats w) (fpos w) (ints w) (S (ipos w))).
Proof. reflexivity. Qed.

Lemma bind_assoc {A B C} (m : M A) (k : A -> M B) (k' : B -> M C) w :
  bind (bind m k) k' w = bind m (fun a => bind (k a) k') w.
Proof. unfold bind. destruct (m w); reflexivity. Qed.

Lemma bind_raise_l {A B} e (k : A -> M B) w : bind (raise e) k w = Raise e.
Proof. reflexivity. Qed.

Lemma bind_out_of_fuel {A B} (k : A -> M B) w : bind out_of_fuel k w = OutOfFuel.
Proof. reflexivity. Qed.

Create Rewrite HintDb run.

#[export] Hint Rewrite @bind_ret_l @bind_load @bind_get_self @bind_alloc
  @bind_modify @bind_random @bind_randbelow @bind_assoc @bind_raise_l
  @bind_out_of_fuel : run.

Lemma evolves_refl w : evolves w w.
Proof. constructor; auto. Qed.

Lemma evolves_trans w1 w2 w3 : evolves w1 w2 -> evolves w2 w3 -> evolves w1 w3.
Proof.
  intros [a b c d e f] [a' b' c' d' e' f'].
  constructor; try congruence; lia.
Qed.

Lemma frame_refl n w : frame n w w.
Proof. intros l _. reflexivity. Qed.

Lemma frame_trans n w1 w2 w3 : frame n w1 w2 -> frame n w2 w3 -> frame n w1 w3.
Proof. intros H1 H2 l Hl. rewrite H2, H1; auto. Qed.

Lemma upd_same h l a : upd h l a l = a.
Proof. unfold upd. rewrite Nat.eqb_refl. reflexivity. Qed.

Lemma upd_other h l a l' : l' <> l -> upd h l a l' = h l'.
Proof.
  intros H. unfold upd. destruct (Nat.eqb_spec l' l); congruence.
Qed.

End Run.

Export Run.

(** Takes a hypothesis [m w = Ret a w'] apart, one [bind] at a time. *)
Ltac inv_ret H :=
  lazymatch type of H with
  | bind _ _ _ = Ret _ _ =>
      let a := fresh "a" in let w := fresh "w" in
      let H1 := fresh "H" in let H2 := fresh "H" in
      apply bind_ret in H; destruct H as (a & w & H1 & H2);
      inv_ret H1; inv_ret H2
  | ret _ _ = Ret _ _ => unfold ret in H; inversion H; subst; clear H
  | load _ _ = Ret _ _ => unfold load in H; inversion H; subst; clear H
  | alloc _ _ = Ret _ _ => unfold alloc in H; inversion H; subst; clear H
  | modify _ _ _ = Ret _ _ => unfold modify in H; inversion H; subst; clear H
  | random _ = Ret _ _ => unfold random in H; inversion H; subst; clear H
  | randbelow _ _ = Ret _ _ => unfold randbelow in H; inversion H; subst; clear H
  | get_self _ = Ret _ _ => unfold get_self in H; inversion H; subst; clear H
  | set_self _ _ = Ret _ _ => unfold set_self in H; inversion H; subst; clear H
  | raise _ _ = Ret _ _ => discriminate H
  | out_of_fuel _ = Ret _ _ => discriminate H
  | _ => idtac
  end.

(** Projections of an explicit world. *)
Ltac wsimpl := cbn [self objs next floats fpos ints ipos] in *.

(* ================================================================== *)
(** ** Lists and tags *)

Module ListFacts.

Open Scope nat_scope.

Lemma select_from_nth pre t l :
  map (fun i => nth i (pre ++ l) default_atom) (select_from (length pre) t l)
  = filter (has_tag t) l.
Proof.
  revert pre. induction l as [|x r IH]; intros pre; simpl; [reflexivity|].
  specialize (IH (pre ++ [x])).
  rewrite <- app_assoc in IH. simpl in IH.
  rewrite length_app in IH. simpl in IH. rewrite Nat.add_1_r in IH.
  unfold has_tag at 1. destruct (Nat.eqb (tag x) t); simpl.
  - rewrite IH. f_equal. rewrite nth_middle. reflexivity.
  - exact IH.
Qed.

Lemma getitem_select t a :
  atoms_list (getitem (select_tag t a) a) = filter (has_tag t) (atoms_list a).
Proof.
  unfold getitem, select_tag. simpl.
  exact (select_from_nth [] t (atoms_list a)).
Qed.

Lemma where_eq_from_In k i a g :
  In g (where_eq_from k i a) <-> k <= g /\ g - k < length a /\ nth (g - k) a (S i) = i.
Proof.
  revert k. induction a as [|x r IH]; intros k; simpl.
  - split; [tauto|]. intros (_ & H & _). lia.
  - destruct (Nat.eqb_spec x i) as [E|E]; simpl; rewrite IH.
    + split.
      * intros [<-|(H1 & H2 & H3)].
        -- rewrite Nat.sub_diag. repeat split; try lia; try exact E.
        -- replace (g - k) with (S (g - S k)) by lia. repeat split; try lia; try exact H3.
      * intros (H1 & H2 & H3). destruct (Nat.eq_dec k g) as [->|N]; [left; reflexivity|right].
        replace (g - k) with (S (g - S k)) in H3 by lia. repeat split; try lia; try exact H3.
    + split.
      * intros (H1 & H2 & H3).
        replace (g - k) with (S (g - S k)) by lia. repeat split; try lia; try exact H3.
      * intros (H1 & H2 & H3). destruct (Nat.eq_dec k g) as [->|N].
        -- rewrite Nat.sub_diag in H3. contradiction.
        -- replace (g - k) with (S (g - S k)) in H3 by lia. repeat split; try lia; try exact H3.
Qed.

Lemma where_eq_In i a g :
  In g (where_eq i a) <-> g < length a /\ nth g a (S i) = i.
Proof.
  unfold where_eq. rewrite where_eq_from_In. rewrite Nat.sub_0_r. intuition lia.
Qed.

Lemma where_eq_from_NoDup k i a : NoDup (where_eq_from k i a).
Proof.
  revert k. induction a as [|x r IH]; intros k; simpl; [constructor|].
  destruct (Nat.eqb x i); [|apply IH].
  constructor; [|apply IH]. rewrite where_eq_from_In. lia.
Qed.

Lemma where_eq_from_length k i a :
  length (where_eq_from k i a) = count_occ Nat.eq_dec a i.
Proof.
  revert k. induction a as [|x r IH]; intros k; simpl; [reflexivity|].
  destruct (Nat.eqb_spec x i), (Nat.eq_dec x i); try contradiction; simpl; rewrite IH; reflexivity.
Qed.

End ListFacts.

Export ListFacts.

(* ================================================================== *)
(** ** The random sources *)

Module RandomFacts.

Open Scope nat_scope.

Lemma rng_only_refl w : rng_only w w.
Proof. constructor; auto. Qed.

Lemma rng_only_trans w1 w2 w3 : rng_only w1 w2 -> rng_only w2 w3 -> rng_only w1 w3.
Proof. intros [] []. constructor; try congruence; lia. Qed.

Lemma rng_only_evolves w w' : rng_only w w' -> evolves w w'.
Proof. intros []. constructor; auto; lia. Qed.

Lemma rng_only_frame n w w' : rng_only w w' -> frame n w w'.
Proof. intros [] l _. congruence. Qed.

Lemma insert_at_perm j x l : Permutation (insert_at j x l) (x :: l).
Proof.
  unfold insert_at. rewrite <- (firstn_skipn j l) at 3.
  symmetry. apply Permutation_middle.
Qed.

Lemma permutation_spec n : forall w,
  exists p w', permutation n w = Ret p w' /\ Permutation p (seq 0 n) /\
               rng_only w w' /\ fpos w' = fpos w.
Proof.
  induction n as [|k IH]; intros w.
  - exists [], w. repeat split; auto. 
  - destruct (IH w) as (p & w1 & E & P & RO & F).
    cbn [permutation]. rewrite (bind_eq _ E). autorewrite with run.
    eexists _, _. split; [reflexivity|]. split; [|split].
    + rewrite seq_S. simpl. rewrite insert_at_perm.
      rewrite P. apply Permutation_cons_append.
    + destruct RO. constructor; cbn; auto.
    + cbn. exact F.
Qed.

Lemma random_spec w :
  exists w', random w = Ret (floats w (fpos w)) w' /\ rng_only w w'.
Proof. eexists. split; [reflexivity|]. constructor; cbn; auto. Qed.

Lemma nth_seq_map (l : list nat) :
  map (fun i => nth i l 0) (seq 0 (length l)) = l.
Proof.
  induction l as [|x r IH]; [reflexivity|].
  simpl. f_equal. rewrite <- seq_shift, map_map. exact IH.
Qed.

Lemma reorder_perm (l p : list nat) :
  Permutation p (seq 0 (length l)) ->
  Permutation (map (fun i => nth i l 0) p) l.
Proof.
  intros P. 
  apply (Permutation_map (fun i => nth i l 0)) in P.
  rewrite nth_seq_map in P. exact P.
Qed.

Lemma NoDup_firstn {A} (l : list A) k : NoDup l -> NoDup (firstn k l).
Proof.
  intros H. rewrite <- (firstn_skipn k l) in H.
  apply NoDup_app_remove_r in H. exact H.
Qed.

Lemma In_firstn {A} (l : list A) k x : In x (firstn k l) -> In x l.
Proof.
  intros H. rewrite <- (firstn_skipn k l). apply in_or_app. left. exact H.
Qed.

(** What [np.random.choice(a, size=k, replace=False)] answers. *)
Lemma choice_spec a k w bad w' :
  choice a k w = Ret bad w' ->
  NoDup a ->
  length bad = k /\ NoDup bad /\ incl bad a /\ rng_only w w'.
Proof.
  unfold choice. destruct (Nat.ltb_spec (length a) k) as [L|L]; [discriminate|].
  destruct (permutation_spec (length a) w) as (p & w1 & E & P & RO & _).
  rewrite (bind_eq _ E). intros H ND. inv_ret H.
  assert (NDp : NoDup p).
  { apply (Permutation_NoDup (l := seq 0 (length a))); [symmetry; exact P|apply seq_NoDup]. }
  assert (Bp : forall i, In i p -> i < length a).
  { intros i Hi. apply (Permutation_in _ P) in Hi. apply in_seq in Hi. lia. }
  split; [|split; [|split]].
  - rewrite length_map, length_firstn.
    rewrite (Permutation_length P), length_seq. lia.
  - apply NoDup_map_NoDup_ForallPairs; [|apply NoDup_firstn; exact NDp].
    intros i j Hi Hj Eq. apply In_firstn in Hi, Hj.
    apply (proj1 (NoDup_nth a 0) ND); auto.
  - intros x Hx. apply in_map_iff in Hx. destruct Hx as (i & <- & Hi).
    apply nth_In. apply Bp. eapply In_firstn; eauto.
  - exact RO.
Qed.

Lemma choice_raises a k w e :
  choice a k w = Raise e -> length a < k.
Proof.
  unfold choice. destruct (Nat.ltb_spec (length a) k) as [L|L]; [auto|].
  destruct (permutation_spec (length a) w) as (p & w1 & E & _).
  rewrite (bind_eq _ E). discriminate.
Qed.

Lemma choice_no_fuel a k w : choice a k w <> OutOfFuel.
Proof.
  unfold choice. destruct (Nat.ltb (length a) k); [discriminate|].
  destruct (permutation_spec (length a) w) as (p & w1 & E & _).
  rewrite (bind_eq _ E). discriminate.
Qed.

Lemma sample_range_spec n k w :
  k <= n ->
  exists d w', sample_range n k w = Ret d w' /\ length d = k /\
               (forall x, In x d -> x < n) /\ NoDup d /\
               rng_only w w' /\ fpos w' = fpos w.
Proof.
  intros L. unfold sample_range.
  destruct (Nat.ltb_spec n k); [lia|].
  destruct (permutation_spec n w) as (p & w1 & E & P & RO & F).
  rewrite (bind_eq _ E). eexists _, _. split; [reflexivity|].
  split; [|split; [|split; [|split]]]; auto.
  - rewrite length_firstn, (Permutation_length P), length_seq. lia.
  - intros x Hx. apply In_firstn in Hx. apply (Permutation_in _ P) in Hx.
    apply in_seq in Hx. lia.
  - apply NoDup_firstn. eapply Permutation_NoDup; [symmetry; exact P|apply seq_NoDup].
Qed.

End RandomFacts.

Export RandomFacts.

(* ================================================================== *)
(** ** The repeated candidate *)

Module FullFacts.

Open Scope nat_scope.

Lemma firstn_len_app {A} (P R : list A) : firstn (length P) (P ++ R) = P.
Proof. induction P; simpl; congruence. Qed.

Lemma skipn_len_app {A} (P R : list A) : skipn (length P) (P ++ R) = R.
Proof. induction P; simpl; congruence. Qed.

Lemma skipn_add_app {A} (P R : list A) k :
  skipn (length P + k) (P ++ R) = skipn k R.
Proof. induction P; simpl; congruence. Qed.

Lemma add_slice_chunk lo hi d (P c R : list nat) :
  length P = lo -> length c = hi - lo -> lo <= hi ->
  add_slice lo hi d (P ++ c ++ R) = P ++ map (fun t => t + d) c ++ R.
Proof.
  intros HP Hc L. unfold add_slice. subst lo.
  assert (E : hi = length P + length c) by lia. subst hi.
  rewrite firstn_len_app, skipn_len_app.
  replace (length P + length c - length P) with (length c) by lia.
  rewrite firstn_len_app, skipn_add_app, skipn_len_app. reflexivity.
Qed.

Lemma offset_fold n N ts : length ts = n ->
  forall k s pre, length (concat pre) = n * s ->
  fold_left (fun tf i => add_slice (n * i) (n * (i + 1)) (i * N) tf) (seq s k)
            (concat (pre ++ repeat ts k))
  = concat (pre ++ map (fun i => map (fun t => t + i * N) ts) (seq s k)).
Proof.
  intros Hn. induction k as [|k IH]; intros s pre Hpre; [reflexivity|].
  cbn [seq fold_left repeat map].
  rewrite concat_app. cbn [concat].
  rewrite add_slice_chunk; [|exact Hpre|lia|lia].
  specialize (IH (S s) (pre ++ [map (fun t => t + s * N) ts])).
  rewrite <- !app_assoc in IH. cbn [app] in IH.
  rewrite !concat_app in IH. cbn [concat] in IH.
  rewrite concat_app. cbn [concat].
  rewrite <- IH; [reflexivity|].
  rewrite length_app, Hpre. cbn [concat]. rewrite app_nil_r, length_map. lia.
Qed.

Lemma offset_tags_chunks n nrep N ts : length ts = n ->
  offset_tags n nrep N (concat (repeat ts nrep))
  = concat (map (fun i => map (fun t => t + i * N) ts) (seq 0 nrep)).
Proof.
  intros Hn. unfold offset_tags.
  apply (offset_fold n N ts Hn nrep 0 []). simpl. lia.
Qed.

Lemma combine_app {A B} (l1 l2 : list A) (m1 m2 : list B) :
  length l1 = length m1 ->
  combine (l1 ++ l2) (m1 ++ m2) = combine l1 m1 ++ combine l2 m2.
Proof.
  revert m1. induction l1 as [|x r IH]; intros [|y m1] H; try discriminate; simpl.
  - reflexivity.
  - f_equal. apply IH. simpl in H. lia.
Qed.

Lemma combine_map {A B C D} (f : A -> C) (g : B -> D) l m :
  combine (map f l) (map g m) = map (fun p => (f (fst p), g (snd p))) (combine l m).
Proof.
  revert m. induction l as [|x r IH]; intros [|y m]; simpl; try reflexivity.
  f_equal. apply IH.
Qed.

Lemma combine_same {A} (l : list A) : combine l l = map (fun x => (x, x)) l.
Proof. induction l; simpl; congruence. Qed.

Lemma get_tags_repeat_from ims a :
  map tag (flat_map (fun m =>
       map (move (fun p => vadd p (lattice (INR3 m) (cell a)))) (atoms_list a)) ims)
  = concat (repeat (get_tags a) (length ims)).
Proof.
  induction ims as [|m r IH]; simpl; [reflexivity|].
  rewrite map_app, IH. f_equal. rewrite map_map. reflexivity.
Qed.

Lemma retag_chunks a N : forall ims s,
  map (fun p => retag (snd p) (fst p))
    (combine
       (flat_map (fun m =>
          map (move (fun p => vadd p (lattice (INR3 m) (cell a)))) (atoms_list a)) ims)
       (concat (map (fun i => map (fun t => t + i * N) (get_tags a))
                    (seq s (length ims)))))
  = tagged_from s ims N a.
Proof.
  induction ims as [|m r IH]; intros s; [reflexivity|].
  unfold tagged_from. cbn [flat_map length seq map concat combine].
  rewrite combine_app by (unfold get_tags; rewrite !length_map; reflexivity).
  rewrite map_app. f_equal; [|apply IH].
  unfold get_tags. rewrite map_map, combine_map, combine_same, !map_map.
  apply map_ext. intros x. reflexivity.
Qed.

Lemma images_length rep :
  length (images rep) = (fst (fst rep) * snd (fst rep) * snd rep).
Proof.
  destruct rep as [[a b] c]. unfold images. simpl.
  assert (H1 : forall (l : list nat) (m0 : nat),
     length (flat_map (fun m1 => map (fun m2 => (m0, m1, m2)) (seq 0 c)) l)
     = length l * c).
  { induction l as [|x l IHl]; intros m0; simpl; [reflexivity|].
    rewrite length_app, length_map, length_seq, IHl. lia. }
  assert (H2 : forall (l : list nat),
     length (flat_map (fun m0 => flat_map (fun m1 =>
                map (fun m2 => (m0, m1, m2)) (seq 0 c)) (seq 0 b)) l)
     = length l * b * c).
  { induction l as [|x l IHl]; simpl; [reflexivity|].
    rewrite length_app, H1, length_seq, IHl. lia. }
  rewrite H2, length_seq. reflexivity.
Qed.

Lemma images_length_rep3 rep :
  length (images (to_nat3 rep)) = Pos.to_nat (product rep).
Proof.
  rewrite images_length. destruct rep as [[a b] c]. simpl.
  rewrite !Pos2Nat.inj_mul. reflexivity.
Qed.

(** Lines 204-209. *)
Lemma tagged_full_ok rep N a :
  atoms_list
    (set_tags_array
       (offset_tags (len a) (length (images rep)) N (get_tags (repeat_atoms rep a)))
       (repeat_atoms rep a))
  = tagged_full rep N a.
Proof.
  unfold set_tags_array, tagged_full. cbn [atoms_list with_atoms repeat_atoms].
  unfold get_tags at 1. cbn [atoms_list repeat_atoms].
  rewrite get_tags_repeat_from.
  rewrite offset_tags_chunks by (unfold get_tags, len; apply length_map).
  apply retag_chunks.
Qed.

End FullFacts.

Export FullFacts.

(* ================================================================== *)
(** ** Placing the blocks *)

Module PlaceFacts.

Open Scope nat_scope.

Lemma similar_refl a : similar a a.
Proof. repeat split. Qed.

Lemma similar_trans a b c : similar a b -> similar b c -> similar a c.
Proof. intros (?&?&?&?) (?&?&?&?). repeat split; congruence. Qed.

Lemma similar_moved f a :
  similar a (with_atoms a (map (move f) (atoms_list a))).
Proof.
  unfold similar, get_atomic_numbers, get_tags. simpl.
  rewrite !map_map. repeat split.
Qed.

Lemma similar_len a b : similar a b -> len a = len b.
Proof.
  intros (H & _). unfold len. apply (f_equal (@length nat)) in H.
  unfold get_atomic_numbers in H. rewrite !length_map in H. exact H.
Qed.

Section WithImports.
Variable ase : Imports.

Lemma similar_translate v a : similar a (translate v a).
Proof. apply similar_moved. Qed.

Lemma similar_rotate phi theta psi c a :
  similar a (euler_rotate ase phi theta psi c a).
Proof. apply similar_moved. Qed.

Ltac inv_bind H :=
  lazymatch type of H with
  | bind _ _ _ = Ret _ _ =>
      let a := fresh "a" in let w := fresh "w" in
      let H1 := fresh "H" in let H2 := fresh "H" in
      apply bind_ret in H; destruct H as (a & w & H1 & H2);
      inv_bind H1; inv_bind H2
  | ret _ _ = Ret _ _ => unfold ret in H; inversion H; subst; clear H
  | load _ _ = Ret _ _ => unfold load in H; inversion H; subst; clear H
  | get_self _ = Ret _ _ => unfold get_self in H; inversion H; subst; clear H
  | raise _ _ = Ret _ _ => discriminate H
  | out_of_fuel _ = Ret _ _ => discriminate H
  | _ => idtac
  end.

Lemma modify_inv l f w u w' : modify l f w = Ret u w' -> modified l f w w'.
Proof.
  unfold modify. intros H. inversion H; subst; clear H.
  constructor; cbn [self objs next floats fpos ints ipos].
  - constructor; cbn [self objs next floats fpos ints ipos]; auto.
  - reflexivity.
  - apply upd_same.
  - intros l' Hl. apply upd_other. exact Hl.
Qed.

Lemma alloc_inv a w l w' : alloc a w = Ret l w' -> allocated a l w w'.
Proof.
  unfold alloc. intros H. inversion H; subst; clear H.
  constructor; cbn [self objs next floats fpos ints ipos].
  - constructor; cbn [self objs next floats fpos ints ipos]; auto.
  - reflexivity.
  - reflexivity.
  - apply upd_same.
  - intros l' Hl. apply upd_other. exact Hl.
Qed.

Lemma random_inv w r w' : random w = Ret r w' -> rng_only w w'.
Proof.
  unfold random. intros H. inversion H; subst; clear H.
  constructor; cbn [self objs next floats fpos ints ipos]; auto.
Qed.

Lemma random_pos_inv c w p w' : random_pos c w = Ret p w' -> rng_only w w'.
Proof.
  unfold random_pos. intros H. inv_bind H.
  apply random_inv in H0, H, H1.
  eauto using rng_only_trans.
Qed.

Lemma random3_inv w p w' : random3 w = Ret p w' -> rng_only w w'.
Proof.
  unfold random3. intros H. inv_bind H.
  apply random_inv in H0, H, H1.
  eauto using rng_only_trans.
Qed.

Lemma try_position_spec cand atoms rotate cell w attempt w' :
  try_position ase cand atoms rotate cell w = Ret attempt w' ->
  cand <> atoms -> cand < next w -> atoms < next w ->
  evolves w w' /\ attempt = next w /\ next w' = S (next w) /\
  (forall l, l < next w -> l <> atoms -> objs w' l = objs w l) /\
  similar (objs w atoms) (objs w' atoms) /\
  objs w' attempt = wrap ase (extend (objs w cand) (objs w' atoms)).
Proof.
  intros H Hne Hc Ha. unfold try_position in H.
  rewrite bind_load in H.
  apply bind_ret in H. destruct H as (pos & w1 & Hpos & H).
  apply random_pos_inv in Hpos.
  pose proof (rng_only_evolves _ _ Hpos) as E01.
  destruct Hpos as [P1 P2 P3 _ _ _ _].
  apply bind_ret in H. destruct H as ([] & w2 & Hmod & H).
  apply modify_inv in Hmod. destruct Hmod as [M1 M2 M3 M4].
  apply bind_ret in H. destruct H as ([] & w3 & Hrot & H).
  assert (R : evolves w2 w3 /\ next w3 = next w2 /\
              similar (objs w2 atoms) (objs w3 atoms) /\
              forall l', l' <> atoms -> objs w3 l' = objs w2 l').
  { destruct rotate.
    - apply bind_ret in Hrot. destruct Hrot as ([[phi theta] psi] & w2' & Hr & Hm).
      apply random3_inv in Hr.
      pose proof (rng_only_evolves _ _ Hr) as E22.
      destruct Hr as [Q1 Q2 Q3 Q4 Q5 Q6 Q7].
      apply modify_inv in Hm. destruct Hm as [N1 N2 N3 N4].
      split; [eapply evolves_trans; [exact E22|exact N1]|].
      split; [congruence|]. split.
      + rewrite N3, Q2. apply similar_rotate.
      + intros l' Hl. rewrite N4 by exact Hl. rewrite Q2. reflexivity.
    - inversion Hrot; subst. repeat split; auto using evolves_refl. }
  destruct R as (R1 & R2 & R3 & R4).
  unfold add in H. rewrite !bind_assoc, !bind_load in H.
  apply bind_ret in H. destruct H as (att & w4 & Hal & H).
  apply alloc_inv in Hal. destruct Hal as [A1 A2 A3 A4 A5].
  apply bind_ret in H. destruct H as ([] & w5 & Hw & H).
  apply modify_inv in Hw. destruct Hw as [W1 W2 W3 W4].
  inversion H; subst; clear H.
  assert (E12 : evolves w w2).
  { eapply evolves_trans; [exact E01|exact M1]. }
  assert (Nx : next w3 = next w) by congruence.
  rewrite Nx in *.
  split; [eauto using evolves_trans|].
  split; [reflexivity|]. split; [congruence|].
  assert (At : objs w' atoms = objs w3 atoms).
  { rewrite W4, A5 by lia. reflexivity. }
  split; [|split].
  - intros l Hl Hla. rewrite W4, A5, R4, M4, P2 by lia. reflexivity.
  - rewrite At. eapply similar_trans; [|exact R3].
    rewrite M3, P2. apply similar_translate.
  - rewrite W3, A4, At. f_equal. f_equal.
    rewrite R4, M4, P2 by lia. reflexivity.
Qed.

Lemma returns_bind {A B} (m : M A) (k : A -> M B) w :
  returns m w ->
  (forall a w1, m w = Ret a w1 -> returns (k a) w1) ->
  returns (bind m k) w.
Proof.
  intros (a & w1 & E) H. destruct (H a w1 E) as (b & w' & E').
  exists b, w'. rewrite (bind_eq _ E). exact E'.
Qed.

Lemma returns_ret {A} (a : A) w : returns (ret a) w.
Proof. eexists _, _. reflexivity. Qed.

Lemma returns_load l w : returns (load l) w.
Proof. eexists _, _. reflexivity. Qed.

Lemma returns_alloc a w : returns (alloc a) w.
Proof. eexists _, _. reflexivity. Qed.

Lemma returns_modify l f w : returns (modify l f) w.
Proof. eexists _, _. reflexivity. Qed.

Lemma returns_random w : returns random w.
Proof. eexists _, _. reflexivity. Qed.

Lemma returns_get_self w : returns get_self w.
Proof. eexists _, _. reflexivity. Qed.

Ltac returns_step :=
  first [ apply returns_ret | apply returns_load | apply returns_alloc
        | apply returns_modify | apply returns_random | apply returns_get_self
        | apply returns_bind; [|intros ? ? _] ].

Lemma returns_random_pos c w : returns (random_pos c) w.
Proof. unfold random_pos. repeat returns_step. Qed.

Lemma returns_random3 w : returns random3 w.
Proof. unfold random3. repeat returns_step. Qed.

Lemma try_position_total cand atoms rotate cell w :
  returns (try_position ase cand atoms rotate cell) w.
Proof.
  unfold try_position, add.
  apply returns_bind; [apply returns_load|intros ? ? _].
  apply returns_bind; [apply returns_random_pos|intros ? ? _].
  apply returns_bind; [apply returns_modify|intros ? ? _].
  apply returns_bind.
  { destruct rotate; [|apply returns_ret].
    apply returns_bind; [apply returns_random3|intros [[? ?] ?] ? _].
    apply returns_modify. }
  intros ? ? _. repeat returns_step.
Qed.

Lemma place_block_spec cand atoms rotate cell blmin fuel : forall w w',
  place_block ase fuel cand atoms rotate cell blmin w = Ret tt w' ->
  cand <> atoms -> cand < next w -> atoms < next w ->
  evolves w w' /\
  (forall l, l < next w -> l <> cand -> l <> atoms -> objs w' l = objs w l) /\
  similar (objs w atoms) (objs w' atoms) /\
  objs w' cand = extend (objs w cand) (objs w' atoms) /\
  atoms_too_close ase (wrap ase (extend (objs w cand) (objs w' atoms))) blmin = false.
Proof.
  induction fuel as [|fuel IH]; intros w w' H Hne Hc Ha; [discriminate|].
  cbn [place_block] in H.
  apply bind_ret in H. destruct H as (attempt & w1 & H1 & H).
  apply try_position_spec in H1; auto.
  destruct H1 as (Ev1 & -> & N1 & F1 & S1 & A1).
  rewrite bind_load in H.
  destruct (atoms_too_close ase (objs w1 (next w)) blmin) eqn:TC.
  - apply IH in H; try lia; auto.
    destruct H as (Ev & F & S & C & T).
    split; [eapply evolves_trans; eauto|].
    split; [intros l Hl Hlc Hla; rewrite F by lia; apply F1; auto|].
    split; [eapply similar_trans; eauto|].
    rewrite (F1 cand) in C, T by lia. auto.
  - unfold iadd in H. rewrite bind_load in H.
    apply modify_inv in H. destruct H as [M1 M2 M3 M4].
    split; [eapply evolves_trans; eauto|].
    split; [intros l Hl Hlc Hla; rewrite M4 by lia; apply F1; auto|].
    rewrite (M4 atoms) by auto. split; [exact S1|].
    rewrite M3, (F1 cand) by lia. split; [reflexivity|].
    rewrite <- A1. exact TC.
Qed.

(** The placement loop gives an answer or runs out of fuel: it raises
    nothing. *)
Lemma place_block_no_raise cand atoms rotate cell blmin fuel : forall w e,
  place_block ase fuel cand atoms rotate cell blmin w <> Raise e.
Proof.
  induction fuel as [|fuel IH]; intros w e; [discriminate|].
  cbn [place_block].
  destruct (try_position_total cand atoms rotate cell w) as (att & w1 & E).
  rewrite (bind_eq _ E), bind_load.
  destruct (atoms_too_close ase (objs w1 att) blmin); [apply IH|].
  unfold iadd. rewrite bind_load. discriminate.
Qed.

Lemma instances_ext h h' i bs l :
  (forall b, In b bs -> h b = h' b) -> instances h i bs l -> instances h' i bs l.
Proof.
  intros E H. induction H as [|i b bs a rest H1 H2 H3 IH]; constructor.
  - rewrite <- E by (left; reflexivity). exact H1.
  - rewrite <- E by (left; reflexivity). exact H2.
  - apply IH. intros b' Hb. apply E. right. exact Hb.
Qed.

Lemma built_atoms bl c insts c' :
  built ase bl c insts c' ->
  atoms_list c' = atoms_list c ++ concat (map atoms_list insts) /\
  cell c' = cell c /\ pbc c' = pbc c.
Proof.
  intros H. induction H as [c|c a rest c' T B (IH1 & IH2 & IH3)].
  - simpl. rewrite app_nil_r. auto.
  - rewrite IH1, IH2, IH3. simpl. rewrite <- app_assoc. auto.
Qed.

Lemma get_tags_set_tags i a : get_tags (set_tags i a) = repeat i (len a).
Proof.
  unfold get_tags, set_tags, len. simpl. rewrite map_map. simpl.
  induction (atoms_list a); simpl; congruence.
Qed.

Lemma numbers_set_tags i a : get_atomic_numbers (set_tags i a) = get_atomic_numbers a.
Proof.
  unfold get_atomic_numbers, set_tags. simpl. rewrite map_map. reflexivity.
Qed.

Lemma place_all_spec fuel cand cell blmin blocks : forall i w cl w',
  place_all ase fuel cand cell blmin blocks i w = Ret cl w' ->
  cand < next w ->
  (forall b, In b blocks -> b < next w /\ b <> cand) ->
  evolves w w' /\
  (forall l, l < next w -> l <> cand -> objs w' l = objs w l) /\
  exists insts,
    instances (objs w) i blocks insts /\
    built ase blmin (objs w cand) insts (objs w' cand).
Proof.
  induction blocks as [|block rest IH]; intros i w cl w' H Hc Hb.
  - inversion H; subst. split; [apply evolves_refl|]. split; [auto|].
    exists []. split; constructor.
  - cbn [place_all] in H. unfold copy in H.
    rewrite bind_assoc, bind_load in H.
    apply bind_ret in H. destruct H as (atoms & w1 & Hal & H).
    apply alloc_inv in Hal. destruct Hal as [A1 A2 A3 A4 A5].
    apply bind_ret in H. destruct H as ([] & w2 & Hm & H).
    apply modify_inv in Hm. destruct Hm as [M1 M2 M3 M4].
    rewrite bind_load in H.
    apply bind_ret in H. destruct H as ([] & w3 & Hp & H).
    destruct (Hb block (or_introl eq_refl)) as (Hbn & Hbc).
    apply place_block_spec in Hp; [|lia|lia|lia].
    destruct Hp as (P1 & P2 & P3 & P4 & P5).
    apply bind_ret in H. destruct H as (cl' & w4 & Hr & H).
    inversion H; subst; clear H.
    assert (N2 : next w2 = S (next w)) by lia.
    pose proof (ev_next _ _ P1) as N3.
    apply IH in Hr; [|lia|].
    2:{ intros b Hin. destruct (Hb b (or_intror Hin)). split; [lia|auto]. }
    destruct Hr as (R1 & R2 & insts & R3 & R4).
    assert (C2 : objs w2 cand = objs w cand).
    { rewrite M4, A5 by lia. reflexivity. }
    assert (O3 : forall l, l < next w -> l <> cand -> objs w3 l = objs w l).
    { intros l Hl Hlc. rewrite P2, M4, A5 by lia. reflexivity. }
    split; [eauto using evolves_trans|].
    split.
    { intros l Hl Hlc. rewrite R2 by lia. apply O3; auto. }
    exists (objs w3 (next w) :: insts). split.
    + constructor.
      * destruct P3 as (E & _). rewrite <- E, M3, A4. apply numbers_set_tags.
      * destruct P3 as (_ & E & _). rewrite <- E, M3, A4. apply get_tags_set_tags.
      * eapply instances_ext; [|exact R3].
        intros b Hin. destruct (Hb b (or_intror Hin)). apply O3; auto.
    + econstructor.
      * rewrite <- C2. exact P5.
      * rewrite <- C2, <- P4. exact R4.
Qed.

Lemma place_all_no_raise fuel cand cell blmin blocks : forall i w e,
  place_all ase fuel cand cell blmin blocks i w <> Raise e.
Proof.
  induction blocks as [|block rest IH]; intros i w e; [discriminate|].
  cbn [place_all]. unfold copy. rewrite bind_assoc, bind_load, bind_alloc.
  rewrite bind_modify, bind_load.
  intros H. apply bind_raise in H. destruct H as [H|(a & w1 & _ & H)].
  - eapply place_block_no_raise; eauto.
  - apply bind_raise in H. destruct H as [H|(a' & w2 & _ & H)].
    + eapply IH; eauto.
    + discriminate.
Qed.

End WithImports.

End PlaceFacts.

Export PlaceFacts.

(* ================================================================== *)
(** ** Rebuilding the candidate *)

Module RebuildFacts.

Open Scope nat_scope.

Lemma groups_app cf kept1 : forall tc kept2,
  groups cf tc (kept1 ++ kept2)
  = groups cf tc kept1 ++ groups cf (tc + length kept1) kept2.
Proof.
  induction kept1 as [|g r IH]; intros tc kept2; simpl.
  - rewrite Nat.add_0_r. reflexivity.
  - rewrite IH, <- app_assoc. do 3 f_equal. lia.
Qed.

Section WithImports.
Variable ase : Imports.

Lemma keep_tags_spec cand cand_full block bad tags : forall tc w tc' w',
  keep_tags cand cand_full block bad tags tc w = Ret tc' w' ->
  cand < next w -> cand_full < next w -> block < next w ->
  cand <> cand_full -> cand <> block ->
  let kept := filter (not_bad bad) tags in
  let cf := atoms_list (objs w cand_full) in
  evolves w w' /\
  (forall l, l < next w -> l <> cand -> objs w' l = objs w l) /\
  tc' = tc + length kept /\
  atoms_list (objs w' cand) = atoms_list (objs w cand) ++ groups cf tc kept /\
  cell (objs w' cand) = cell (objs w cand) /\
  pbc (objs w' cand) = pbc (objs w cand) /\
  Forall (fun g => length (filter (has_tag g) cf) = len (objs w block)) kept.
Proof.
  induction tags as [|tag rest IH]; intros tc w tc' w' H Hc Hf Hb Hcf Hcb; cbn zeta.
  - inversion H; subst. split; [apply evolves_refl|]. split; [auto|].
    simpl. rewrite app_nil_r, Nat.add_0_r. auto.
  - cbn [keep_tags] in H. cbn [filter].
    change (not_bad bad tag) with (negb (mem tag bad)).
    destruct (mem tag bad); cbn [negb].
    + apply IH in H; auto.
    + rewrite bind_load in H.
      apply bind_ret in H. destruct H as (atoms & w1 & Hal & H).
      apply alloc_inv in Hal. destruct Hal as [A1 A2 A3 A4 A5].
      apply bind_ret in H. destruct H as ([] & w2 & Hm & H).
      apply modify_inv in Hm. destruct Hm as [M1 M2 M3 M4].
      rewrite !bind_load in H.
      destruct (Nat.eqb_spec (len (objs w2 atoms)) (len (objs w2 block))) as [EL|NL];
        [|discriminate].
      apply bind_ret in H. destruct H as ([] & w3 & Hi & H).
      unfold iadd in Hi. rewrite bind_load in Hi.
      apply modify_inv in Hi. destruct Hi as [I1 I2 I3 I4].
      subst atoms.
      assert (O3 : forall l, l < next w -> l <> cand -> objs w3 l = objs w l).
      { intros l Hl Hlc. rewrite I4, M4, A5 by lia. reflexivity. }
      apply IH in H; try lia; auto.
      destruct H as (R1 & R2 & R3 & R4 & R5 & R6 & R7).
      rewrite (O3 cand_full) in R4, R7 by lia.
      rewrite (O3 block) in R7 by lia.
      assert (At : atoms_list (objs w2 (next w))
                   = map (retag tc) (filter (has_tag tag) (atoms_list (objs w cand_full)))).
      { rewrite M3, A4. unfold set_tags. cbn [atoms_list with_atoms].
        rewrite getitem_select. reflexivity. }
      assert (C2 : objs w2 cand = objs w cand).
      { rewrite M4, A5 by lia. reflexivity. }
      split; [eauto using evolves_trans|].
      split; [intros l Hl Hlc; rewrite R2 by lia; apply O3; auto|].
      split; [simpl; lia|].
      split; [|split; [|split]].
      * rewrite R4, I3, C2. unfold extend. cbn [atoms_list with_atoms groups].
        rewrite At, <- app_assoc. reflexivity.
      * rewrite R5, I3, C2. reflexivity.
      * rewrite R6, I3, C2. reflexivity.
      * constructor; [|exact R7].
        rewrite (M4 block), A5 in EL by lia. rewrite <- EL.
        unfold len. rewrite At, length_map. reflexivity.
Qed.

Lemma keep_tags_returns cand cand_full block bad tags : forall tc w,
  cand < next w -> cand_full < next w -> block < next w ->
  cand <> cand_full -> cand <> block ->
  Forall (fun g => length (filter (has_tag g) (atoms_list (objs w cand_full)))
                   = len (objs w block))
         (filter (not_bad bad) tags) ->
  returns (keep_tags cand cand_full block bad tags tc) w.
Proof.
  induction tags as [|tag rest IH]; intros tc w Hc Hf Hb Hcf Hcb HF.
  - apply returns_ret.
  - cbn [keep_tags]. cbn [filter] in HF.
    change (not_bad bad tag) with (negb (mem tag bad)) in HF.
    destruct (mem tag bad); cbn [negb] in HF; [apply IH; auto|].
    inversion HF as [|g l HF1 HF2]; subst; clear HF.
    apply returns_bind; [apply returns_load|intros cf w0 E0].
    unfold load in E0. inversion E0; subst; clear E0.
    apply returns_bind; [apply returns_alloc|intros atoms w1 Hal].
    apply alloc_inv in Hal. destruct Hal as [A1 A2 A3 A4 A5].
    apply returns_bind; [apply returns_modify|intros [] w2 Hm].
    apply modify_inv in Hm. destruct Hm as [M1 M2 M3 M4].
    unfold returns. rewrite !bind_load. fold (returns (A:=nat)).
    subst atoms.
    assert (EL : len (objs w2 (next w0)) = len (objs w2 block)).
    { rewrite (M4 block), A5 by lia. rewrite <- HF1.
      rewrite M3, A4. unfold len, set_tags. cbn [atoms_list with_atoms].
      rewrite length_map, getitem_select. reflexivity. }
    rewrite EL, Nat.eqb_refl.
    apply returns_bind.
    { unfold iadd. unfold returns. rewrite bind_load. apply returns_modify. }
    intros [] w3 Hi. unfold iadd in Hi. rewrite bind_load in Hi.
    apply modify_inv in Hi. destruct Hi as [I1 I2 I3 I4].
    apply IH; try lia; auto.
    rewrite !I4, !M4, !A5 by lia. exact HF2.
Qed.

Lemma kept_lists_ext h h' cf indices_full surplus i bs ks :
  (forall b c, In (b, c) bs -> h b = h' b) ->
  kept_lists h cf indices_full surplus i bs ks ->
  kept_lists h' cf indices_full surplus i bs ks.
Proof.
  intros E H. induction H as [|i b c bs bad ks H1 H2 H3 H4 H5 IH]; constructor; auto.
  - rewrite <- (E b c) by (left; reflexivity). exact H4.
  - apply IH. intros b' c' Hin. apply (E b' c'). right. exact Hin.
Qed.

Lemma rebuild_blocks_spec cand cand_full indices_full surplus bs :
  forall i tc w tc' w',
  rebuild_blocks cand cand_full indices_full surplus i bs tc w = Ret tc' w' ->
  cand < next w -> cand_full < next w -> cand <> cand_full ->
  (forall b c, In (b, c) bs -> b < next w /\ b <> cand) ->
  let cf := atoms_list (objs w cand_full) in
  evolves w w' /\
  (forall l, l < next w -> l <> cand -> objs w' l = objs w l) /\
  exists keptss,
    kept_lists (objs w) cf indices_full surplus i bs keptss /\
    tc' = tc + length (concat keptss) /\
    atoms_list (objs w' cand)
      = atoms_list (objs w cand) ++ groups cf tc (concat keptss) /\
    cell (objs w' cand) = cell (objs w cand) /\
    pbc (objs w' cand) = pbc (objs w cand).
Proof.
  induction bs as [|[block count] rest IH]; intros i tc w tc' w' H Hc Hf Hcf Hb; cbn zeta.
  - inversion H; subst. split; [apply evolves_refl|]. split; [auto|].
    exists []. split; [constructor|]. simpl. rewrite app_nil_r, Nat.add_0_r. auto.
  - cbn [rebuild_blocks] in H.
    apply bind_ret in H. destruct H as (bad & w1 & Hch & H).
    apply choice_spec in Hch; [|apply where_eq_from_NoDup].
    destruct Hch as (B1 & B2 & B3 & RO).
    pose proof (rng_only_evolves _ _ RO) as E1.
    destruct RO as [_ O1 N1 _ _ _ _].
    apply bind_ret in H. destruct H as (tc1 & w2 & Hk & H).
    destruct (Hb block count (or_introl eq_refl)) as (Hbn & Hbc).
    apply keep_tags_spec in Hk; try lia; auto.
    cbn zeta in Hk. destruct Hk as (K1 & K2 & K3 & K4 & K5 & K6 & K7).
    rewrite O1 in K4, K5, K6, K7.
    pose proof (ev_next _ _ K1) as N2.
    apply IH in H; try lia; auto.
    2:{ intros b c Hin. destruct (Hb b c (or_intror Hin)). split; [lia|auto]. }
    cbn zeta in H. destruct H as (R1 & R2 & keptss & R3 & R4 & R5 & R6 & R7).
    assert (O2 : forall l, l < next w -> l <> cand -> objs w2 l = objs w l).
    { intros l Hl Hlc. rewrite K2 by lia. rewrite O1. reflexivity. }
    rewrite (O2 cand_full) in R3, R5 by lia.
    split; [eauto using evolves_trans|].
    split; [intros l Hl Hlc; rewrite R2 by lia; apply O2; auto|].
    exists (filter (not_bad bad) (where_eq i indices_full) :: keptss).
    split; [|split; [|split; [|split]]].
    + constructor; auto.
      eapply kept_lists_ext; [|exact R3].
      intros b c Hin. destruct (Hb b c (or_intror Hin)). apply O2; auto.
    + cbn [concat]. rewrite length_app. lia.
    + rewrite R5, K4. cbn [concat]. rewrite groups_app, <- app_assoc, K3. reflexivity.
    + congruence.
    + congruence.
Qed.

Lemma choice_returns a k w : k <= length a -> returns (choice a k) w.
Proof.
  intros L. unfold choice. destruct (Nat.ltb_spec (length a) k); [lia|].
  destruct (permutation_spec (length a) w) as (p & w1 & E & _).
  unfold returns. rewrite (bind_eq _ E). eexists _, _. reflexivity.
Qed.

Lemma groups_ok_ext h h' cf indices_full surplus i bs :
  (forall b c, In (b, c) bs -> h b = h' b) ->
  groups_ok h cf indices_full surplus i bs ->
  groups_ok h' cf indices_full surplus i bs.
Proof.
  intros E H. induction H as [|i b c bs H1 H2 H3 IH]; constructor; auto.
  - intros g Hg. rewrite <- (E b c) by (left; reflexivity). auto.
  - apply IH. intros b' c' Hin. apply (E b' c'). right. exact Hin.
Qed.

Lemma rebuild_blocks_returns cand cand_full indices_full surplus bs :
  forall i tc w,
  cand < next w -> cand_full < next w -> cand <> cand_full ->
  (forall b c, In (b, c) bs -> b < next w /\ b <> cand) ->
  groups_ok (objs w) (atoms_list (objs w cand_full)) indices_full surplus i bs ->
  returns (rebuild_blocks cand cand_full indices_full surplus i bs tc) w.
Proof.
  induction bs as [|[block count] rest IH]; intros i tc w Hc Hf Hcf Hb G.
  - apply returns_ret.
  - cbn [rebuild_blocks]. inversion G as [|i' b c bs G1 G2 G3]; subst; clear G.
    destruct (Hb block count (or_introl eq_refl)) as (Hbn & Hbc).
    apply returns_bind; [apply choice_returns; exact G1|intros bad w1 Hch].
    apply choice_spec in Hch; [|apply where_eq_from_NoDup].
    destruct Hch as (B1 & B2 & B3 & RO).
    destruct RO as [_ O1 N1 _ _ _ _].
    apply returns_bind.
    { apply keep_tags_returns; try lia; auto.
      rewrite O1. apply Forall_forall. intros g Hg.
      apply filter_In in Hg. apply G2. tauto. }
    intros tc1 w2 Hk.
    apply keep_tags_spec in Hk; try lia; auto.
    cbn zeta in Hk. destruct Hk as (K1 & K2 & _).
    pose proof (ev_next _ _ K1) as N2.
    assert (O2 : forall l, l < next w -> l <> cand -> objs w2 l = objs w l).
    { intros l Hl Hlc. rewrite K2 by lia. rewrite O1. reflexivity. }
    apply IH; try lia; auto.
    + intros b c Hin. destruct (Hb b c (or_intror Hin)). split; [lia|auto].
    + rewrite (O2 cand_full) by lia.
      eapply groups_ok_ext; [|exact G3].
      intros b c Hin. destruct (Hb b c (or_intror Hin)). symmetry. apply O2; auto.
Qed.

Lemma cf_value cand rep N w w1 w2 cand_full :
  alloc (repeat_atoms (to_nat3 rep) (objs w cand)) w = Ret cand_full w1 ->
  modify cand_full
    (set_tags_array
       (offset_tags (len (objs w cand)) (Pos.to_nat (product rep)) N
          (get_tags (objs w1 cand_full)))) w1 = Ret tt w2 ->
  atoms_list (objs w2 cand_full) = tagged_full (to_nat3 rep) N (objs w cand).
Proof.
  intros Hal Hm.
  apply alloc_inv in Hal. destruct Hal as [A1 A2 A3 A4 A5].
  apply modify_inv in Hm. destruct Hm as [M1 M2 M3 M4].
  rewrite M3, A4, <- images_length_rep3. apply tagged_full_ok.
Qed.

Lemma rebuild_spec cand rep full_cell N indices surplus w l w' :
  rebuild cand rep full_cell N indices surplus w = Ret l w' ->
  cand < next w ->
  (forall b c, In (b, c) (self_blocks (self w)) -> b < next w) ->
  let cf := tagged_full (to_nat3 rep) N (objs w cand) in
  evolves w w' /\ frame (next w) w w' /\ next w <= l /\ l < next w' /\
  exists keptss,
    kept_lists (objs w) cf (tile indices (Pos.to_nat (product rep))) surplus
               0 (self_blocks (self w)) keptss /\
    atoms_list (objs w' l) = groups cf 0 (concat keptss) /\
    cell (objs w' l) = full_cell /\ pbc (objs w' l) = pbc3.
Proof.
  intros H Hc Hb. cbn zeta. unfold rebuild, repeat_, Atoms_init in H.
  rewrite bind_get_self, bind_load, bind_assoc, bind_load in H.
  apply bind_ret in H. destruct H as (cand_full & w1 & Hal & H).
  rewrite bind_load in H.
  apply bind_ret in H. destruct H as ([] & w2 & Hm & H).
  pose proof (cf_value _ _ _ _ _ _ _ Hal Hm) as CF.
  apply alloc_inv in Hal. destruct Hal as [A1 A2 A3 A4 A5].
  apply modify_inv in Hm. destruct Hm as [M1 M2 M3 M4].
  apply bind_ret in H. destruct H as (cand' & w3 & Hal' & H).
  apply alloc_inv in Hal'. destruct Hal' as [C1 C2 C3 C4 C5].
  apply bind_ret in H. destruct H as (tc & w4 & Hr & H).
  inversion H; subst; clear H.
  assert (S1 : self w3 = self w).
  { rewrite (ev_self _ _ C1), (ev_self _ _ M1), (ev_self _ _ A1). reflexivity. }
  rewrite <- S1 in Hr.
  assert (O3 : forall x, x < next w -> objs w3 x = objs w x).
  { intros x Hx. rewrite C5, M4, A5 by lia. reflexivity. }
  apply rebuild_blocks_spec in Hr; try lia.
  2:{ intros b c Hin. rewrite S1 in Hin. apply Hb in Hin. lia. }
  cbn zeta in Hr. destruct Hr as (R1 & R2 & keptss & R3 & R4 & R5 & R6 & R7).
  assert (CF3 : atoms_list (objs w3 (next w)) = tagged_full (to_nat3 rep) N (objs w cand)).
  { rewrite C5 by lia. exact CF. }
  rewrite CF3 in R3, R5.
  pose proof (ev_next _ _ R1) as N4.
  split; [eauto using evolves_trans|].
  split; [intros x Hx; rewrite R2 by lia; apply O3; exact Hx|].
  split; [lia|]. split; [lia|].
  exists keptss. split; [|split; [|split]].
  - rewrite S1 in R3. eapply kept_lists_ext; [|exact R3].
    intros b c Hin. apply O3. eapply Hb; eauto.
  - rewrite R5, C4. reflexivity.
  - rewrite R6, C4. reflexivity.
  - rewrite R7, C4. reflexivity.
Qed.

Lemma rebuild_returns cand rep full_cell N indices surplus w :
  cand < next w ->
  (forall b c, In (b, c) (self_blocks (self w)) -> b < next w) ->
  groups_ok (objs w) (tagged_full (to_nat3 rep) N (objs w cand))
            (tile indices (Pos.to_nat (product rep))) surplus
            0 (self_blocks (self w)) ->
  returns (rebuild cand rep full_cell N indices surplus) w.
Proof.
  intros Hc Hb G. unfold rebuild, repeat_, Atoms_init.
  unfold returns. rewrite bind_get_self, bind_load, bind_assoc, bind_load.
  fold (returns (A:=loc)).
  apply returns_bind; [apply returns_alloc|intros cand_full w1 Hal].
  unfold returns. rewrite bind_load. fold (returns (A:=loc)).
  apply returns_bind; [apply returns_modify|intros [] w2 Hm].
  pose proof (cf_value _ _ _ _ _ _ _ Hal Hm) as CF.
  apply alloc_inv in Hal. destruct Hal as [A1 A2 A3 A4 A5].
  apply modify_inv in Hm. destruct Hm as [M1 M2 M3 M4].
  apply returns_bind; [apply returns_alloc|intros cand' w3 Hal'].
  apply alloc_inv in Hal'. destruct Hal' as [C1 C2 C3 C4 C5].
  assert (S1 : self w3 = self w).
  { rewrite (ev_self _ _ C1), (ev_self _ _ M1), (ev_self _ _ A1). reflexivity. }
  assert (O3 : forall x, x < next w -> objs w3 x = objs w x).
  { intros x Hx. rewrite C5, M4, A5 by lia. reflexivity. }
  apply returns_bind; [|intros; apply returns_ret].
  subst. rewrite <- S1.
  apply rebuild_blocks_returns; try lia.
  - intros b c Hin. rewrite S1 in Hin. apply Hb in Hin. lia.
  - rewrite C5 by lia. rewrite CF. rewrite S1.
    eapply groups_ok_ext; [|exact G].
    intros b c Hin. symmetry. apply O3. eapply Hb; eauto.
Qed.

End WithImports.

End RebuildFacts.

Export RebuildFacts.

(* ================================================================== *)
(** ** Counting *)

Module CountFacts.

Open Scope nat_scope.

Lemma ceil_div_ge c n : 0 < n -> c <= n * ceil_div c n.
Proof.
  intros Hn. unfold ceil_div.
  pose proof (Nat.div_mod_eq (c + n - 1) n) as E.
  pose proof (Nat.mod_upper_bound (c + n - 1) n ltac:(lia)) as B.
  nia.
Qed.

Lemma ceil_div_surplus c n : 0 < n -> n * ceil_div c n - c < n.
Proof.
  intros Hn. unfold ceil_div.
  pose proof (Nat.div_mod_eq (c + n - 1) n) as E.
  pose proof (Nat.mod_upper_bound (c + n - 1) n ltac:(lia)) as B.
  nia.
Qed.

Lemma tile_length l n : length (tile l n) = n * length l.
Proof.
  unfold tile. induction n as [|n IH]; simpl; [reflexivity|].
  rewrite length_app, IH. reflexivity.
Qed.

Lemma tile_nth l n g d :
  g < n * length l -> nth g (tile l n) d = nth (g mod length l) l d.
Proof.
  unfold tile. revert g. induction n as [|n IH]; intros g Hg; [simpl in Hg; lia|].
  simpl. destruct (Nat.lt_ge_cases g (length l)) as [L|L].
  - rewrite app_nth1 by exact L. rewrite Nat.mod_small by exact L. reflexivity.
  - rewrite app_nth2 by exact L. rewrite IH by (simpl in Hg; lia).
    f_equal. 
    assert (length l <> 0) by lia.
    replace g with ((g - length l) + 1 * length l) at 2 by lia.
    rewrite Nat.Div0.mod_add. reflexivity.
Qed.

Lemma tile_count l n i :
  count_occ Nat.eq_dec (tile l n) i = n * count_occ Nat.eq_dec l i.
Proof.
  unfold tile. induction n as [|n IH]; simpl; [reflexivity|].
  rewrite count_occ_app, IH. reflexivity.
Qed.

Lemma mem_In t l : mem t l = true <-> In t l.
Proof.
  unfold mem. rewrite existsb_exists. split.
  - intros (x & Hx & E). apply Nat.eqb_eq in E. subst. exact Hx.
  - intros H. exists t. split; [exact H|apply Nat.eqb_refl].
Qed.

(** Taking [bad] out of [tags] leaves [len(tags) - len(bad)] tags. *)
Lemma kept_length bad : forall tags,
  NoDup bad -> NoDup tags -> incl bad tags ->
  length (filter (not_bad bad) tags) = length tags - length bad.
Proof.
  induction bad as [|b bad IH]; intros tags NB NT I.
  - unfold not_bad. simpl. rewrite Nat.sub_0_r. 
    induction tags; simpl; [reflexivity|]. inversion NT; subst. f_equal. 
    apply IHtags; [assumption|]. intros x Hx. inversion Hx.
  - inversion NB as [|? ? Nb NB']; subst.
    assert (Hb : In b tags) by (apply I; left; reflexivity).
    apply in_split in Hb. destruct Hb as (t1 & t2 & ->).
    assert (NT' : NoDup (t1 ++ t2)) by (eapply NoDup_remove_1; eauto).
    assert (Nb' : ~ In b (t1 ++ t2)) by (eapply NoDup_remove_2; eauto).
    assert (I' : incl bad (t1 ++ t2)).
    { intros x Hx. assert (In x (t1 ++ b :: t2)) by (apply I; right; exact Hx).
      apply in_app_or in H. apply in_or_app. destruct H as [H|[H|H]]; auto.
      subst. contradiction. }
    specialize (IH (t1 ++ t2) NB' NT' I').
    assert (F : forall l, ~ In b l ->
               filter (not_bad (b :: bad)) l = filter (not_bad bad) l).
    { intros l Hl. apply filter_ext_in. intros x Hx.
      unfold not_bad, mem. simpl. destruct (Nat.eqb_spec x b); [subst; contradiction|].
      reflexivity. }
    rewrite filter_app. cbn [filter].
    assert (Eb : not_bad (b :: bad) b = false).
    { unfold not_bad, mem. simpl. rewrite Nat.eqb_refl. reflexivity. }
    rewrite Eb, <- filter_app, F by exact Nb'.
    rewrite IH, !length_app. simpl. lia.
Qed.

End CountFacts.

Export CountFacts.

(* ================================================================== *)
(** ** The list of instances to place *)

Module ExpandFacts.

Open Scope nat_scope.

Lemma Forall2_repeat {A B} (R : A -> B -> Prop) a b n :
  R a b -> Forall2 R (repeat a n) (repeat b n).
Proof. intros H. induction n; simpl; constructor; auto. Qed.

Lemma count_occ_repeat_eq i n : count_occ Nat.eq_dec (repeat i n) i = n.
Proof.
  induction n; simpl; [reflexivity|]. destruct (Nat.eq_dec i i); [lia|contradiction].
Qed.

Lemma count_occ_repeat_neq i j n : i <> j -> count_occ Nat.eq_dec (repeat i n) j = 0.
Proof.
  intros H. induction n; simpl; [reflexivity|]. destruct (Nat.eq_dec i j); [contradiction|auto].
Qed.

Lemma expand_aligned n bs : forall pre,
  Forall2 (block_at (pre ++ bs))
          (fst (fst (expand (length pre) n bs))) (snd (expand (length pre) n bs)).
Proof.
  induction bs as [|[b c] rest IH]; intros pre; simpl; [constructor|].
  specialize (IH (pre ++ [(b, c)])).
  rewrite length_app, Nat.add_1_r, <- app_assoc in IH. simpl in IH.
  destruct (expand (S (length pre)) n rest) as [[B Su] I]. simpl in *.
  apply Forall2_app; [|exact IH].
  apply Forall2_repeat. exists c.
  rewrite nth_error_app2 by lia. rewrite Nat.sub_diag. reflexivity.
Qed.

Lemma expand_count n bs : forall i0,
  (forall i, i < i0 -> count_occ Nat.eq_dec (snd (expand i0 n bs)) i = 0) /\
  (forall k b c, nth_error bs k = Some (b, c) ->
     count_occ Nat.eq_dec (snd (expand i0 n bs)) (i0 + k) = ceil_div c n).
Proof.
  induction bs as [|[b c] rest IH]; intros i0; simpl.
  - split; [reflexivity|]. intros [|k] ? ? H; discriminate.
  - destruct (IH (S i0)) as (IH1 & IH2).
    destruct (expand (S i0) n rest) as [[B Su] I]. simpl in *.
    split.
    + intros i Hi. rewrite count_occ_app, count_occ_repeat_neq by lia.
      rewrite IH1 by lia. reflexivity.
    + intros [|k] b' c' H; simpl in H.
      * inversion H; subst. rewrite count_occ_app, Nat.add_0_r, count_occ_repeat_eq.
        rewrite IH1 by lia. lia.
      * rewrite count_occ_app, count_occ_repeat_neq by lia.
        replace (i0 + S k) with (S i0 + k) by lia. eapply IH2; eauto.
Qed.

Lemma expand_count_out n bs : forall i0 i,
  i0 + length bs <= i -> count_occ Nat.eq_dec (snd (expand i0 n bs)) i = 0.
Proof.
  induction bs as [|[b c] rest IH]; intros i0 i Hi; simpl; [reflexivity|].
  specialize (IH (S i0) i). destruct (expand (S i0) n rest) as [[B Su] I]. simpl in *.
  rewrite count_occ_app, count_occ_repeat_neq by lia. apply IH. lia.
Qed.

Lemma expand_surplus n bs : forall i0,
  snd (fst (expand i0 n bs))
  = map (fun bc => n * ceil_div (snd bc) n - snd bc) bs.
Proof.
  induction bs as [|[b c] rest IH]; intros i0; simpl; [reflexivity|].
  specialize (IH (S i0)). destruct (expand (S i0) n rest) as [[B Su] I]. simpl in *.
  rewrite IH. reflexivity.
Qed.

Lemma expand_lengths n bs : forall i0,
  length (fst (fst (expand i0 n bs))) = length (snd (expand i0 n bs)).
Proof.
  induction bs as [|[b c] rest IH]; intros i0; simpl; [reflexivity|].
  specialize (IH (S i0)). destruct (expand (S i0) n rest) as [[B Su] I]. simpl in *.
  rewrite !length_app, !repeat_length, IH. reflexivity.
Qed.

(** Putting two lists in the same new order keeps them aligned. *)
Lemma reorder_aligned {A B} (R : A -> B -> Prop) (l : list A) (m : list B) da db order :
  Forall2 R l m -> (forall o, In o order -> o < length l) ->
  Forall2 R (map (fun i => nth i l da) order) (map (fun i => nth i m db) order).
Proof.
  intros F H. induction order as [|o r IH]; simpl; constructor.
  - assert (Ho : o < length l) by (apply H; left; reflexivity).
    clear IH H. revert o Ho. induction F; intros o Ho; simpl in *; [lia|].
    destruct o; [assumption|]. apply IHF. lia.
  - apply IH. intros o' Ho'. apply H. right. exact Ho'.
Qed.

End ExpandFacts.

Export ExpandFacts.

(* ================================================================== *)
(** ** The group of a tag *)

Module GroupFacts.

Open Scope nat_scope.

Lemma filter_all_tag t l :
  Forall (fun x => tag x = t) l -> filter (has_tag t) l = l.
Proof.
  induction 1 as [|x l H F IH]; simpl; [reflexivity|].
  unfold has_tag at 1. rewrite H, Nat.eqb_refl, IH. reflexivity.
Qed.

Lemma filter_no_tag t l :
  Forall (fun x => tag x <> t) l -> filter (has_tag t) l = [].
Proof.
  induction 1 as [|x l H F IH]; simpl; [reflexivity|].
  unfold has_tag at 1. destruct (Nat.eqb_spec (tag x) t); [contradiction|exact IH].
Qed.

Lemma tags_repeat a i n :
  get_tags a = repeat i n -> Forall (fun x => tag x = i) (atoms_list a).
Proof.
  unfold get_tags. revert n. induction (atoms_list a) as [|x l IH]; intros n H; [constructor|].
  destruct n; [discriminate|]. simpl in H. injection H as H0 H1.
  constructor; [exact H0|]. eapply IH. exact H1.
Qed.

Lemma instances_length h i bs insts :
  instances h i bs insts -> length insts = length bs.
Proof. induction 1; simpl; congruence. Qed.

Section Inst.
Variable ase : Imports.
Variable h : loc -> Atoms.

Lemma instances_nth i bs insts :
  instances h i bs insts ->
  forall t, t < length bs ->
    get_atomic_numbers (nth t insts (Atoms_empty zero_cell pbc3))
      = get_atomic_numbers (h (nth t bs 0)) /\
    Forall (fun x => tag x = i + t)
           (atoms_list (nth t insts (Atoms_empty zero_cell pbc3))).
Proof.
  induction 1 as [|i b bs a rest H1 H2 H3 IH]; intros t Ht; simpl in Ht; [lia|].
  destruct t as [|t]; simpl.
  - split; [exact H1|]. rewrite Nat.add_0_r. eapply tags_repeat; eauto.
  - replace (i + S t) with (S i + t) by lia. apply IH. lia.
Qed.

(** In the finished subcell, the atoms with tag [t] are those of
    instance [t]. *)
Lemma instances_filter i bs insts :
  instances h i bs insts ->
  forall t, i <= t -> t < i + length bs ->
    filter (has_tag t) (concat (map atoms_list insts))
    = atoms_list (nth (t - i) insts (Atoms_empty zero_cell pbc3)).
Proof.
  induction 1 as [|i b bs a rest H1 H2 H3 IH]; intros t L1 L2; simpl in L2; [lia|].
  cbn [map concat]. rewrite filter_app.
  apply tags_repeat in H2.
  destruct (Nat.eq_dec t i) as [->|N].
  - rewrite Nat.sub_diag. cbn [nth]. rewrite filter_all_tag by exact H2.
    rewrite filter_no_tag; [apply app_nil_r|].
    clear -H3. apply Forall_forall. intros x Hx.
    apply in_concat in Hx. destruct Hx as (l & Hl & Hx).
    apply in_map_iff in Hl. destruct Hl as (a' & <- & Ha').
    apply In_nth with (d := Atoms_empty zero_cell pbc3) in Ha'.
    destruct Ha' as (k & Hk & <-).
    rewrite (instances_length _ _ _ _ H3) in Hk.
    destruct (instances_nth _ _ _ H3 _ Hk) as (_ & F).
    rewrite Forall_forall in F. rewrite (F x Hx). lia.
  - rewrite filter_no_tag.
    2:{ eapply Forall_impl; [|exact H2]. intros x Hx. simpl in Hx. lia. }
    cbn [app]. replace (t - i) with (S (t - S i)) by lia. cbn [nth].
    apply IH; lia.
Qed.

Lemma instances_tags_lt i bs insts :
  instances h i bs insts ->
  Forall (fun x => tag x < i + length bs) (concat (map atoms_list insts)).
Proof.
  induction 1 as [|i b bs a rest H1 H2 H3 IH]; simpl; [constructor|].
  apply Forall_app. split.
  - apply tags_repeat in H2. eapply Forall_impl; [|exact H2].
    intros x Hx. simpl in Hx. lia.
  - eapply Forall_impl; [|exact IH]. intros x Hx. simpl in Hx. lia.
Qed.

End Inst.

(** In the repeated cell, the atoms with tag [g] are the image number
    [g / N] of the atoms with tag [g mod N]. *)
Lemma filter_image c N i m g l :
  0 < N -> Forall (fun x => tag x < N) l ->
  filter (has_tag g) (map (image_atom c N (i, m)) l)
  = if Nat.eqb i (g / N)
    then map (image_atom c N (i, m)) (filter (has_tag (g mod N)) l)
    else [].
Proof.
  intros HN F. induction F as [|x l Hx F IH]; simpl.
  - destruct (Nat.eqb i (g / N)); reflexivity.
  - rewrite IH. unfold has_tag at 1. cbn [image_atom tag fst].
    pose proof (Nat.div_mod_eq g N) as E.
    pose proof (Nat.mod_upper_bound g N ltac:(lia)) as B.
    destruct (Nat.eqb_spec i (g / N)) as [Ei|Ni].
    + change (has_tag (g mod N) x) with (Nat.eqb (tag x) (g mod N)).
      destruct (Nat.eqb_spec (tag x + i * N) g) as [E1|N1];
        destruct (Nat.eqb_spec (tag x) (g mod N)) as [E2|N2]; try reflexivity.
      * exfalso. apply N2. subst i. nia.
      * exfalso. apply N1. subst i. nia.
    + destruct (Nat.eqb_spec (tag x + i * N) g) as [E1|N1]; [|reflexivity].
      exfalso. apply Ni. subst g.
      rewrite Nat.div_add by lia. rewrite Nat.div_small by lia. reflexivity.
Qed.

Lemma filter_tagged_from a N g : 0 < N ->
  Forall (fun x => tag x < N) (atoms_list a) ->
  forall ims s, s <= g / N -> g / N < s + length ims ->
  filter (has_tag g) (tagged_from s ims N a)
  = map (image_atom (cell a) N (g / N, nth (g / N - s) ims (0, 0, 0)))
        (filter (has_tag (g mod N)) (atoms_list a)).
Proof.
  intros HN F. induction ims as [|m r IH]; intros s L1 L2; simpl in L2; [lia|].
  unfold tagged_from. cbn [length seq combine flat_map].
  rewrite filter_app, filter_image by assumption.
  destruct (Nat.eqb_spec s (g / N)) as [E|NE].
  - rewrite <- E, Nat.sub_diag. cbn [nth].
    assert (Z : forall ims' s', g / N < s' ->
              filter (has_tag g) (tagged_from s' ims' N a) = []).
    { clear -HN F. induction ims' as [|m' r' IH']; intros s' L; [reflexivity|].
      unfold tagged_from. cbn [length seq combine flat_map].
      rewrite filter_app, filter_image by assumption.
      destruct (Nat.eqb_spec s' (g / N)); [lia|]. cbn [app].
      apply IH'. lia. }
    fold (tagged_from (S s) r N a). rewrite Z by lia. rewrite E. apply app_nil_r.
  - cbn [app]. fold (tagged_from (S s) r N a). rewrite IH by lia.
    replace (g / N - s) with (S (g / N - S s)) by lia. reflexivity.
Qed.

End GroupFacts.

Export GroupFacts.

(* ================================================================== *)
(** ** The cell *)

Module CellFacts.

Open Scope nat_scope.

Lemma sample_once_spec tv w c w' :
  sample_once tv w = Ret c w' ->
  c = rescale tv (raw_cell tv (fun k => floats w (fpos w + k))) /\
  rng_only w w' /\ fpos w' = fpos w + 6 /\ ipos w' = ipos w.
Proof.
  unfold sample_once. rewrite !bind_random. unfold ret.
  intros H. inversion H; subst; clear H.
  split; [|split; [|split]].
  - unfold rescale, raw_cell. cbn [fpos floats].
    rewrite !Nat.add_0_r.
    replace (fpos w + 1) with (S (fpos w)) by lia.
    replace (fpos w + 2) with (S (S (fpos w))) by lia.
    replace (fpos w + 3) with (S (S (S (fpos w)))) by lia.
    replace (fpos w + 4) with (S (S (S (S (fpos w))))) by lia.
    replace (fpos w + 5) with (S (S (S (S (S (fpos w)))))) by lia.
    reflexivity.
  - constructor; cbn [self objs next floats fpos ints ipos]; auto; lia.
  - cbn [fpos]. lia.
  - reflexivity.
Qed.

Lemma returns_sample_once tv w : returns (sample_once tv) w.
Proof.
  unfold sample_once, returns. rewrite !bind_random. eexists _, _. reflexivity.
Qed.

Lemma is_valid_true cb m c full :
  is_valid cb m c full = true ->
  (forall f, cb = Some f -> f full = true) /\
  (forall i, i < 3 -> ~ (norm (row c i) < m)%R).
Proof.
  unfold is_valid. cbn [seq fold_left].
  intros H.
  destruct (Rlt_dec (norm (row c 2)) m) as [L2|L2]; [discriminate|].
  destruct (Rlt_dec (norm (row c 1)) m) as [L1|L1]; [discriminate|].
  destruct (Rlt_dec (norm (row c 0)) m) as [L0|L0]; [discriminate|].
  split.
  - intros f ->. destruct (f full); [reflexivity|discriminate].
  - intros i Hi. destruct i as [|[|[|i]]]; try assumption; lia.
Qed.

Lemma is_valid_rejected f m c full :
  f full = false -> is_valid (Some f) m c full = false.
Proof.
  unfold is_valid. cbn [seq fold_left]. intros ->.
  destruct (Rlt_dec (norm (row c 0)) m), (Rlt_dec (norm (row c 1)) m),
    (Rlt_dec (norm (row c 2)) m); reflexivity.
Qed.

Lemma sample_cell_spec tv rep fuel : forall w c full w',
  sample_cell fuel tv rep w = Ret (c, full) w' ->
  rng_only w w' /\ ipos w' = ipos w /\
  full = mul_rows (to_nat3 rep) c /\
  (exists r, c = rescale tv (raw_cell tv r)) /\
  exists blminmax,
    Rmax_list (same_element_values (self_blmin (self w))) = Some blminmax /\
    is_valid (self_cellbounds (self w)) blminmax c full = true.
Proof.
  induction fuel as [|fuel IH]; intros w c full w' H; [discriminate|].
  cbn [sample_cell] in H. rewrite bind_get_self in H.
  destruct (Rmax_list _) as [m|] eqn:Em; [|discriminate].
  apply bind_ret in H. destruct H as (c1 & w1 & Hs & H).
  apply sample_once_spec in Hs. destruct Hs as (Ec & RO & _ & IP).
  destruct (is_valid _ m c1 _) eqn:V.
  - inversion H; subst; clear H.
    split; [exact RO|]. split; [exact IP|]. split; [reflexivity|].
    split; [eexists; reflexivity|]. exists m. split; [reflexivity|assumption].
  - apply IH in H. destruct H as (RO' & IP' & F & Rr & m' & Em' & V').
    rewrite (ro_self _ _ RO) in Em', V'.
    split; [eapply rng_only_trans; eauto|]. split; [congruence|].
    split; [exact F|]. split; [exact Rr|]. exists m'. split; congruence.
Qed.

Lemma INR_pos_ne p : INR (Pos.to_nat p) <> 0%R.
Proof. apply not_0_INR. pose proof (Pos2Nat.is_pos p). lia. Qed.

Lemma vscale_vdiv k v : k <> 0%R -> vscale k (vdiv v k) = v.
Proof.
  intros H. destruct v as [[x y] z]. unfold vscale, vdiv.
  f_equal; [f_equal|]; field; exact H.
Qed.

Lemma mul_div_rows c rep : mul_rows (to_nat3 rep) (div_rows c (to_nat3 rep)) = c.
Proof.
  destruct rep as [[a b] d]. destruct c as [[r0 r1] r2].
  unfold mul_rows, div_rows, to_nat3.
  rewrite !vscale_vdiv by apply INR_pos_ne. reflexivity.
Qed.

Lemma make_cell_spec fuel tv rep w c full w' :
  make_cell fuel tv rep w = Ret (c, full) w' ->
  rng_only w w' /\ ipos w' = ipos w /\ full = mul_rows (to_nat3 rep) c /\
  match self_cell (self w) with
  | Some fixed => w' = w /\ full = fixed /\ c = div_rows fixed (to_nat3 rep)
  | None =>
      (exists r, c = rescale tv (raw_cell tv r)) /\
      exists blminmax,
        Rmax_list (same_element_values (self_blmin (self w))) = Some blminmax /\
        is_valid (self_cellbounds (self w)) blminmax c full = true
  end.
Proof.
  unfold make_cell. rewrite bind_get_self.
  destruct (self_cell (self w)) as [fixed|].
  - intros H. inversion H; subst; clear H.
    split; [apply rng_only_refl|]. split; [reflexivity|].
    split; [symmetry; apply mul_div_rows|]. auto.
  - intros H. apply sample_cell_spec in H. tauto.
Qed.

Lemma sample_cell_raise tv rep fuel : forall w e,
  sample_cell fuel tv rep w = Raise e ->
  e = ValueError /\ same_element_values (self_blmin (self w)) = [].
Proof.
  induction fuel as [|fuel IH]; intros w e H; [discriminate|].
  cbn [sample_cell] in H. rewrite bind_get_self in H.
  destruct (Rmax_list _) as [m|] eqn:Em.
  - destruct (returns_sample_once tv w) as (c1 & w1 & Hs).
    rewrite (bind_eq _ Hs) in H.
    apply sample_once_spec in Hs. destruct Hs as (_ & RO & _).
    destruct (is_valid _ m c1 _); [discriminate|].
    apply IH in H. rewrite (ro_self _ _ RO) in H. exact H.
  - inversion H. split; [reflexivity|].
    destruct (same_element_values _); [reflexivity|discriminate].
Qed.

(** A [cellbounds] that accepts no cell: the loop never gets out. *)
Lemma sample_cell_never tv rep f fuel : forall w,
  self_cellbounds (self w) = Some f -> (forall c, f c = false) ->
  same_element_values (self_blmin (self w)) <> [] ->
  sample_cell fuel tv rep w = OutOfFuel.
Proof.
  induction fuel as [|fuel IH]; intros w Hcb Hf Hbl; [reflexivity|].
  cbn [sample_cell]. rewrite bind_get_self.
  destruct (Rmax_list _) as [m|] eqn:Em.
  - destruct (returns_sample_once tv w) as (c1 & w1 & Hs).
    rewrite (bind_eq _ Hs).
    apply sample_once_spec in Hs. destruct Hs as (_ & RO & _).
    rewrite Hcb, is_valid_rejected by apply Hf.
    apply IH; rewrite ?(ro_self _ _ RO); auto.
  - destruct (same_element_values _); [contradiction|discriminate].
Qed.

End CellFacts.

Export CellFacts.

(* ================================================================== *)
(** ** A whole call *)

Module TopFacts.

Open Scope nat_scope.

Lemma sample_range_inv n k w d w' :
  sample_range n k w = Ret d w' -> rng_only w w' /\ k <= n.
Proof.
  unfold sample_range. destruct (Nat.ltb_spec n k) as [L|L]; [discriminate|].
  destruct (permutation_spec n w) as (p & w1 & E & _ & RO & _).
  rewrite (bind_eq _ E). intros H. inversion H; subst. auto.
Qed.

Lemma permutation_inv n w p w' :
  permutation n w = Ret p w' -> Permutation p (seq 0 n) /\ rng_only w w'.
Proof.
  destruct (permutation_spec n w) as (p1 & w1 & E & P & RO & _).
  rewrite E. intros H. inversion H; subst. auto.
Qed.

Lemma block_at_In bs b i : block_at bs b i -> exists c, In (b, c) bs.
Proof. intros (c & H). exists c. eapply nth_error_In; eauto. Qed.

Lemma Forall2_In_l {A B} (R : A -> B -> Prop) l m a :
  Forall2 R l m -> In a l -> exists b, In b m /\ R a b.
Proof.
  induction 1 as [|x y l m H F IH]; intros Hin; [inversion Hin|].
  destruct Hin as [->|Hin].
  - exists y. split; [left; reflexivity|exact H].
  - destruct (IH Hin) as (b & Hb & Hr). exists b. split; [right; exact Hb|exact Hr].
Qed.

Section WithImports.
Variable ase : Imports.

Lemma blocks_are_blocks g t b :
  Permutation (t_order t) (seq 0 (t_N g t)) ->
  In b (t_blocks g t) -> exists c, In (b, c) (self_blocks g).
Proof.
  intros P Hin. unfold t_blocks in Hin. apply in_map_iff in Hin.
  destruct Hin as (o & <- & Ho).
  apply (Permutation_in _ P) in Ho. apply in_seq in Ho.
  assert (Hn : In (nth o (t_blocksE g t) 0) (t_blocksE g t)) by (apply nth_In; unfold t_N in Ho; lia).
  pose proof (expand_aligned (t_nparts t) (self_blocks g) []) as A.
  cbn [length app] in A.
  destruct (Forall2_In_l _ _ _ _ A Hn) as (i & _ & Hi).
  eapply block_at_In; eauto.
Qed.

Lemma get_new_candidate_spec fuel w l w' :
  get_new_candidate ase fuel w = Ret l w' -> wf w ->
  evolves w w' /\ frame (next w) w w' /\ next w <= l /\ l < next w' /\
  exists t, explains ase fuel w (objs w' l) t.
Proof.
  intros H WF. unfold get_new_candidate in H.
  rewrite bind_get_self in H.
  apply bind_ret in H. destruct H as (r & w1 & Hr & H).
  apply random_inv in Hr.
  destruct (choose_split _ _ _ _) as [split|]; [|discriminate].
  apply bind_ret in H. destruct H as (directions & w2 & Hd & H).
  apply sample_range_inv in Hd. destruct Hd as (RO2 & _).
  set (rep := assign_factors directions split) in *.
  apply bind_ret in H. destruct H as ([c full] & w3 & Hc & H).
  pose proof (make_cell_spec _ _ _ _ _ _ _ Hc) as (RO3 & _).
  assert (RO13 : rng_only w w3) by eauto using rng_only_trans.
  destruct (expand 0 (Pos.to_nat (product rep)) (self_blocks (self w)))
    as [[blocksE surplus] indicesE] eqn:EE.
  apply bind_ret in H. destruct H as (order & w4 & Ho & H).
  apply permutation_inv in Ho. destruct Ho as (PO & RO4).
  assert (RO14 : rng_only w w4) by eauto using rng_only_trans.
  apply bind_ret in H. destruct H as (cand & w5 & Hal & H).
  apply alloc_inv in Hal. destruct Hal as [A1 A2 A3 A4 A5].
  apply bind_ret in H. destruct H as (cand_list & w6 & Hp & H).
  pose (t0 := fun insts U kept => mkTrace rep c full order insts U kept).
  assert (TB : forall i u k, t_blocks (self w) (t0 i u k)
                 = map (fun i => nth i blocksE 0) order).
  { intros. unfold t_blocks, t_blocksE, t_expand, t_nparts. cbn. rewrite EE. reflexivity. }
  assert (TI : forall i u k, t_indices (self w) (t0 i u k)
                 = map (fun i => nth i indicesE 0) order).
  { intros. unfold t_indices, t_indicesE, t_expand, t_nparts. cbn. rewrite EE. reflexivity. }
  assert (TN : forall i u k, t_N (self w) (t0 i u k) = length blocksE).
  { intros. unfold t_N, t_blocksE, t_expand, t_nparts. cbn. rewrite EE. reflexivity. }
  assert (TS : forall i u k, t_surplus (self w) (t0 i u k) = surplus).
  { intros. unfold t_surplus, t_expand, t_nparts. cbn. rewrite EE. reflexivity. }
  assert (N4 : next w4 = next w) by (apply (ro_next _ _ RO14)).
  assert (O4 : objs w4 = objs w) by (apply (ro_objs _ _ RO14)).
  assert (S4 : self w4 = self w) by (apply (ro_self _ _ RO14)).
  assert (BB : forall b, In b (map (fun i => nth i blocksE 0) order) ->
                 b < next w).
  { intros b Hb. rewrite <- (TB [] (Atoms_empty c pbc3) []) in Hb.
    apply blocks_are_blocks in Hb.
    - destruct Hb as (c0 & Hb). eapply WF; eauto.
    - rewrite TN. exact PO. }
  apply place_all_spec in Hp; [|lia|].
  2:{ intros b Hb. apply BB in Hb. lia. }
  destruct Hp as (P1 & P2 & insts & P3 & P4).
  pose proof (ev_next _ _ P1) as N6.
  assert (O5 : forall x, x < next w -> objs w5 x = objs w x).
  { intros x Hx. rewrite A5 by lia. rewrite O4. reflexivity. }
  assert (O6 : forall x, x < next w -> objs w6 x = objs w x).
  { intros x Hx. rewrite P2 by lia. apply O5. exact Hx. }
  assert (S6 : self w6 = self w).
  { rewrite (ev_self _ _ P1), (ev_self _ _ A1). exact S4. }
  apply rebuild_spec in H; [|lia|].
  2:{ intros b c0 Hin. rewrite S6 in Hin. apply WF in Hin. lia. }
  cbn zeta in H. destruct H as (R1 & R2 & R3 & R4 & keptss & R5 & R6 & R7 & R8).
  split.
  { eapply evolves_trans; [apply rng_only_evolves; exact RO14|].
    eauto using evolves_trans. }
  split.
  { intros x Hx. rewrite R2 by lia. apply O6. exact Hx. }
  split; [lia|]. split; [lia|].
  exists (t0 insts (objs w6 cand) keptss).
  constructor.
  - exists w2, w3. cbn. split; [exact Hc|]. apply (ro_self _ _ (rng_only_trans _ _ _ Hr RO2)).
  - rewrite TN. exact PO.
  - rewrite TB. eapply instances_ext; [|exact P3].
    intros b Hb. apply O5. apply BB. exact Hb.
  - cbn. rewrite <- S4, <- (ev_self _ _ A1).
    rewrite A4 in P4.
    replace (self_blmin (self w5)) with (self_blmin (self w)).
    2:{ rewrite (ev_self _ _ A1), S4. reflexivity. }
    exact P4.
  - unfold t_cand_full. rewrite TN, TI, TS. cbn [t_repeat t_cand t0 t_nparts].
    rewrite S6 in R5. eapply kept_lists_ext; [|exact R5].
    intros b c0 Hin. apply O6. eapply WF; eauto.
  - unfold t_cand_full. rewrite TN. exact R6.
  - exact R7.
  - exact R8.
Qed.

End WithImports.

End TopFacts.

Export TopFacts.

(* ================================================================== *)
(** ** The shape of the repeated candidate *)

Module ShapeFacts.

Open Scope nat_scope.

Lemma Forall2_nth {A B} (R : A -> B -> Prop) l m da db :
  Forall2 R l m -> forall k, k < length l -> R (nth k l da) (nth k m db).
Proof.
  induction 1 as [|x y l m H F IH]; intros k Hk; simpl in Hk; [lia|].
  destruct k; simpl; [exact H|]. apply IH. lia.
Qed.

Section Shape.

Variable h : loc -> Atoms.
Variable g : StartGenerator.
Variable t : Trace.

Hypothesis PO : Permutation (t_order t) (seq 0 (t_N g t)).
Hypothesis HI : instances h 0 (t_blocks g t) (t_insts t).
Hypothesis HU : atoms_list (t_cand t) = concat (map atoms_list (t_insts t)).

Lemma order_lt o : In o (t_order t) -> o < t_N g t.
Proof. intros H. apply (Permutation_in _ PO) in H. apply in_seq in H. lia. Qed.

Lemma order_length : length (t_order t) = t_N g t.
Proof. rewrite (Permutation_length PO). apply length_seq. Qed.

Lemma blocks_length : length (t_blocks g t) = t_N g t.
Proof. unfold t_blocks. rewrite length_map. apply order_length. Qed.

Lemma indices_length : length (t_indices g t) = t_N g t.
Proof. unfold t_indices. rewrite length_map. apply order_length. Qed.

Lemma indicesE_length : length (t_indicesE g t) = t_N g t.
Proof. unfold t_N, t_blocksE, t_indicesE, t_expand. symmetry. apply expand_lengths. Qed.

Lemma insts_length : length (t_insts t) = t_N g t.
Proof. rewrite (instances_length _ _ _ _ HI). apply blocks_length. Qed.

Lemma aligned : Forall2 (block_at (self_blocks g)) (t_blocks g t) (t_indices g t).
Proof.
  unfold t_blocks, t_indices. apply reorder_aligned.
  - exact (expand_aligned (t_nparts t) (self_blocks g) []).
  - intros o Ho. apply order_lt. exact Ho.
Qed.

Lemma indices_perm : Permutation (t_indices g t) (t_indicesE g t).
Proof.
  unfold t_indices. apply reorder_perm. rewrite indicesE_length. exact PO.
Qed.

Lemma nparts_pos : 0 < t_nparts t.
Proof. unfold t_nparts. apply Pos2Nat.is_pos. Qed.

(** Block number [k] has [nparts * ceil(count / nparts)] tags in the
    repeated cell. *)
Lemma where_length k b c :
  nth_error (self_blocks g) k = Some (b, c) ->
  length (where_eq k (tile (t_indices g t) (t_nparts t)))
  = t_nparts t * ceil_div c (t_nparts t).
Proof.
  intros Hk. unfold where_eq. rewrite where_eq_from_length, tile_count.
  pose proof indices_perm as P. rewrite (Permutation_count_occ Nat.eq_dec) in P.
  rewrite P. f_equal.
  destruct (expand_count (t_nparts t) (self_blocks g) 0) as (_ & C).
  exact (C k b c Hk).
Qed.

Lemma surplus_nth k b c :
  nth_error (self_blocks g) k = Some (b, c) ->
  nth k (t_surplus g t) 0 = t_nparts t * ceil_div c (t_nparts t) - c.
Proof.
  intros Hk. unfold t_surplus, t_expand. rewrite expand_surplus.
  apply (map_nth_error (fun bc => t_nparts t * ceil_div (snd bc) (t_nparts t) - snd bc)) in Hk.
  apply nth_error_nth with (d := 0) in Hk. exact Hk.
Qed.

Lemma cand_tags_lt : Forall (fun x => tag x < t_N g t) (atoms_list (t_cand t)).
Proof.
  rewrite HU. pose proof (instances_tags_lt _ _ _ _ HI) as F.
  rewrite blocks_length in F. exact F.
Qed.

(** The group of a tag of block number [k]: an image of one instance
    of that block. *)
Lemma group_shape k b c x :
  nth_error (self_blocks g) k = Some (b, c) ->
  In x (where_eq k (tile (t_indices g t) (t_nparts t))) ->
  let N := t_N g t in
  0 < N /\ x / N < t_nparts t /\ x mod N < N /\
  filter (has_tag x) (t_cand_full g t)
    = map (image_atom (cell (t_cand t)) N
             (x / N, nth (x / N) (images (to_nat3 (t_repeat t))) (0, 0, 0)))
          (atoms_list (nth (x mod N) (t_insts t) no_atoms)) /\
  get_atomic_numbers (nth (x mod N) (t_insts t) no_atoms) = get_atomic_numbers (h b) /\
  Forall (fun y => tag y = x mod N) (atoms_list (nth (x mod N) (t_insts t) no_atoms)).
Proof.
  intros Hk Hx. cbn zeta.
  apply where_eq_In in Hx. destruct Hx as (Hx1 & Hx2).
  rewrite tile_length, indices_length in Hx1.
  assert (HN : 0 < t_N g t) by nia.
  assert (Hd : x / t_N g t < t_nparts t) by (apply Nat.Div0.div_lt_upper_bound; lia).
  assert (Hm : x mod t_N g t < t_N g t) by (apply Nat.mod_upper_bound; lia).
  rewrite tile_nth in Hx2 by (rewrite indices_length; lia).
  rewrite indices_length in Hx2.
  split; [exact HN|]. split; [exact Hd|]. split; [exact Hm|].
  assert (Bk : nth (x mod t_N g t) (t_blocks g t) 0 = b).
  { pose proof aligned as A.
    assert (R : block_at (self_blocks g) (nth (x mod t_N g t) (t_blocks g t) 0)
                         (nth (x mod t_N g t) (t_indices g t) (S k))).
    { apply Forall2_nth; [exact A|]. rewrite blocks_length. exact Hm. }
    rewrite Hx2 in R. destruct R as (c' & R). congruence. }
  pose proof (instances_nth h 0 _ _ HI (x mod t_N g t)) as IN.
  rewrite blocks_length, Bk in IN. specialize (IN Hm). destruct IN as (IN1 & IN2).
  split; [|split; [exact IN1|exact IN2]].
  unfold t_cand_full, tagged_full.
  rewrite filter_tagged_from; try lia.
  - rewrite Nat.sub_0_r. f_equal.
    rewrite HU.
    rewrite (instances_filter h 0 _ _ HI) by (rewrite ?blocks_length; lia).
    rewrite Nat.sub_0_r. reflexivity.
  - apply cand_tags_lt.
  - rewrite images_length_rep3. exact Hd.
Qed.

End Shape.

End ShapeFacts.

Export ShapeFacts.

(* ================================================================== *)
(** ** The composition *)

Module LayoutFacts.

Open Scope nat_scope.

Lemma groups_numbers cf nums : forall kept tc,
  (forall x, In x kept -> map number (filter (has_tag x) cf) = nums) ->
  map number_tag (groups cf tc kept) = block_groups nums tc (length kept).
Proof.
  induction kept as [|x r IH]; intros tc H; simpl; [reflexivity|].
  rewrite map_app, IH by (intros y Hy; apply H; right; exact Hy).
  f_equal. rewrite map_map. unfold number_tag. cbn [retag number tag].
  rewrite <- (H x (or_introl eq_refl)), map_map. reflexivity.
Qed.

Lemma kept_layout h cf indices_full surplus i bs keptss :
  kept_lists h cf indices_full surplus i bs keptss ->
  (forall k b c, nth_error bs k = Some (b, c) ->
     (forall x, In x (where_eq (i + k) indices_full) ->
        map number (filter (has_tag x) cf) = get_atomic_numbers (h b)) /\
     length (where_eq (i + k) indices_full) - nth (i + k) surplus 0 = c) ->
  forall tc,
    map number_tag (groups cf tc (concat keptss)) = layout h tc bs.
Proof.
  induction 1 as [|i b c bs bad ks H1 H2 H3 H4 H5 IH]; intros Hk tc; [reflexivity|].
  cbn [concat layout]. rewrite groups_app, map_app.
  destruct (Hk 0 b c eq_refl) as (F1 & F2). rewrite Nat.add_0_r in F1, F2.
  assert (L : length (filter (not_bad bad) (where_eq i indices_full)) = c).
  { rewrite kept_length; auto; [lia|apply where_eq_from_NoDup]. }
  rewrite L. f_equal.
  - rewrite (groups_numbers cf (get_atomic_numbers (h b))), L; [reflexivity|].
    intros x Hx. apply filter_In in Hx. apply F1. tauto.
  - apply IH. intros k b' c' Hn.
    replace (S i + k) with (i + S k) by lia. apply (Hk (S k) b' c'). exact Hn.
Qed.

Lemma kept_lengths h cf indices_full surplus i bs keptss :
  kept_lists h cf indices_full surplus i bs keptss ->
  forall k b c, nth_error bs k = Some (b, c) ->
  exists bad,
    nth k keptss [] = filter (not_bad bad) (where_eq (i + k) indices_full) /\
    NoDup bad /\ incl bad (where_eq (i + k) indices_full) /\
    length bad = nth (i + k) surplus 0.
Proof.
  induction 1 as [|i b c bs bad ks H1 H2 H3 H4 H5 IH]; intros k b' c' Hk.
  - destruct k; discriminate.
  - destruct k as [|k]; simpl in Hk.
    + exists bad. rewrite Nat.add_0_r. cbn [nth]. auto.
    + destruct (IH k b' c' Hk) as (bad' & E & R).
      exists bad'. replace (i + S k) with (S i + k) by lia. cbn [nth]. auto.
Qed.

Section Shape.

Variable h : loc -> Atoms.
Variable g : StartGenerator.
Variable t : Trace.

Hypothesis PO : Permutation (t_order t) (seq 0 (t_N g t)).
Hypothesis HI : instances h 0 (t_blocks g t) (t_insts t).
Hypothesis HU : atoms_list (t_cand t) = concat (map atoms_list (t_insts t)).

Lemma group_numbers k b c x :
  nth_error (self_blocks g) k = Some (b, c) ->
  In x (where_eq k (tile (t_indices g t) (t_nparts t))) ->
  map number (filter (has_tag x) (t_cand_full g t)) = get_atomic_numbers (h b).
Proof.
  intros Hk Hx.
  destruct (group_shape h g t PO HI HU k b c x Hk Hx) as (_ & _ & _ & E & N & _).
  rewrite E, map_map. cbn [image_atom number]. exact N.
Qed.

Lemma group_length k b c x :
  nth_error (self_blocks g) k = Some (b, c) ->
  In x (where_eq k (tile (t_indices g t) (t_nparts t))) ->
  length (filter (has_tag x) (t_cand_full g t)) = len (h b).
Proof.
  intros Hk Hx. pose proof (group_numbers k b c x Hk Hx) as E.
  apply (f_equal (@length nat)) in E. unfold get_atomic_numbers in E.
  rewrite !length_map in E. exact E.
Qed.

Lemma surplus_fits k b c :
  nth_error (self_blocks g) k = Some (b, c) ->
  nth k (t_surplus g t) 0 <= length (where_eq k (tile (t_indices g t) (t_nparts t))) /\
  length (where_eq k (tile (t_indices g t) (t_nparts t))) - nth k (t_surplus g t) 0 = c.
Proof.
  intros Hk. rewrite (where_length g t PO k b c Hk), (surplus_nth g t k b c Hk).
  pose proof (ceil_div_ge c (t_nparts t) (nparts_pos t)). lia.
Qed.

(** The loop over [self.blocks] goes through. *)
Lemma groups_ok_holds :
  groups_ok h (t_cand_full g t) (tile (t_indices g t) (t_nparts t))
            (t_surplus g t) 0 (self_blocks g).
Proof.
  assert (G : forall bs i, (forall k b c, nth_error bs k = Some (b, c) ->
                 nth_error (self_blocks g) (i + k) = Some (b, c)) ->
              groups_ok h (t_cand_full g t) (tile (t_indices g t) (t_nparts t))
                        (t_surplus g t) i bs).
  { induction bs as [|[b c] r IH]; intros i Hb; constructor.
    - specialize (Hb 0 b c eq_refl). rewrite Nat.add_0_r in Hb.
      apply (surplus_fits i b c Hb).
    - specialize (Hb 0 b c eq_refl). rewrite Nat.add_0_r in Hb.
      intros x Hx. eapply group_length; eauto.
    - apply IH. intros k b' c' Hk. replace (S i + k) with (i + S k) by lia.
      apply Hb. exact Hk. }
  apply G. intros k b c Hk. exact Hk.
Qed.

Lemma final_layout keptss :
  kept_lists h (t_cand_full g t) (tile (t_indices g t) (t_nparts t))
             (t_surplus g t) 0 (self_blocks g) keptss ->
  map number_tag (groups (t_cand_full g t) 0 (concat keptss))
  = layout h 0 (self_blocks g).
Proof.
  intros K. eapply kept_layout; [exact K|].
  intros k b c Hk. cbn [Nat.add]. split.
  - intros x Hx. eapply group_numbers; eauto.
  - apply (surplus_fits k b c Hk).
Qed.

End Shape.

Section WithImports.
Variable ase : Imports.

Lemma explains_shape fuel w F t :
  explains ase fuel w F t ->
  Permutation (t_order t) (seq 0 (t_N (self w) t)) /\
  instances (objs w) 0 (t_blocks (self w) t) (t_insts t) /\
  atoms_list (t_cand t) = concat (map atoms_list (t_insts t)) /\
  cell (t_cand t) = t_cell t.
Proof.
  intros [E1 E2 E3 E4 E5 E6 E7 E8].
  destruct (built_atoms _ _ _ _ _ E4) as (B1 & B2 & B3).
  repeat split; auto.
Qed.

End WithImports.

End LayoutFacts.

Export LayoutFacts.

(* ================================================================== *)
(** ** The errors of a call *)

Module RaiseFacts.

Open Scope nat_scope.

Lemma returns_not_raise {A} (m : M A) w e : returns m w -> m w <> Raise e.
Proof. intros (a & w' & E). rewrite E. discriminate. Qed.

Lemma returns_permutation n w : returns (permutation n) w.
Proof.
  destruct (permutation_spec n w) as (p & w1 & E & _). exists p, w1. exact E.
Qed.

Section WithImports.
Variable ase : Imports.

(** Once every block is placed, the rest of the call goes through. *)
Lemma rebuild_after_placing fuel w w4 rep c full blocksE surplus indicesE
    order cand w5 cand_list w6 :
  wf w -> rng_only w w4 ->
  expand 0 (Pos.to_nat (product rep)) (self_blocks (self w))
    = (blocksE, surplus, indicesE) ->
  Permutation order (seq 0 (length blocksE)) ->
  alloc (Atoms_empty c pbc3) w4 = Ret cand w5 ->
  place_all ase fuel cand c (self_blmin (self w))
    (map (fun i => nth i blocksE 0) order) 0 w5 = Ret cand_list w6 ->
  returns (rebuild cand rep full (length blocksE)
             (map (fun i => nth i indicesE 0) order) surplus) w6.
Proof.
  intros WF RO14 EE PO Hal Hp.
  apply alloc_inv in Hal. destruct Hal as [A1 A2 A3 A4 A5].
  pose (t0 := fun insts U => mkTrace rep c full order insts U []).
  assert (TB : forall i u, t_blocks (self w) (t0 i u)
                 = map (fun i => nth i blocksE 0) order).
  { intros. unfold t_blocks, t_blocksE, t_expand, t_nparts. cbn. rewrite EE. reflexivity. }
  assert (TI : forall i u, t_indices (self w) (t0 i u)
                 = map (fun i => nth i indicesE 0) order).
  { intros. unfold t_indices, t_indicesE, t_expand, t_nparts. cbn. rewrite EE. reflexivity. }
  assert (TN : forall i u, t_N (self w) (t0 i u) = length blocksE).
  { intros. unfold t_N, t_blocksE, t_expand, t_nparts. cbn. rewrite EE. reflexivity. }
  assert (TS : forall i u, t_surplus (self w) (t0 i u) = surplus).
  { intros. unfold t_surplus, t_expand, t_nparts. cbn. rewrite EE. reflexivity. }
  assert (N4 : next w4 = next w) by (apply (ro_next _ _ RO14)).
  assert (O4 : objs w4 = objs w) by (apply (ro_objs _ _ RO14)).
  assert (S4 : self w4 = self w) by (apply (ro_self _ _ RO14)).
  assert (BB : forall b, In b (map (fun i => nth i blocksE 0) order) ->
                 b < next w).
  { intros b Hb. rewrite <- (TB [] (Atoms_empty c pbc3)) in Hb.
    apply blocks_are_blocks in Hb.
    - destruct Hb as (c0 & Hb). eapply WF; eauto.
    - rewrite TN. exact PO. }
  apply place_all_spec in Hp; [|lia|].
  2:{ intros b Hb. apply BB in Hb. lia. }
  destruct Hp as (P1 & P2 & insts & P3 & P4).
  pose proof (ev_next _ _ P1) as N6.
  assert (O5 : forall x, x < next w -> objs w5 x = objs w x).
  { intros x Hx. rewrite A5 by lia. rewrite O4. reflexivity. }
  assert (O6 : forall x, x < next w -> objs w6 x = objs w x).
  { intros x Hx. rewrite P2 by lia. apply O5. exact Hx. }
  assert (S6 : self w6 = self w).
  { rewrite (ev_self _ _ P1), (ev_self _ _ A1). exact S4. }
  apply rebuild_returns; [lia| |].
  { intros b c0 Hin. rewrite S6 in Hin. apply WF in Hin. lia. }
  rewrite S6.
  apply groups_ok_ext with (h := objs w).
  { intros b c0 Hin. symmetry. apply O6. eapply WF; eauto. }
  assert (G : groups_ok (objs w) (t_cand_full (self w) (t0 insts (objs w6 cand)))
                 (tile (t_indices (self w) (t0 insts (objs w6 cand)))
                       (t_nparts (t0 insts (objs w6 cand))))
                 (t_surplus (self w) (t0 insts (objs w6 cand))) 0
                 (self_blocks (self w))).
  { apply groups_ok_holds.
    - rewrite TN. exact PO.
    - rewrite TB. eapply instances_ext; [|exact P3].
      intros b Hb. apply O5. apply BB. exact Hb.
    - rewrite A4 in P4. apply built_atoms in P4. destruct P4 as (B1 & _). exact B1. }
  unfold t_cand_full in G. rewrite TN, TI, TS in G. exact G.
Qed.

(** What a call can raise: the unbound [split] of an empty [splits], and
    the ValueError of [sample] or of [max] of an empty list. *)
Lemma get_new_candidate_raise fuel w e :
  get_new_candidate ase fuel w = Raise e -> wf w ->
  e = UnboundLocalError \/ e = ValueError.
Proof.
  intros H WF. unfold get_new_candidate in H.
  rewrite bind_get_self in H.
  apply bind_raise in H. destruct H as [H|(r & w1 & Hr & H)]; [discriminate|].
  apply random_inv in Hr.
  destruct (choose_split _ _ _ _) as [split|]; [|inversion H; auto].
  apply bind_raise in H. destruct H as [H|(directions & w2 & Hd & H)].
  { unfold sample_range in H. destruct (Nat.ltb 3 (length split)); [inversion H; auto|].
    apply bind_raise in H. destruct H as [H|(p & w' & _ & H)]; [|discriminate].
    exfalso. revert H. apply returns_not_raise, returns_permutation. }
  apply sample_range_inv in Hd. destruct Hd as (RO2 & _).
  set (rep := assign_factors directions split) in *.
  apply bind_raise in H. destruct H as [H|([c full] & w3 & Hc & H)].
  { unfold make_cell in H. rewrite bind_get_self in H.
    destruct (self_cell (self w2)); [discriminate|].
    apply sample_cell_raise in H. tauto. }
  pose proof (make_cell_spec _ _ _ _ _ _ _ Hc) as (RO3 & _).
  assert (RO13 : rng_only w w3) by eauto using rng_only_trans.
  destruct (expand 0 (Pos.to_nat (product rep)) (self_blocks (self w)))
    as [[blocksE surplus] indicesE] eqn:EE.
  apply bind_raise in H. destruct H as [H|(order & w4 & Ho & H)].
  { exfalso. revert H. apply returns_not_raise, returns_permutation. }
  apply permutation_inv in Ho. destruct Ho as (PO & RO4).
  assert (RO14 : rng_only w w4) by eauto using rng_only_trans.
  apply bind_raise in H. destruct H as [H|(cand & w5 & Hal & H)]; [discriminate|].
  apply bind_raise in H. destruct H as [H|(cand_list & w6 & Hp & H)].
  { exfalso. revert H. apply place_all_no_raise. }
  exfalso. revert H. apply returns_not_raise.
  eapply rebuild_after_placing; eauto.
Qed.

End WithImports.

End RaiseFacts.

Export RaiseFacts.

(* ================================================================== *)
(** ** Loops that are over *)

Module FuelFacts.

Open Scope nat_scope.

Lemma bind_settled {A B} (m m' : M A) (k k' : A -> M B) w :
  bind m k w <> OutOfFuel ->
  (m w <> OutOfFuel -> m' w = m w) ->
  (forall a w1, m w = Ret a w1 -> k a w1 <> OutOfFuel -> k' a w1 = k a w1) ->
  bind m' k' w = bind m k w.
Proof.
  unfold bind. intros H Hm Hk.
  destruct (m w) as [a w1|e|] eqn:E.
  - rewrite Hm by discriminate. apply Hk; [reflexivity|exact H].
  - rewrite Hm by discriminate. reflexivity.
  - contradiction.
Qed.

Section WithImports.
Variable ase : Imports.

Lemma sample_cell_settled tv rep : settled (fun fuel => sample_cell fuel tv rep).
Proof.
  intros fuel. induction fuel as [|fuel IH]; intros fuel' w L H.
  - exfalso. apply H. reflexivity.
  - destruct fuel' as [|fuel']; [lia|].
    cbn [sample_cell] in *. rewrite bind_get_self in H. rewrite !bind_get_self.
    destruct (Rmax_list _) as [m|]; [|reflexivity].
    apply bind_settled; [exact H|reflexivity|].
    intros c w1 _ Hk.
    destruct (is_valid _ _ _ _); [reflexivity|].
    apply IH; [lia|exact Hk].
Qed.

Lemma make_cell_settled tv rep : settled (fun fuel => make_cell fuel tv rep).
Proof.
  intros fuel fuel' w L H. unfold make_cell in *. rewrite bind_get_self in H. rewrite !bind_get_self.
  destruct (self_cell (self w)); [reflexivity|].
  apply sample_cell_settled; assumption.
Qed.

Lemma place_block_settled cand atoms rotate c bl :
  settled (fun fuel => place_block ase fuel cand atoms rotate c bl).
Proof.
  intros fuel. induction fuel as [|fuel IH]; intros fuel' w L H.
  - exfalso. apply H. reflexivity.
  - destruct fuel' as [|fuel']; [lia|].
    cbn [place_block] in *.
    apply bind_settled; [exact H|reflexivity|].
    intros attempt w1 _ Hk. rewrite bind_load in Hk. rewrite !bind_load.
    destruct (atoms_too_close ase _ _); [|reflexivity].
    apply IH; [lia|exact Hk].
Qed.

Lemma place_all_settled cand c bl blocks : forall i,
  settled (fun fuel => place_all ase fuel cand c bl blocks i).
Proof.
  induction blocks as [|b rest IH]; intros i fuel fuel' w L H; [reflexivity|].
  cbn [place_all] in *.
  apply bind_settled; [exact H|reflexivity|]. intros atoms w1 _ H1.
  apply bind_settled; [exact H1|reflexivity|]. intros u w2 _ H2.
  rewrite bind_load in H2. rewrite !bind_load.
  apply bind_settled; [exact H2| |].
  - apply place_block_settled. exact L.
  - intros u' w3 _ H3.
    apply bind_settled; [exact H3| |reflexivity].
    apply IH. exact L.
Qed.

(** A call that has returned or raised gives the same with more fuel. *)
Lemma get_new_candidate_settled : settled (get_new_candidate ase).
Proof.
  intros fuel fuel' w L H. unfold get_new_candidate in *.
  rewrite bind_get_self in H. rewrite !bind_get_self.
  apply bind_settled; [exact H|reflexivity|]. intros r w1 _ H1.
  destruct (choose_split _ _ _ _) as [split|]; [|reflexivity].
  apply bind_settled; [exact H1|reflexivity|]. intros dirs w2 _ H2.
  apply bind_settled; [exact H2| |].
  { apply make_cell_settled. exact L. }
  intros [c full] w3 _ H3.
  destruct (expand _ _ _) as [[blocks surplus] indices].
  apply bind_settled; [exact H3|reflexivity|]. intros order w4 _ H4.
  apply bind_settled; [exact H4|reflexivity|]. intros cand w5 _ H5.
  apply bind_settled; [exact H5| |reflexivity].
  apply place_all_settled. exact L.
Qed.

End WithImports.

End FuelFacts.

Export FuelFacts.

(* ================================================================== *)
(** ** The constructor *)

Module InitFacts.

Open Scope nat_scope.

Section Resolve.
Variable ase : Imports.

Lemma resolve_outcome b w :
  (unresolved ase b /\ resolve ase b w = Raise UnknownMolecule) \/
  (~ unresolved ase b /\ exists l w', resolve ase b w = Ret l w').
Proof.
  destruct b as [l|s]; simpl.
  - right. split; [tauto|]. eexists _, _. reflexivity.
  - destruct (atomic_numbers ase s) eqn:E1.
    + right. split; [intros [? _]; discriminate|]. eexists _, _. reflexivity.
    + destruct (molecule ase s) eqn:E2.
      * right. split; [intros [_ ?]; discriminate|]. eexists _, _. reflexivity.
      * left. auto.
Qed.

Lemma resolve_blocks_outcome blocks : forall w,
  (Exists (fun bc => unresolved ase (fst bc)) blocks /\
   resolve_blocks ase blocks w = Raise UnknownMolecule) \/
  (~ Exists (fun bc => unresolved ase (fst bc)) blocks /\
   exists r w', resolve_blocks ase blocks w = Ret r w').
Proof.
  induction blocks as [|[b c] rest IH]; intros w; simpl.
  - right. split; [intros H; inversion H|]. eexists _, _. reflexivity.
  - destruct (resolve_outcome b w) as [[U E]|[U (l & w1 & E)]].
    + left. split; [left; exact U|]. rewrite (bind_raise_eq _ E). reflexivity.
    + rewrite (bind_eq _ E). autorewrite with run.
      destruct (IH w1) as [[X E2]|[X (r & w2 & E2)]].
      * left. split; [right; exact X|]. rewrite (bind_raise_eq _ E2). reflexivity.
      * right. split.
        -- intros H. inversion H; subst; auto.
        -- rewrite (bind_eq _ E2). destruct r. eexists _, _. reflexivity.
Qed.
End Resolve.

Section Outcome.
Variable ase : Imports.

Lemma normalize_outcome splits w :
  (degenerate splits /\ normalize splits w = Raise ZeroDivisionError) \/
  (~ degenerate splits /\ exists s', normalize splits w = Ret s' w).
Proof.
  unfold normalize, degenerate. destruct splits as [|kv rest].
  - right. split; [intros [H _]; congruence|]. eexists. reflexivity.
  - destruct (Req_dec_T _ _) as [E|E].
    + left. split; [split; [discriminate|exact E]|reflexivity].
    + right. split; [intros [_ H]; contradiction|]. eexists. reflexivity.
Qed.

(** C3, as amended: the constructor checks none of its arguments.  It
    raises ZeroDivisionError when [splits] is not empty and its weights
    sum to zero; otherwise it fails, inside [molecule], when a block is
    given by a name that is neither an element symbol nor a molecule
    known; otherwise it returns, and [self] holds the volume, the
    cellbounds, the cell and the table as they were given (whatever the
    sign of the volume, whatever entries the table has) and the splits
    with each weight divided by the sum. *)
Theorem init_outcome blocks blmin volume cellbounds cell splits w :
  (degenerate splits ->
   __init__ ase blocks blmin volume cellbounds cell splits w = Raise ZeroDivisionError)
  /\ (~ degenerate splits ->
      Exists (fun bc => unresolved ase (fst bc)) blocks ->
      __init__ ase blocks blmin volume cellbounds cell splits w = Raise UnknownMolecule)
  /\ (~ degenerate splits ->
      ~ Exists (fun bc => unresolved ase (fst bc)) blocks ->
      exists w' numbers,
        __init__ ase blocks blmin volume cellbounds cell splits w = Ret tt w' /\
        self_volume (self w') = volume /\
        self_cellbounds (self w') = cellbounds /\
        self_cell (self w') = cell /\
        self_blmin (self w') = table_of ase numbers blmin /\
        map fst (self_splits (self w')) = map fst splits).
Proof.
  unfold __init__.
  destruct (normalize_outcome splits w) as [[D E]|[D (s' & E)]].
  - split; [|split]; try tauto. intros _. rewrite (bind_raise_eq _ E). reflexivity.
  - split; [tauto|]. rewrite (bind_eq _ E).
    destruct (resolve_blocks_outcome ase blocks w) as [[X E2]|[X (r & w2 & E2)]].
    + split; [|tauto]. intros _ _. rewrite (bind_raise_eq _ E2). reflexivity.
    + split; [tauto|]. intros _ _. rewrite (bind_eq _ E2). destruct r as [bs numbers].
      eexists _, numbers. split; [reflexivity|]. cbn.
      split; [reflexivity|]. split; [reflexivity|]. split; [reflexivity|].
      split; [destruct blmin; reflexivity|].
      unfold normalize in E. destruct splits; [inversion E; reflexivity|].
      destruct (Req_dec_T _ _); [discriminate|]. inversion E.
      cbn. f_equal. rewrite map_map. reflexivity.
Qed.
End Outcome.

End InitFacts.

Export InitFacts.

(* ================================================================== *)
(** ** The blocks of a new generator *)

Module InitStore.

Open Scope nat_scope.

Section WithImports.
Variable ase : Imports.

Lemma resolve_spec b w l w' :
  resolve ase b w = Ret l w' ->
  next w <= next w' /\
  match b with BAtoms l0 => l = l0 | BName _ => l < next w' end.
Proof.
  destruct b as [l0|s]; cbn [resolve].
  - intros H. inversion H; subst. auto.
  - destruct (atomic_numbers ase s) as [z|].
    + intros H. apply alloc_inv in H. destruct H as [_ A2 A3 _ _]. lia.
    + destruct (molecule ase s) as [a|]; [|discriminate].
      intros H. apply alloc_inv in H. destruct H as [_ A2 A3 _ _]. lia.
Qed.

Lemma resolve_blocks_spec blocks : forall w bs numbers w',
  (forall l c, In (BAtoms l, c) blocks -> l < next w) ->
  resolve_blocks ase blocks w = Ret (bs, numbers) w' ->
  next w <= next w' /\ forall b c, In (b, c) bs -> b < next w'.
Proof.
  induction blocks as [|[b c] rest IH]; intros w bs numbers w' G H.
  - inversion H; subst. split; [lia|]. intros b c [].
  - cbn [resolve_blocks] in H.
    apply bind_ret in H. destruct H as (l & w1 & Hr & H).
    rewrite bind_load in H.
    apply bind_ret in H. destruct H as ([bs' numbers'] & w2 & Hrest & H).
    inversion H; subst; clear H.
    apply resolve_spec in Hr. destruct Hr as (N1 & Hl).
    apply IH in Hrest.
    2:{ intros l0 c0 Hin. specialize (G l0 c0 (or_intror Hin)). lia. }
    destruct Hrest as (N2 & Hbs).
    split; [lia|]. intros b0 c0 [E|Hin].
    + inversion E; subst b0 c0. destruct b as [l0|s].
      * subst l. specialize (G l0 c (or_introl eq_refl)). lia.
      * lia.
    + apply Hbs in Hin. exact Hin.
Qed.

(** The constructor leaves a generator whose blocks are objects of the
    store, when the [Atoms] objects it was given are. *)
Lemma init_wf blocks blmin volume cellbounds cell splits w w' :
  (forall l c, In (BAtoms l, c) blocks -> l < next w) ->
  __init__ ase blocks blmin volume cellbounds cell splits w = Ret tt w' ->
  wf w'.
Proof.
  intros G H. unfold __init__ in H.
  apply bind_ret in H. destruct H as (s' & w1 & Hn & H).
  assert (w1 = w).
  { unfold normalize in Hn. destruct splits; [inversion Hn; reflexivity|].
    destruct (Req_dec_T _ _); [discriminate|]. inversion Hn. reflexivity. }
  subst w1.
  apply bind_ret in H. destruct H as ([bs numbers] & w2 & Hr & H).
  apply resolve_blocks_spec in Hr; [|exact G]. destruct Hr as (_ & Hbs).
  unfold set_self in H. inversion H; subst; clear H.
  intros b c Hin. cbn [self self_blocks next] in *. apply Hbs in Hin. exact Hin.
Qed.

End WithImports.

End InitStore.

Export InitStore.

(* ================================================================== *)
(** ** The volume of the rescaled cell *)

Module VolumeFacts.

Open Scope R_scope.

Lemma det_mscale s c : det (mscale s c) = s * s * s * det c.
Proof.
  destruct c as [[[[a b] c] [[d e] f]] [[g h] i]].
  unfold mscale, vscale, det. ring.
Qed.

Lemma Rpower_cube x y : 0 < x ->
  Rpower x y * Rpower x y * Rpower x y = Rpower x (3 * y).
Proof.
  intros Hx. rewrite <- !Rpower_plus. f_equal. ring.
Qed.

(** The volume after the rescaling of line 139, for a cell of volume
    [v > 0] and a target [tv > 0]. *)
Lemma rescale_volume tv c :
  0 < tv -> 0 < Rabs (det c) ->
  Rabs (det (rescale tv c))
  = Rpower (tv / Rabs (det c)) (99 / 100) * Rabs (det c).
Proof.
  intros Ht Hv. unfold rescale, pow033.
  assert (Hq : 0 < tv / Rabs (det c)) by (apply Rdiv_lt_0_compat; assumption).
  destruct (Rlt_dec 0 (tv / Rabs (det c))) as [_|N]; [|contradiction].
  rewrite det_mscale, Rabs_mult.
  rewrite Rpower_cube by exact Hq.
  replace (3 * (33 / 100)) with (99 / 100) by field.
  rewrite Rabs_pos_eq; [reflexivity|].
  left. unfold Rpower. apply exp_pos.
Qed.

Lemma Rpower_fix x y : 0 < x -> y <> 1 -> Rpower x y = x -> x = 1.
Proof.
  intros Hx Hy E. unfold Rpower in E.
  rewrite <- (exp_ln x Hx) in E at 2. apply exp_inv in E.
  assert (L : ln x = 0).
  { assert ((y - 1) * ln x = 0) by lra.
    apply Rmult_integral in H. destruct H; [lra|assumption]. }
  rewrite <- ln_1 in L. apply ln_inv in L; lra.
Qed.

(** The rescaled cell has the target volume only if the sampled cell
    had it already. *)
Lemma rescale_exact tv c :
  0 < tv -> 0 < Rabs (det c) ->
  Rabs (det (rescale tv c)) = tv -> Rabs (det c) = tv.
Proof.
  intros Ht Hv E. rewrite rescale_volume in E by assumption.
  assert (Hq : 0 < tv / Rabs (det c)) by (apply Rdiv_lt_0_compat; assumption).
  assert (E' : Rpower (tv / Rabs (det c)) (99 / 100) = tv / Rabs (det c)).
  { field_simplify_eq; [|lra]. lra. }
  apply Rpower_fix in E'; [|exact Hq|lra].
  apply (f_equal (fun z => z * Rabs (det c))) in E'.
  field_simplify in E'; lra.
Qed.

End VolumeFacts.

Export VolumeFacts.

(* ================================================================== *)
(** ** Calls that return *)

Module ExampleFacts.

Open Scope nat_scope.

Lemma norm_ge a x y z :
  (0 <= a)%R -> (a * a <= x * x + y * y + z * z)%R -> (a <= norm (x, y, z))%R.
Proof.
  intros Ha H. unfold norm. rewrite <- (sqrt_square a Ha).
  apply sqrt_le_1; [nra|nra|exact H].
Qed.

Lemma norm_nonneg v : (0 <= norm v)%R.
Proof. destruct v as [[x y] z]. unfold norm. apply sqrt_pos. Qed.

Lemma int_vector_nonzero (k0 k1 k2 : Z) :
  (k0, k1, k2) <> (0, 0, 0)%Z ->
  (1 <= IZR k0 * IZR k0 + IZR k1 * IZR k1 + IZR k2 * IZR k2)%R.
Proof.
  intros H.
  assert (Z : (1 <= k0 * k0 + k1 * k1 + k2 * k2)%Z).
  { destruct (Z.eq_dec k0 0) as [->|]; [|nia].
    destruct (Z.eq_dec k1 0) as [->|]; [|nia].
    destruct (Z.eq_dec k2 0) as [->|]; [|nia]. contradiction. }
  apply IZR_le in Z. rewrite !plus_IZR, !mult_IZR in Z. exact Z.
Qed.

(** In a cell with orthogonal rows of length [a1], [a2], [a3], an atom
    is at least [d] away from its own images when the rows are at least
    [d] long. *)
Lemma own_image_far d a1 a2 a3 x k :
  (d <= a1)%R -> (d <= a2)%R -> (d <= a3)%R ->
  k <> (0, 0, 0)%Z -> (d <= image_distance (diag a1 a2 a3) x x k)%R.
Proof.
  intros H1 H2 H3 Hk. destruct k as [[k0 k1] k2].
  unfold image_distance. destruct (position x) as [[px py] pz].
  unfold diag, lattice, IZR3, vadd, vsub, vscale.
  destruct (Rle_dec 0 d) as [Ha|Ha].
  - apply norm_ge; [exact Ha|].
    pose proof (int_vector_nonzero k0 k1 k2 Hk) as Z.
    match goal with |- (_ <= ?e)%R =>
      replace e with (a1 * a1 * (IZR k0 * IZR k0) + a2 * a2 * (IZR k1 * IZR k1)
                      + a3 * a3 * (IZR k2 * IZR k2))%R by ring end.
    assert (Q1 : (d * d <= a1 * a1)%R) by nra.
    assert (Q2 : (d * d <= a2 * a2)%R) by nra.
    assert (Q3 : (d * d <= a3 * a3)%R) by nra.
    pose proof (Rle_0_sqr (IZR k0)) as S0. unfold Rsqr in S0.
    pose proof (Rle_0_sqr (IZR k1)) as S1. unfold Rsqr in S1.
    pose proof (Rle_0_sqr (IZR k2)) as S2. unfold Rsqr in S2.
    assert (P1 : (d * d * (IZR k0 * IZR k0) <= a1 * a1 * (IZR k0 * IZR k0))%R)
      by (apply Rmult_le_compat_r; assumption).
    assert (P2 : (d * d * (IZR k1 * IZR k1) <= a2 * a2 * (IZR k1 * IZR k1))%R)
      by (apply Rmult_le_compat_r; assumption).
    assert (P3 : (d * d * (IZR k2 * IZR k2) <= a3 * a3 * (IZR k2 * IZR k2))%R)
      by (apply Rmult_le_compat_r; assumption).
    nra.
  - eapply Rle_trans; [|apply norm_nonneg]. lra.
Qed.

Lemma single_atom_ok a1 a2 a3 d x u :
  atoms_list u = [x] -> cell u = diag a1 a2 a3 ->
  (d <= a1)%R -> (d <= a2)%R -> (d <= a3)%R ->
  ~ violation [((1, 1), d)] u.
Proof.
  intros Hu Hc H1 H2 H3 (i & j & k & d' & Hi & Hj & Hn & Hl & Hlt).
  unfold len in Hi, Hj. rewrite Hu in Hi, Hj. simpl in Hi, Hj.
  assert (i = 0) by lia. assert (j = 0) by lia. subst i j.
  unfold atom_at in *. rewrite Hu in *. cbn [nth] in *.
  assert (Hk : k <> (0, 0, 0)%Z) by (intros ->; apply Hn; auto).
  assert (d' = d).
  { unfold lookup in Hl. cbn [find fst snd] in Hl.
    destruct (Nat.eqb 1 (number x) && Nat.eqb 1 (number x)); cbn in Hl; congruence. }
  subst d'. rewrite Hc in Hlt.
  pose proof (own_image_far d a1 a2 a3 x k H1 H2 H3 Hk). lra.
Qed.

Lemma assign_one directions :
  assign_factors directions [1%positive] = (1, 1, 1)%positive.
Proof.
  unfold assign_factors. destruct directions as [|d r]; [reflexivity|].
  cbn [combine fold_left fst snd]. 
  replace (combine r []) with (@nil (nat * positive)) by (destruct r; reflexivity).
  cbn [fold_left]. destruct d as [|[|[|d]]]; reflexivity.
Qed.

Lemma random_value w r w' : random w = Ret r w' -> r = floats w (fpos w).
Proof. unfold random. intros H. inversion H. reflexivity. Qed.

(** A call on a generator with one block of one atom and one split, of
    which one instance goes into the subcell, gives a structure when an
    atom alone in the subcell is far enough from its own images. *)
Lemma one_placement_returns g w split count :
  self w = g ->
  self_splits g = [(split, 1%R)] -> length split <= 3 ->
  self_blocks g = [(0, count)] ->
  (floats w (fpos w) < 1)%R ->
  objs w 0 = Atoms_symbol 1 -> 0 < next w ->
  (forall dirs w2, rng_only w w2 ->
     length dirs = length split -> (forall x, In x dirs -> x < 3) ->
     exists c full w3 su,
       make_cell 1 (self_volume g
                    / INR (Pos.to_nat (product (assign_factors dirs split))))%R
                 (assign_factors dirs split) w2 = Ret (c, full) w3 /\
       expand 0 (Pos.to_nat (product (assign_factors dirs split))) [(0, count)]
         = ([0], [su], [0]) /\
       forall x u, atoms_list u = [x] -> cell u = c ->
                   ~ violation (self_blmin g) u) ->
  returns (get_new_candidate ase0 1) w.
Proof.
  intros Hg Hs Hl Hb Hf Ho Hn Hcell.
  assert (WF : wf w).
  { intros b c Hin. rewrite Hg, Hb in Hin. destruct Hin as [E|[]].
    inversion E; subst. exact Hn. }
  unfold get_new_candidate.
  unfold returns. rewrite bind_get_self. fold (returns (A:=loc)).
  apply returns_bind; [apply returns_random|intros r w1 Hr].
  pose proof (random_value _ _ _ Hr) as Er. apply random_inv in Hr.
  rewrite Hg, Hs. cbn [choose_split].
  destruct (Rgt_dec (0 + 1) r) as [_|N]; [|exfalso; apply N; subst r; lra].
  destruct (sample_range_spec 3 (length split) w1 Hl)
    as (dirs & w2 & Hd2 & Ld & Bd & _ & RO2 & _).
  apply returns_bind; [exists dirs, w2; exact Hd2|intros dirs' w2' Hd2'].
  rewrite Hd2 in Hd2'. inversion Hd2'; subst dirs' w2'; clear Hd2'.
  assert (RO12 : rng_only w w2) by eauto using rng_only_trans.
  destruct (Hcell dirs w2 RO12 Ld Bd) as (a & full & w3 & su & Hc & EE & Lone).
  set (rep := assign_factors dirs split) in *.
  apply returns_bind; [exists (a, full), w3; exact Hc|intros cf w3' Hc'].
  rewrite Hc in Hc'. inversion Hc'; subst cf w3'; clear Hc'. cbn zeta.
  pose proof (make_cell_spec _ _ _ _ _ _ _ Hc) as (RO3 & _).
  assert (RO13 : rng_only w w3) by eauto using rng_only_trans.
  rewrite Hb, EE. cbn [length].
  apply returns_bind; [apply returns_permutation|intros order w4 Hp].
  apply permutation_inv in Hp. destruct Hp as (PO & RO4).
  assert (RO14 : rng_only w w4) by eauto using rng_only_trans.
  assert (order = [0]).
  { cbn [seq] in PO. apply Permutation_sym, Permutation_length_1_inv in PO. exact PO. }
  subst order. cbn [map nth].
  apply returns_bind; [apply returns_alloc|intros cand w5 Hal].
  assert (Hal' := Hal). apply alloc_inv in Hal'. destruct Hal' as [A1 A2 A3 A4 A5].
  assert (N4 : next w4 = next w) by (apply (ro_next _ _ RO14)).
  assert (P : returns (place_all ase0 1 cand a (self_blmin g) [0] 0) w5).
  { cbn [place_all]. unfold copy.
    unfold returns. rewrite bind_assoc, bind_load. fold (returns (A:=list loc)).
    apply returns_bind; [apply returns_alloc|intros atoms w6 Hat].
    apply alloc_inv in Hat. destruct Hat as [B1 B2 B3 B4 B5].
    apply returns_bind; [apply returns_modify|intros [] w7 Hm].
    apply modify_inv in Hm. destruct Hm as [M1 M2 M3 M4].
    unfold returns. rewrite bind_load. fold (returns (A:=list loc)).
    assert (O0 : objs w5 0 = Atoms_symbol 1).
    { rewrite A5 by lia. rewrite (ro_objs _ _ RO14). exact Ho. }
    assert (At : objs w7 atoms = set_tags 0 (Atoms_symbol 1)).
    { rewrite M3, B4, O0. reflexivity. }
    rewrite At. change (Nat.ltb 1 (len (set_tags 0 (Atoms_symbol 1)))) with false.
    apply returns_bind;
      [|intros; apply returns_bind; [apply returns_ret|intros; apply returns_ret]].
    cbn [place_block].
    destruct (try_position_total ase0 cand atoms false a w7) as (att & w8 & Ht).
    unfold returns. rewrite (bind_eq _ Ht), bind_load. fold (returns (A:=unit)).
    apply try_position_spec in Ht; [|lia|lia|lia].
    destruct Ht as (T1 & T2 & T3 & T4 & T5 & T6).
    assert (C7 : objs w7 cand = Atoms_empty a pbc3).
    { rewrite M4, B5 by lia. exact A4. }
    rewrite C7 in T6.
    assert (V : atoms_too_close ase0 (objs w8 att) (self_blmin g) = false).
    { rewrite T6. cbn [atoms_too_close ase0]. unfold atoms_too_close_spec.
      destruct (excluded_middle_informative _) as [v|]; [|reflexivity].
      exfalso. revert v.
      destruct T5 as (S1 & S2 & _). rewrite At in S1, S2.
      destruct (atoms_list (objs w8 atoms)) as [|x [|y r']] eqn:El;
        unfold get_atomic_numbers in S1; rewrite El in S1; try discriminate.
      apply (Lone (move (fun p => p) x)); [|reflexivity].
      unfold wrap, extend. cbn. rewrite El. reflexivity. }
    rewrite V. unfold iadd. unfold returns. rewrite bind_load. apply returns_modify. }
  apply returns_bind; [exact P|intros cand_list w6 Hp].
  apply (rebuild_after_placing ase0 1 w w4 rep a full
           [0] [su] [0] [0] cand w5 cand_list w6); auto.
  - rewrite Hg, Hb. exact EE.
  - rewrite Hg. exact Hp.
Qed.

(** The same without splitting: one block of one atom, placed once in a
    cubic cell whose side is at least the minimal distance. *)
Lemma one_block_returns g w a d :
  self w = g ->
  self_splits g = [([1%positive], 1%R)] ->
  self_blocks g = [(0, 1)] ->
  self_blmin g = [((1, 1), d)] ->
  (d <= a)%R -> (floats w (fpos w) < 1)%R ->
  objs w 0 = Atoms_symbol 1 -> 0 < next w ->
  (forall w2, rng_only w w2 ->
     exists full w3,
       make_cell 1 (self_volume g / INR 1)%R (1, 1, 1)%positive w2
       = Ret (cubic a, full) w3) ->
  returns (get_new_candidate ase0 1) w.
Proof.
  intros Hg Hs Hb Hbl Hd Hf Ho Hn Hcell.
  apply (one_placement_returns g w [1%positive] 1); auto.
  intros dirs w2 RO _ _. rewrite assign_one.
  change (Pos.to_nat (product (1, 1, 1)%positive)) with 1.
  destruct (Hcell w2 RO) as (full & w3 & Hc).
  exists (cubic a), full, w3, 0. split; [exact Hc|]. split; [reflexivity|].
  intros x u Hu Hcu. rewrite Hbl.
  apply (single_atom_ok a a a d x u); auto.
Qed.

Lemma vec_eq (a b c a' b' c' : R) :
  a = a' -> b = b' -> c = c' -> (a, b, c) = (a', b', c').
Proof. intros -> -> ->. reflexivity. Qed.

Lemma mat_eq (r0 r1 r2 r0' r1' r2' : vec) :
  r0 = r0' -> r1 = r1' -> r2 = r2' -> (r0, r1, r2) = (r0', r1', r2').
Proof. intros -> -> ->. reflexivity. Qed.

Lemma div_rows_one c : div_rows c (to_nat3 (1, 1, 1)%positive) = c.
Proof.
  destruct c as [[[[a b] c] [[d e] f]] [[g h] i]].
  unfold div_rows, to_nat3, vdiv. change (INR (Pos.to_nat 1)) with 1%R.
  apply mat_eq; apply vec_eq; field.
Qed.

Lemma fixed_cell_returns g w2 c :
  self w2 = g -> self_cell g = Some c ->
  exists full w3,
    make_cell 1 (self_volume g / INR 1)%R (1, 1, 1)%positive w2 = Ret (c, full) w3.
Proof.
  intros Hs Hc. unfold make_cell. rewrite bind_get_self, Hs, Hc.
  rewrite div_rows_one. eexists _, _. reflexivity.
Qed.

Lemma fixed_returns : returns (get_new_candidate ase0 1) (world_of gen_fixed).
Proof.
  apply (one_block_returns gen_fixed (world_of gen_fixed) 4%R 1%R).
  - reflexivity.
  - reflexivity.
  - reflexivity.
  - reflexivity.
  - lra.
  - cbn [floats world_of]. lra.
  - reflexivity.
  - cbn [next world_of]. lia.
  - intros w2 RO. apply fixed_cell_returns; [apply (ro_self _ _ RO)|reflexivity].
Qed.

Lemma fixed_bounded_returns :
  returns (get_new_candidate ase0 1) (world_of gen_fixed_bounded).
Proof.
  apply (one_block_returns gen_fixed_bounded (world_of gen_fixed_bounded) 4%R 1%R).
  - reflexivity.
  - reflexivity.
  - reflexivity.
  - reflexivity.
  - lra.
  - cbn [floats world_of]. lra.
  - reflexivity.
  - cbn [next world_of]. lia.
  - intros w2 RO. apply fixed_cell_returns; [apply (ro_self _ _ RO)|reflexivity].
Qed.

Lemma pow033_one : pow033 1 = 1%R.
Proof.
  unfold pow033. destruct (Rlt_dec 0 1) as [_|N]; [|lra].
  unfold Rpower. rewrite ln_1, Rmult_0_r. apply exp_0.
Qed.

Lemma pow033_ge_one x : (1 <= x)%R -> (1 <= pow033 x)%R.
Proof.
  intros H. unfold pow033. destruct (Rlt_dec 0 x) as [_|N]; [|lra].
  rewrite <- (Rpower_O x) by lra. apply Rle_Rpower; lra.
Qed.

Lemma raw_cell_half : raw_cell 1 (fun _ => (5 / 10)%R) = cubic (5 / 10).
Proof.
  unfold raw_cell, cubic. rewrite pow033_one. apply mat_eq; apply vec_eq; field.
Qed.

Lemma det_cubic a : det (cubic a) = (a * a * a)%R.
Proof. unfold det, cubic. ring. Qed.

Lemma mscale_cubic s a : mscale s (cubic a) = cubic (s * a).
Proof. unfold mscale, cubic, vscale. apply mat_eq; apply vec_eq; ring. Qed.

Lemma rescale_half : rescale 1 (cubic (5 / 10)) = cubic half_side.
Proof.
  unfold rescale. rewrite det_cubic, mscale_cubic. unfold half_side.
  replace (1 / Rabs (5 / 10 * (5 / 10) * (5 / 10)))%R with 8%R; [reflexivity|].
  rewrite Rabs_pos_eq by lra. field.
Qed.

Lemma half_side_ge : (5 / 10 <= half_side)%R.
Proof.
  unfold half_side. pose proof (pow033_ge_one 8 ltac:(lra)). lra.
Qed.

Lemma norm_cubic_row a i : (0 <= a)%R -> norm (row (cubic a) i) = a.
Proof.
  intros Ha. unfold cubic, row.
  destruct i as [|[|i]]; unfold norm;
    match goal with |- sqrt ?e = _ => replace e with (a * a)%R by ring end;
    apply sqrt_square; exact Ha.
Qed.

Lemma sampled_cell_returns w2 :
  rng_only (world_of gen_sampled) w2 ->
  exists full w3,
    make_cell 1 (self_volume gen_sampled / INR 1)%R (1, 1, 1)%positive w2
    = Ret (cubic half_side, full) w3.
Proof.
  intros RO. unfold make_cell. rewrite bind_get_self, (ro_self _ _ RO).
  cbn [self world_of self_cell gen_sampled sample_cell].
  rewrite bind_get_self, (ro_self _ _ RO).
  cbn [self world_of self_blmin self_cellbounds gen_sampled same_element_values
       filter map fst snd Nat.eqb Rmax_list fold_left self_volume].
  destruct (returns_sample_once (1 / INR 1)%R w2) as (c & w3 & Hs).
  rewrite (bind_eq _ Hs).
  apply sample_once_spec in Hs. destruct Hs as (Ec & _).
  rewrite (ro_floats _ _ RO) in Ec. cbn [floats world_of] in Ec.
  replace (1 / INR 1)%R with 1%R in Ec by (cbn; field).
  rewrite raw_cell_half, rescale_half in Ec. subst c.
  assert (V : is_valid (Some (fun _ : mat => true)) (5 / 10) (cubic half_side)
                (mul_rows (to_nat3 (1, 1, 1)%positive) (cubic half_side)) = true).
  { unfold is_valid. cbn [seq fold_left].
    pose proof half_side_ge as G.
    rewrite !norm_cubic_row by lra.
    destruct (Rlt_dec half_side (5 / 10)); [lra|reflexivity]. }
  rewrite V. eexists _, _. reflexivity.
Qed.

Lemma sampled_returns : returns (get_new_candidate ase0 1) (world_of gen_sampled).
Proof.
  apply (one_block_returns gen_sampled (world_of gen_sampled) half_side (5 / 10)%R).
  - reflexivity.
  - reflexivity.
  - reflexivity.
  - reflexivity.
  - apply half_side_ge.
  - cbn [floats world_of]. lra.
  - reflexivity.
  - cbn [next world_of]. lia.
  - intros w2 RO. apply sampled_cell_returns. exact RO.
Qed.

Lemma div_rows_cubic a n0 n1 n2 :
  div_rows (cubic a) (n0, n1, n2)
  = diag (a / INR n0) (a / INR n1) (a / INR n2).
Proof.
  unfold div_rows, cubic, diag, vdiv.
  apply mat_eq; apply vec_eq; unfold Rdiv; ring.
Qed.

(** The generator that splits in two returns a structure. *)
Lemma split_returns : returns (get_new_candidate ase0 1) (world_of gen_split).
Proof.
  apply (one_placement_returns gen_split (world_of gen_split) [2%positive] 2).
  - reflexivity.
  - reflexivity.
  - cbn [length]. lia.
  - reflexivity.
  - cbn [floats world_of]. lra.
  - reflexivity.
  - cbn [next world_of]. lia.
  - intros dirs w2 RO Ld Bd.
    destruct dirs as [|d [|d' r]]; try discriminate.
    assert (Hd : d < 3) by (apply Bd; left; reflexivity).
    unfold make_cell. rewrite bind_get_self, (ro_self _ _ RO).
    cbn [self world_of self_cell gen_split self_blmin].
    assert (Q : forall n0 n1 n2 x u,
              (1 <= 8 / INR n0)%R -> (1 <= 8 / INR n1)%R -> (1 <= 8 / INR n2)%R ->
              atoms_list u = [x] -> cell u = div_rows (cubic 8) (n0, n1, n2) ->
              ~ violation [((1, 1), 1%R)] u).
    { intros n0 n1 n2 x u B0 B1 B2 Hu Hc. rewrite div_rows_cubic in Hc.
      eapply single_atom_ok; eauto. }
    assert (I1 : (1 <= 8 / INR 1)%R) by (cbn [INR]; lra).
    assert (I2 : (1 <= 8 / INR 2)%R) by (cbn [INR]; lra).
    destruct d as [|[|[|d]]]; [| | |lia];
      (eexists _, _, _, _; split; [reflexivity|]; split; [reflexivity|];
       intros x u Hu Hc; eapply Q; [| | |exact Hu|exact Hc]; assumption).
Qed.

End ExampleFacts.

Export ExampleFacts.

(* ================================================================== *)
(** ** Images and tags *)

Module ImageFacts.

Open Scope nat_scope.

Lemma images_In rep m :
  In m (images rep) <->
  fst (fst m) < fst (fst rep) /\ snd (fst m) < snd (fst rep) /\ snd m < snd rep.
Proof.
  destruct rep as [[n0 n1] n2], m as [[m0 m1] m2]. unfold images. cbn [fst snd].
  rewrite in_flat_map. split.
  - intros (x0 & H0 & H). apply in_flat_map in H. destruct H as (x1 & H1 & H).
    apply in_map_iff in H. destruct H as (x2 & E & H2). inversion E; subst.
    apply in_seq in H0, H1, H2. lia.
  - intros (H0 & H1 & H2). exists m0. split; [apply in_seq; lia|].
    apply in_flat_map. exists m1. split; [apply in_seq; lia|].
    apply in_map_iff. exists m2. split; [reflexivity|apply in_seq; lia].
Qed.

Lemma NoDup_flat_map_key {A B} (f : A -> list B) (key : B -> A) l :
  (forall x b, In b (f x) -> key b = x) ->
  NoDup l -> (forall x, In x l -> NoDup (f x)) -> NoDup (flat_map f l).
Proof.
  intros K ND. induction ND as [|x l Hx ND IH]; intros Hf; simpl; [constructor|].
  apply NoDup_app.
  - apply Hf. left. reflexivity.
  - apply IH. intros y Hy. apply Hf. right. exact Hy.
  - intros b Hb Hb'. apply in_flat_map in Hb'. destruct Hb' as (y & Hy & Hby).
    apply K in Hb. apply K in Hby. subst. contradiction.
Qed.

Lemma images_NoDup rep : NoDup (images rep).
Proof.
  destruct rep as [[n0 n1] n2]. unfold images.
  apply (NoDup_flat_map_key _ (fun m : nat * nat * nat => fst (fst m))).
  - intros x b Hb. apply in_flat_map in Hb. destruct Hb as (x1 & _ & Hb).
    apply in_map_iff in Hb. destruct Hb as (x2 & <- & _). reflexivity.
  - apply seq_NoDup.
  - intros x _. apply (NoDup_flat_map_key _ (fun m : nat * nat * nat => snd (fst m))).
    + intros x1 b Hb. apply in_map_iff in Hb. destruct Hb as (x2 & <- & _). reflexivity.
    + apply seq_NoDup.
    + intros x1 _. apply NoDup_map_NoDup_ForallPairs; [|apply seq_NoDup].
      intros a b _ _ E. inversion E. reflexivity.
Qed.

(** Where the atoms of the repeated cell come from. *)
Lemma tagged_from_In a N y : forall ims s,
  In y (tagged_from s ims N a) ->
  exists idx m u,
    In u (atoms_list a) /\ s <= idx /\ nth_error ims (idx - s) = Some m /\
    y = image_atom (cell a) N (idx, m) u.
Proof.
  induction ims as [|m r IH]; intros s H; [inversion H|].
  unfold tagged_from in H. cbn [length seq combine flat_map] in H.
  apply in_app_or in H. destruct H as [H|H].
  - apply in_map_iff in H. destruct H as (u & E & Hu).
    exists s, m, u. rewrite Nat.sub_diag. auto.
  - fold (tagged_from (S s) r N a) in H. apply IH in H.
    destruct H as (idx & m' & u & Hu & Hs & Hn & E).
    exists idx, m', u. split; [exact Hu|]. split; [lia|]. split; [|exact E].
    replace (idx - s) with (S (idx - S s)) by lia. exact Hn.
Qed.

(** Where the atoms of the rebuilt structure come from. *)
Lemma groups_nth cf : forall kept tc i,
  i < length (groups cf tc kept) ->
  exists n g y,
    nth_error kept n = Some g /\ In y cf /\ tag y = g /\
    nth i (groups cf tc kept) default_atom = retag (tc + n) y.
Proof.
  induction kept as [|g r IH]; intros tc i Hi; simpl in Hi; [lia|].
  cbn [groups].
  destruct (Nat.lt_ge_cases i (length (map (retag tc) (filter (has_tag g) cf)))) as [L|L].
  - rewrite app_nth1 by exact L.
    rewrite length_map in L.
    exists 0, g, (nth i (filter (has_tag g) cf) default_atom).
    assert (Hin : In (nth i (filter (has_tag g) cf) default_atom) (filter (has_tag g) cf))
      by (apply nth_In; exact L).
    apply filter_In in Hin. destruct Hin as (Hin & Ht).
    split; [reflexivity|]. split; [exact Hin|].
    split; [apply Nat.eqb_eq; exact Ht|].
    rewrite Nat.add_0_r.
    rewrite (nth_indep _ default_atom (retag tc default_atom))
      by (rewrite length_map; exact L).
    apply map_nth.
  - rewrite app_nth2 by exact L.
    rewrite length_app in Hi.
    destruct (IH (S tc) (i - length (map (retag tc) (filter (has_tag g) cf))))
      as (n & g' & y & Hn & Hy & Ht & E); [lia|].
    exists (S n), g', y. split; [exact Hn|]. split; [exact Hy|]. split; [exact Ht|].
    rewrite E. f_equal. lia.
Qed.

Lemma kept_in h cf indices_full surplus i bs ks :
  kept_lists h cf indices_full surplus i bs ks ->
  forall g, In g (concat ks) ->
    exists i', i <= i' /\ In g (where_eq i' indices_full).
Proof.
  induction 1 as [|i b c bs bad ks H1 H2 H3 H4 H5 IH]; intros g Hg; [inversion Hg|].
  cbn [concat] in Hg. apply in_app_or in Hg. destruct Hg as [Hg|Hg].
  - apply filter_In in Hg. exists i. split; [lia|tauto].
  - destruct (IH g Hg) as (i' & L & Hi). exists i'. split; [lia|exact Hi].
Qed.

Lemma kept_NoDup h cf indices_full surplus i bs ks :
  kept_lists h cf indices_full surplus i bs ks -> NoDup (concat ks).
Proof.
  induction 1 as [|i b c bs bad ks H1 H2 H3 H4 H5 IH]; [constructor|].
  cbn [concat]. apply NoDup_app.
  - apply NoDup_filter. apply where_eq_from_NoDup.
  - exact IH.
  - intros g Hg Hg'. apply filter_In in Hg. destruct Hg as (Hg & _).
    destruct (kept_in _ _ _ _ _ _ _ H5 g Hg') as (i' & L & Hi).
    apply where_eq_In in Hg, Hi. destruct Hg as (Lg & Eg), Hi as (_ & Ei).
    rewrite (nth_indep _ (S i) (S i') Lg) in Eg. lia.
Qed.

End ImageFacts.

Export ImageFacts.

(* ================================================================== *)
(** ** Distances in the repeated candidate *)

Module SeparationFacts.

Open Scope nat_scope.

Lemma shift_zero mi mj k rep :
  In mi (images rep) -> In mj (images rep) ->
  shift mi mj k rep = (0, 0, 0)%Z -> mi = mj.
Proof.
  intros Hi Hj E. apply images_In in Hi, Hj.
  destruct mi as [[i0 i1] i2], mj as [[j0 j1] j2], k as [[k0 k1] k2],
    rep as [[n0 n1] n2]. cbn [fst snd] in *. unfold shift in E.
  injection E as E0 E1 E2.
  assert (A : forall (i j n : nat) (k : Z), i < n -> j < n ->
            (Z.of_nat j - Z.of_nat i + k * Z.of_nat n = 0)%Z -> i = j).
  { clear. intros i j n k Li Lj Ek.
    assert (k = 0 \/ 1 <= k \/ k <= -1)%Z as [->|[Hk|Hk]] by lia; [lia|nia|nia]. }
  destruct Hi as (Hi0 & Hi1 & Hi2), Hj as (Hj0 & Hj1 & Hj2).
  assert (X0 := A i0 j0 n0 k0 Hi0 Hj0 E0).
  assert (X1 := A i1 j1 n1 k1 Hi1 Hj1 E1).
  assert (X2 := A i2 j2 n2 k2 Hi2 Hj2 E2).
  subst. reflexivity.
Qed.

Lemma shift_position c rep mi mj k (p q : vec) :
  vsub (vadd (vadd q (lattice (INR3 mj) c)) (lattice (IZR3 k) (mul_rows rep c)))
       (vadd p (lattice (INR3 mi) c))
  = vsub (vadd q (lattice (IZR3 (shift mi mj k rep)) c)) p.
Proof.
  destruct mi as [[i0 i1] i2], mj as [[j0 j1] j2], k as [[k0 k1] k2],
    rep as [[n0 n1] n2].
  destruct c as [[[[a b] c] [[d e] f]] [[g h] i]].
  destruct p as [[px py] pz], q as [[qx qy] qz].
  unfold shift, IZR3, INR3, mul_rows, lattice, vscale, vadd, vsub.
  rewrite !plus_IZR, !minus_IZR, !mult_IZR, <- !INR_IZR_INZ.
  apply (f_equal2 pair); [apply (f_equal2 pair)|]; ring.
Qed.

Section WithImports.
Variable ase : Imports.

(** The last instance merged passed the test together with all the
    others (line 194). *)
Lemma built_last bl c insts c' :
  built ase bl c insts c' ->
  insts = [] \/ atoms_too_close ase (wrap ase c') bl = false.
Proof.
  induction 1 as [c|c a rest c' T B IH]; [left; reflexivity|].
  right. destruct IH as [->|IH]; [|exact IH].
  inversion B; subst. exact T.
Qed.

Lemma nth_error_NoDup_eq {A} (l : list A) i j x :
  NoDup l -> nth_error l i = Some x -> nth_error l j = Some x -> i = j.
Proof.
  intros ND Hi Hj.
  apply (proj1 (NoDup_nth_error l) ND).
  - apply nth_error_Some. congruence.
  - congruence.
Qed.

Lemma separated_of_explains fuel w F t :
  too_close_sound ase -> explains ase fuel w F t ->
  well_separated (self_blmin (self w)) F.
Proof.
  intros SOUND EX.
  pose proof (explains_shape _ _ _ _ _ EX) as (_ & _ & UA & UC).
  destruct EX as [E1 E2 E3 E4 E5 E6 E7 E8].
  destruct E1 as (w0 & w1 & MC & S0).
  apply make_cell_spec in MC. destruct MC as (_ & _ & FC & _).
  pose proof (kept_NoDup _ _ _ _ _ _ _ E5) as KN.
  set (U := t_cand t) in *. set (rep := to_nat3 (t_repeat t)) in *.
  set (N := t_N (self w) t) in *.
  intros i j K d Li Lj TG LK.
  unfold len in Li, Lj. unfold atom_at in *. rewrite E6 in *.
  destruct (groups_nth _ _ _ _ Li) as (ni & gi & yi & Ki & Yi & Gi & Ai).
  destruct (groups_nth _ _ _ _ Lj) as (nj & gj & yj & Kj & Yj & Gj & Aj).
  rewrite Ai, Aj in *. cbn [retag number tag position] in *.
  unfold t_cand_full in Yi, Yj. fold U rep N in Yi, Yj.
  unfold tagged_full in Yi, Yj.
  apply tagged_from_In in Yi, Yj.
  destruct Yi as (xi & mi & ui & Ui & _ & Mi & ->).
  destruct Yj as (xj & mj & uj & Uj & _ & Mj & ->).
  rewrite Nat.sub_0_r in Mi, Mj.
  unfold image_distance. cbn [image_atom number position tag fst snd] in *.
  rewrite E7, FC, UC. fold rep.
  cbn [image_atom retag number position tag fst snd].
  rewrite shift_position.
  destruct (built_last _ _ _ _ E4) as [NI|TC].
  { rewrite NI in UA. cbn in UA. fold U in UA. rewrite UA in Ui. inversion Ui. }
  apply SOUND in TC. fold U in TC.
  destruct (Rle_or_lt d
     (norm (vsub (vadd (position uj)
        (lattice (IZR3 (shift mi mj K rep)) (t_cell t))) (position ui))))
    as [OK|BAD]; [exact OK|].
  exfalso. apply TC.
  apply In_nth with (d := default_atom) in Ui, Uj.
  destruct Ui as (a & La & Ea). destruct Uj as (b & Lb & Eb).
  exists a, b, (shift mi mj K rep), d. unfold len, atom_at.
  rewrite Ea, Eb. split; [exact La|]. split; [exact Lb|].
  split.
  - intros (ET & SZ).
    apply shift_zero in SZ; try (eapply nth_error_In; eassumption).
    subst mj.
    assert (xi = xj).
    { eapply nth_error_NoDup_eq; [apply (images_NoDup rep)|exact Mi|exact Mj]. }
    subst xj.
    rewrite <- Gj, <- ET, Gi in Kj.
    assert (ni = nj).
    { eapply nth_error_NoDup_eq; [exact KN|exact Ki|exact Kj]. }
    apply TG. cbn. congruence.
  - split; [exact LK|]. unfold image_distance. rewrite UC. exact BAD.
Qed.

End WithImports.

End SeparationFacts.

Export SeparationFacts.

(* ================================================================== *)
(** ** Composition of the structures returned *)

Module Composition.

Open Scope nat_scope.

Lemma wf_world_of g count :
  self_blocks g = [(0, count)] -> wf (world_of g).
Proof.
  intros E b c H. unfold world_of in *. cbn [self next] in *.
  rewrite E in H. destruct H as [H|[]]. inversion H. lia.
Qed.

Section WithImports.
Variable ase : Imports.

Lemma returned_layout fuel w l w' :
  wf w -> get_new_candidate ase fuel w = Ret l w' ->
  map number_tag (atoms_list (objs w' l))
    = layout (objs w) 0 (self_blocks (self w)).
Proof.
  intros WF H.
  destruct (get_new_candidate_spec ase fuel w l w' H WF) as (_ & _ & _ & _ & t & EX).
  pose proof (explains_shape _ _ _ _ _ EX) as (PO & HI & HU & _).
  rewrite (ex_atoms _ _ _ _ _ EX).
  apply (final_layout (objs w) (self w) t PO HI HU).
  exact (ex_kept _ _ _ _ _ EX).
Qed.

(** C1: a structure returned by [get_new_candidate] holds, block after
    block in the order of [self.blocks], exactly [count] instances of
    each block, every instance with the atomic numbers of its block and a
    tag of its own (so [count * len(block)] atoms of that block), whatever
    [repeat] was drawn.  On the way, each subcell gets
    [ceil(count / nparts)] instances of the block, the repeated cell has
    [nparts * ceil(count / nparts)] of them, and exactly the surplus
    [nparts * ceil(count / nparts) - count] are taken out. *)
Theorem candidate_composition fuel w l w' :
  wf w -> get_new_candidate ase fuel w = Ret l w' ->
  map number_tag (atoms_list (objs w' l))
    = layout (objs w) 0 (self_blocks (self w)) /\
  exists t,
    explains ase fuel w (objs w' l) t /\
    forall k b c, nth_error (self_blocks (self w)) k = Some (b, c) ->
      count_occ Nat.eq_dec (t_indices (self w) t) k
        = ceil_div c (t_nparts t) /\
      length (where_eq k (tile (t_indices (self w) t) (t_nparts t)))
        = t_nparts t * ceil_div c (t_nparts t) /\
      exists bad,
        NoDup bad /\
        incl bad (where_eq k (tile (t_indices (self w) t) (t_nparts t))) /\
        length bad = t_nparts t * ceil_div c (t_nparts t) - c /\
        nth k (t_kept t) []
          = filter (not_bad bad)
              (where_eq k (tile (t_indices (self w) t) (t_nparts t))) /\
        length (nth k (t_kept t) []) = c.
Proof.
  intros WF H.
  destruct (get_new_candidate_spec ase fuel w l w' H WF) as (_ & _ & _ & _ & t & EX).
  pose proof (explains_shape _ _ _ _ _ EX) as (PO & HI & HU & _).
  split.
  - rewrite (ex_atoms _ _ _ _ _ EX).
    apply (final_layout (objs w) (self w) t PO HI HU).
    exact (ex_kept _ _ _ _ _ EX).
  - exists t. split; [exact EX|]. intros k b c Hk.
    split.
    { pose proof (indices_perm (self w) t PO) as P.
      rewrite (Permutation_count_occ Nat.eq_dec) in P. rewrite P.
      destruct (expand_count (t_nparts t) (self_blocks (self w)) 0) as (_ & C).
      exact (C k b c Hk). }
    split; [exact (where_length (self w) t PO k b c Hk)|].
    destruct (kept_lengths _ _ _ _ _ _ _ (ex_kept _ _ _ _ _ EX) k b c Hk)
      as (bad & E & ND & IN & LB).
    cbn [Nat.add] in *.
    rewrite (surplus_nth (self w) t k b c Hk) in LB.
    exists bad. repeat (split; [assumption|]).
    rewrite E, kept_length;
      [|exact ND|apply where_eq_from_NoDup|exact IN].
    rewrite LB, (where_length (self w) t PO k b c Hk).
    pose proof (ceil_div_ge c (t_nparts t) (nparts_pos t)). lia.
Qed.

End WithImports.

Lemma candidate_composition_witness :
  exists l w',
    get_new_candidate ase0 1 (world_of gen_split) = Ret l w' /\
    map number_tag (atoms_list (objs w' l)) = [(1, 0); (1, 1)].
Proof.
  destruct split_returns as (l & w' & E).
  exists l, w'. split; [exact E|].
  exact (proj1 (candidate_composition ase0 1 (world_of gen_split) l w'
                  (wf_world_of gen_split 2 eq_refl) E)).
Defined.

End Composition.

Export Composition.

(* ================================================================== *)
(** ** Successive calls *)

Module Calls.

Open Scope nat_scope.

Section WithImports.
Variable ase : Imports.

Lemma wf_evolves w w' : wf w -> evolves w w' -> wf w'.
Proof.
  intros WF EV b c H. rewrite (ev_self _ _ EV) in H.
  pose proof (ev_next _ _ EV). apply WF in H. lia.
Qed.

Lemma candidates_spec fuel n : forall w rs w',
  wf w -> candidates ase fuel n w = Ret rs w' ->
  evolves w w' /\ frame (next w) w w' /\
  Forall (fun la => next w <= fst la < next w' /\ objs w' (fst la) = snd la) rs /\
  NoDup (map fst rs) /\ length rs = n.
Proof.
  induction n as [|n IH]; intros w rs w' WF H.
  - inversion H; subst. repeat split; auto using evolves_refl, frame_refl.
    constructor.
  - cbn [candidates] in H.
    apply bind_ret in H. destruct H as (l & w1 & Hc & H).
    rewrite bind_load in H.
    apply bind_ret in H. destruct H as (rest & w2 & Hr & H).
    inversion H; subst; clear H.
    destruct (get_new_candidate_spec ase fuel w l w1 Hc WF)
      as (EV & FR & L1 & L2 & _).
    destruct (IH w1 rest w' (wf_evolves _ _ WF EV) Hr) as (EV' & FR' & FA & ND & LN).
    pose proof (ev_next _ _ EV) as N1. pose proof (ev_next _ _ EV') as N2.
    split; [eapply evolves_trans; eauto|].
    split.
    { intros x Hx. rewrite FR' by lia. apply FR. exact Hx. }
    split.
    { constructor.
      - cbn [fst snd]. split; [lia|]. apply FR'. exact L2.
      - eapply Forall_impl; [|exact FA]. intros [l' a'] (B & E). cbn [fst snd] in *.
        split; [lia|exact E]. }
    split; [|cbn [length]; congruence].
    cbn [map fst]. constructor; [|exact ND].
    intros Hin. apply in_map_iff in Hin. destruct Hin as ([l' a'] & E & Hin).
    cbn [fst] in E. subst l'.
    rewrite Forall_forall in FA. apply FA in Hin. cbn [fst] in Hin. lia.
Qed.


End WithImports.

Lemma fixed_returns_from w :
  self w = gen_fixed -> floats w = (fun _ => 5 / 10)%R ->
  objs w 0 = Atoms_symbol 1 -> 0 < next w ->
  returns (get_new_candidate ase0 1) w.
Proof.
  intros Hs Hf Ho Hn.
  apply (one_block_returns gen_fixed w 4%R 1%R);
    try reflexivity; try assumption.
  - lra.
  - rewrite Hf. lra.
  - intros w2 RO. apply fixed_cell_returns; [|reflexivity].
    rewrite (ro_self _ _ RO). exact Hs.
Qed.

Lemma two_candidates_return :
  returns (candidates ase0 1 2) (world_of gen_fixed).
Proof.
  destruct fixed_returns as (l & w1 & E).
  destruct (get_new_candidate_spec ase0 1 _ l w1 E (wf_world_of gen_fixed 1 eq_refl))
    as (EV & FR & _).
  destruct (fixed_returns_from w1) as (l2 & w2 & E2).
  - rewrite (ev_self _ _ EV). reflexivity.
  - rewrite (ev_floats _ _ EV). reflexivity.
  - rewrite FR by (cbn; lia). reflexivity.
  - pose proof (ev_next _ _ EV) as N. cbn [next world_of] in N. lia.
  - assert (E3 : candidates ase0 1 1 w1 = Ret [(l2, objs w2 l2)] w2).
    { cbn [candidates]. rewrite (bind_eq _ E2), bind_load, bind_ret_l.
      reflexivity. }
    unfold returns. change (candidates ase0 1 2) with
      (l <- get_new_candidate ase0 1 ;; a <- load l ;;
       rest <- candidates ase0 1 1 ;; ret ((l, a) :: rest)).
    rewrite (bind_eq _ E), bind_load, (bind_eq _ E3).
    eexists _, _. reflexivity.
Qed.


End Calls.

Export Calls.

(* ================================================================== *)
(** ** The cell of the structures returned *)

Module Cells.

Open Scope nat_scope.

Lemma is_valid_short cb m c full i :
  i < 3 -> (norm (row c i) < m)%R -> is_valid cb m c full = false.
Proof.
  intros Hi Hs. unfold is_valid. cbn [seq fold_left].
  destruct i as [|[|[|i]]]; [| | |lia].
  - destruct (Rlt_dec (norm (row c 0)) m) as [_|N]; [|contradiction].
    destruct (Rlt_dec (norm (row c 1)) m), (Rlt_dec (norm (row c 2)) m); reflexivity.
  - destruct (Rlt_dec (norm (row c 1)) m) as [_|N]; [|contradiction].
    destruct (Rlt_dec (norm (row c 2)) m); reflexivity.
  - destruct (Rlt_dec (norm (row c 2)) m) as [_|N]; [|contradiction].
    reflexivity.
Qed.

Section WithImports.
Variable ase : Imports.

(** C6: with a fixed cell, no cell is sampled: computing the cell draws
    no random number and needs no turn of the validity loop (it returns
    for any fuel, in the same world); the subcell is the fixed cell with
    each row divided by its entry of [repeat]; and the structure returned
    has the fixed cell, so that its cell, divided row by row by [repeat],
    is the subcell. *)
Theorem fixed_cell_kept fuel w l w' c :
  wf w -> self_cell (self w) = Some c ->
  get_new_candidate ase fuel w = Ret l w' ->
  (forall fuel' tv rep w0, self w0 = self w ->
     make_cell fuel' tv rep w0 = Ret (div_rows c (to_nat3 rep), c) w0) /\
  cell (objs w' l) = c /\
  exists t,
    explains ase fuel w (objs w' l) t /\
    t_cell t = div_rows c (to_nat3 (t_repeat t)) /\
    div_rows (cell (objs w' l)) (to_nat3 (t_repeat t)) = t_cell t.
Proof.
  intros WF HC H.
  split.
  { intros fuel' tv rep w0 E. unfold make_cell.
    rewrite bind_get_self, E, HC. reflexivity. }
  destruct (get_new_candidate_spec ase fuel w l w' H WF) as (_ & _ & _ & _ & t & EX).
  destruct (ex_cell _ _ _ _ _ EX) as (w0 & w1 & MC & S0).
  apply make_cell_spec in MC. destruct MC as (_ & _ & _ & MC).
  rewrite S0, HC in MC. destruct MC as (_ & FC & SC).
  pose proof (ex_full_cell _ _ _ _ _ EX) as CF.
  split; [congruence|].
  exists t. split; [exact EX|]. split; [exact SC|]. rewrite CF, FC. symmetry. exact SC.
Qed.


(** C7, as amended: without a fixed cell, the cell of a structure
    returned is within the bounds of [cellbounds], when there is one. *)
Theorem sampled_cell_within_bounds fuel w l w' cb :
  wf w -> self_cell (self w) = None ->
  self_cellbounds (self w) = Some cb ->
  get_new_candidate ase fuel w = Ret l w' ->
  cb (cell (objs w' l)) = true.
Proof.
  intros WF HC HB H.
  destruct (get_new_candidate_spec ase fuel w l w' H WF) as (_ & _ & _ & _ & t & EX).
  destruct (ex_cell _ _ _ _ _ EX) as (w0 & w1 & MC & S0).
  apply make_cell_spec in MC. destruct MC as (_ & _ & _ & MC).
  rewrite S0, HC in MC. destruct MC as (_ & m & Em & V).
  apply is_valid_true in V. destruct V as (V & _).
  rewrite (ex_full_cell _ _ _ _ _ EX). apply V. exact HB.
Qed.

(** C10: the assertion [len(atoms) == len(block)] of line 222 never
    fails; in a call that returns, each tag kept for a block selects from
    [cand_full] one image of one instance placed, and nothing else: as
    many atoms as the block has. *)
Theorem kept_groups fuel w :
  wf w ->
  get_new_candidate ase fuel w <> Raise AssertionError /\
  forall l w', get_new_candidate ase fuel w = Ret l w' ->
    exists t,
      explains ase fuel w (objs w' l) t /\
      forall k b c x,
        nth_error (self_blocks (self w)) k = Some (b, c) ->
        In x (nth k (t_kept t) []) ->
        x / t_N (self w) t < t_nparts t /\
        x mod t_N (self w) t < t_N (self w) t /\
        filter (has_tag x) (t_cand_full (self w) t)
          = map (image_atom (t_cell t) (t_N (self w) t)
                   (x / t_N (self w) t,
                    nth (x / t_N (self w) t)
                        (images (to_nat3 (t_repeat t))) (0, 0, 0)))
                (atoms_list (nth (x mod t_N (self w) t) (t_insts t) no_atoms)) /\
        length (filter (has_tag x) (t_cand_full (self w) t)) = len (objs w b).
Proof.
  intros WF. split.
  { intros H. apply get_new_candidate_raise in H; [|exact WF].
    destruct H; discriminate. }
  intros l w' H.
  destruct (get_new_candidate_spec ase fuel w l w' H WF) as (_ & _ & _ & _ & t & EX).
  pose proof (explains_shape _ _ _ _ _ EX) as (PO & HI & HU & UC).
  exists t. split; [exact EX|]. intros k b c x Hk Hx.
  destruct (kept_lengths _ _ _ _ _ _ _ (ex_kept _ _ _ _ _ EX) k b c Hk)
    as (bad & E & _).
  cbn [Nat.add] in E. rewrite E in Hx. apply filter_In in Hx. destruct Hx as (Hx & _).
  destruct (group_shape (objs w) (self w) t PO HI HU k b c x Hk Hx)
    as (_ & G1 & G2 & G3 & _).
  rewrite UC in G3.
  split; [exact G1|]. split; [exact G2|]. split; [exact G3|].
  exact (group_length (objs w) (self w) t PO HI HU k b c x Hk Hx).
Qed.

End WithImports.

Lemma fixed_cell_kept_witness :
  exists l w',
    get_new_candidate ase0 1 (world_of gen_fixed) = Ret l w' /\
    cell (objs w' l) = cubic 4.
Proof.
  destruct fixed_returns as (l & w' & E).
  exists l, w'. split; [exact E|].
  exact (proj1 (proj2 (fixed_cell_kept ase0 1 (world_of gen_fixed) l w' (cubic 4)
                         (wf_world_of gen_fixed 1 eq_refl) eq_refl E))).
Defined.


Lemma sampled_cell_within_bounds_witness :
  exists l w' cb,
    get_new_candidate ase0 1 (world_of gen_sampled) = Ret l w' /\
    self_cellbounds gen_sampled = Some cb /\
    cb (cell (objs w' l)) = true.
Proof.
  destruct sampled_returns as (l & w' & E).
  exists l, w', (fun _ => true). split; [exact E|]. split; [reflexivity|].
  exact (sampled_cell_within_bounds ase0 1 (world_of gen_sampled) l w'
           (fun _ => true) (wf_world_of gen_sampled 1 eq_refl) eq_refl eq_refl E).
Defined.

(** With a fixed cell, the bounds are not looked at: the call returns a
    structure in the fixed cell though [cellbounds] accepts no cell. *)
Lemma fixed_cell_out_of_bounds :
  exists l w' cb,
    get_new_candidate ase0 1 (world_of gen_fixed_bounded) = Ret l w' /\
    self_cellbounds (self (world_of gen_fixed_bounded)) = Some cb /\
    cb (cell (objs w' l)) = false.
Proof.
  destruct fixed_bounded_returns as (l & w' & E).
  exists l, w', (fun _ => false). split; [exact E|]. split; reflexivity.
Qed.

Lemma kept_groups_witness :
  get_new_candidate ase0 1 (world_of gen_fixed) <> Raise AssertionError.
Proof.
  exact (proj1 (kept_groups ase0 1 (world_of gen_fixed)
                  (wf_world_of gen_fixed 1 eq_refl))).
Defined.

End Cells.

Export Cells.

(* ================================================================== *)
(** ** Distances in the structures returned *)

Module Distances.

Open Scope nat_scope.

Lemma wrap_ase0 a : wrap ase0 a = a.
Proof.
  unfold wrap, with_atoms. destruct a as [l c p]. cbn. f_equal.
  induction l as [|x r IH]; [reflexivity|].
  cbn [map]. rewrite IH. destruct x. reflexivity.
Qed.

Lemma ase0_sound : too_close_sound ase0.
Proof.
  intros a bl H. rewrite wrap_ase0 in H. cbn [atoms_too_close ase0] in H.
  unfold atoms_too_close_spec in H.
  destruct (excluded_middle_informative (violation bl a)) as [|N];
    [discriminate|exact N].
Qed.

Section WithImports.
Variable ase : Imports.


End WithImports.


End Distances.

Export Distances.

(* ================================================================== *)
(** ** How a call ends *)

Module Outcomes.

Open Scope nat_scope.

(** A call with a [cellbounds] object that accepts no cell is still in
    the loop of lines 127-149, however many turns it is given. *)
Lemma rejecting_never_ends fuel :
  get_new_candidate ase0 fuel (world_of gen_rejecting) = OutOfFuel.
Proof.
  unfold get_new_candidate. rewrite bind_get_self, bind_random.
  cbn [self world_of floats fpos gen_rejecting self_splits choose_split].
  destruct (Rgt_dec (0 + 1) (5 / 10)) as [_|N]; [|exfalso; apply N; lra].
  cbn [length].
  match goal with |- bind _ _ ?w = _ =>
    destruct (sample_range_spec 3 1 w ltac:(lia)) as (dirs & w2 & Hd & _ & _ & _ & RO & _)
  end.
  rewrite (bind_eq _ Hd).
  apply bind_fuel_eq. unfold make_cell. rewrite bind_get_self.
  rewrite (ro_self _ _ RO). cbn [self self_cell].
  apply (sample_cell_never _ _ (fun _ => false)).
  - rewrite (ro_self _ _ RO). reflexivity.
  - reflexivity.
  - rewrite (ro_self _ _ RO). cbn. discriminate.
Qed.

(** There is no retry ceiling: the call below is given any number of
    turns of its loops and neither returns nor raises. *)
Lemma rejecting_cellbounds_loops :
  ~ exists fuel,
      get_new_candidate ase0 fuel (world_of gen_rejecting) <> OutOfFuel.
Proof.
  intros (fuel & H). apply H. apply rejecting_never_ends.
Qed.

Section WithImports.
Variable ase : Imports.

(** C4, as amended: a call of [get_new_candidate], watched for any
    number of turns of its loops, has returned a structure with the whole
    composition configured, or has raised UnboundLocalError ([splits] is
    empty) or ValueError, or is still looping; no other error is raised,
    GenerationError included, and the loops have no ceiling.  What a call
    has returned or raised stays the same when it is given more turns. *)
Theorem call_outcomes fuel w :
  wf w ->
  ((exists l w',
      get_new_candidate ase fuel w = Ret l w' /\
      map number_tag (atoms_list (objs w' l))
        = layout (objs w) 0 (self_blocks (self w))) \/
   get_new_candidate ase fuel w = Raise UnboundLocalError \/
   get_new_candidate ase fuel w = Raise ValueError \/
   get_new_candidate ase fuel w = OutOfFuel) /\
  (forall fuel', fuel <= fuel' ->
     get_new_candidate ase fuel w <> OutOfFuel ->
     get_new_candidate ase fuel' w = get_new_candidate ase fuel w).
Proof.
  intros WF. split.
  - destruct (get_new_candidate ase fuel w) as [l w'|e|] eqn:E.
    + left. exists l, w'. split; [reflexivity|].
      exact (returned_layout ase fuel w l w' WF E).
    + right. apply get_new_candidate_raise in E; [|exact WF].
      destruct E as [->| ->]; auto.
    + right. right. right. reflexivity.
  - intros fuel' L H. apply get_new_candidate_settled; assumption.
Qed.

End WithImports.

Lemma call_outcomes_witness :
  exists l w',
    get_new_candidate ase0 1 (world_of gen_fixed) = Ret l w' /\
    map number_tag (atoms_list (objs w' l)) = [(1, 0)].
Proof.
  destruct fixed_returns as (l0 & w0 & E0).
  destruct (proj1 (call_outcomes ase0 1 (world_of gen_fixed)
                     (wf_world_of gen_fixed 1 eq_refl)))
    as [(l & w' & E & L)|[E|[E|E]]].
  - exists l, w'. split; [exact E|exact L].
  - rewrite E0 in E. discriminate.
  - rewrite E0 in E. discriminate.
  - rewrite E0 in E. discriminate.
Defined.

(** The constructor takes a negative volume, a table without the entry
    of the pair (H, H) and a negative weight. *)
Lemma init_accepts :
  exists w',
    __init__ ase0 [(BName hydrogen, 1)] (BlDict []) (-1)%R None None
         [([1%positive], (-1)%R)] world_before = Ret tt w'.
Proof.
  unfold __init__.
  destruct (normalize_outcome [([1%positive], (-1)%R)] world_before)
    as [[(_ & D) _]|[_ (s' & E)]].
  { unfold Rsum in D. cbn in D. lra. }
  rewrite (bind_eq _ E).
  destruct (resolve_blocks_outcome ase0 [(BName hydrogen, 1)] world_before)
    as [[X _]|[_ (r & w2 & E2)]].
  { inversion X as [x r U|x r U]; subst.
    - destruct U as (U & _). cbn in U. discriminate.
    - inversion U. }
  rewrite (bind_eq _ E2). destruct r as [bs numbers].
  eexists. reflexivity.
Qed.

(** C5: the cell sampled for volume 1 from draws that are all 1/2 does
    not have volume 1 once it is rescaled. *)
Theorem sampled_volume_off :
  exists c full w',
    make_cell 1 (self_volume gen_sampled / INR 1)%R (1, 1, 1)%positive
              (world_of gen_sampled) = Ret (c, full) w' /\
    Rabs (det c) <> (self_volume gen_sampled / INR 1)%R.
Proof.
  destruct (sampled_cell_returns (world_of gen_sampled) (rng_only_refl _))
    as (full & w3 & E).
  exists (cubic half_side), full, w3. split; [exact E|].
  cbn [self_volume gen_sampled]. change (INR 1) with 1%R.
  replace (1 / 1)%R with 1%R by field.
  rewrite <- rescale_half. intros H.
  apply rescale_exact in H; [|lra|].
  - rewrite det_cubic, Rabs_pos_eq in H; lra.
  - rewrite det_cubic, Rabs_pos_eq; lra.
Qed.

End Outcomes.

Export Outcomes.

(* ================================================================== *)
(** ** The constructor, part by part *)

Module Construction.

Open Scope nat_scope.

Lemma Rsum_scaled (k : R) (l : list R) :
  Rsum (map (fun x => x * 1 / k)%R l) = (Rsum l / k)%R.
Proof.
  unfold Rsum. induction l as [|x r IH]; simpl.
  - unfold Rdiv. ring.
  - rewrite IH. unfold Rdiv. ring.
Qed.

Section WithImports.
Variable ase : Imports.

Lemma init_returns blocks blmin volume cellbounds cell splits w :
  ~ degenerate splits ->
  ~ Exists (fun bc => unresolved ase (fst bc)) blocks ->
  exists w', __init__ ase blocks blmin volume cellbounds cell splits w = Ret tt w'.
Proof.
  intros D X. unfold __init__.
  destruct (normalize_outcome splits w) as [[D' _]|[_ (s' & E)]]; [contradiction|].
  rewrite (bind_eq _ E).
  destruct (resolve_blocks_outcome ase blocks w) as [[X' _]|[_ (r & w2 & E2)]];
    [contradiction|].
  rewrite (bind_eq _ E2). destruct r as [bs numbers]. eexists. reflexivity.
Qed.

Lemma init_inv blocks blmin volume cellbounds cell splits w w' :
  __init__ ase blocks blmin volume cellbounds cell splits w = Ret tt w' ->
  exists splits' bs numbers w1,
    normalize splits w = Ret splits' w /\
    resolve_blocks ase blocks w = Ret (bs, numbers) w1 /\
    self w' = mkGen volume cellbounds cell splits' bs
                (match blmin with
                 | BlDict d => d
                 | BlNumber r =>
                     closest_distances_generator ase (nodup Nat.eq_dec numbers) r
                 end) /\
    objs w' = objs w1 /\ next w' = next w1.
Proof.
  intros H. unfold __init__ in H.
  apply bind_ret in H. destruct H as (s' & w0 & Hn & H).
  assert (w0 = w).
  { unfold normalize in Hn. destruct splits; [inversion Hn; reflexivity|].
    destruct (Req_dec_T _ _); [discriminate|]. inversion Hn. reflexivity. }
  subst w0.
  apply bind_ret in H. destruct H as ([bs numbers] & w1 & Hr & H).
  unfold set_self in H. inversion H; subst; clear H.
  exists s', bs, numbers, w1. cbn [self objs next]. auto.
Qed.

Lemma normalize_inv splits w s' w0 :
  normalize splits w = Ret s' w0 ->
  s' = map (fun kv => (fst kv, (snd kv * 1 / Rsum (map snd splits))%R)) splits /\
  (splits <> [] -> Rsum (map snd splits) <> 0%R).
Proof.
  unfold normalize. destruct splits as [|kv rest] eqn:E.
  - intros H. inversion H. split; [reflexivity|]. intros N. contradiction.
  - rewrite <- E. destruct (Req_dec_T _ _) as [|NZ]; [discriminate|].
    intros H. inversion H. split; [reflexivity|]. intros _. exact NZ.
Qed.

(** X1: the constructor divides every weight of [splits] by their sum:
    the keys stay as they are, in their order, and the weights stored
    sum to 1. *)
Theorem init_splits_normalized blocks blmin volume cellbounds cell splits w w' :
  __init__ ase blocks blmin volume cellbounds cell splits w = Ret tt w' ->
  map fst (self_splits (self w')) = map fst splits /\
  map snd (self_splits (self w'))
    = map (fun kv => snd kv * 1 / Rsum (map snd splits))%R splits /\
  (splits <> [] -> Rsum (map snd (self_splits (self w'))) = 1%R).
Proof.
  intros H. apply init_inv in H.
  destruct H as (s' & bs & numbers & w1 & Hn & _ & Hs & _).
  apply normalize_inv in Hn. destruct Hn as (-> & NZ).
  rewrite Hs. cbn [self_splits]. rewrite !map_map. cbn [fst snd].
  split; [reflexivity|]. split; [reflexivity|].
  intros N. specialize (NZ N).
  rewrite <- (map_map snd (fun x => x * 1 / Rsum (map snd splits))%R).
  rewrite Rsum_scaled. field. exact NZ.
Qed.

Lemma resolve_blocks_resolved blocks : forall w bs numbers w',
  (forall l c, In (BAtoms l, c) blocks -> l < next w) ->
  resolve_blocks ase blocks w = Ret (bs, numbers) w' ->
  next w <= next w' /\
  (forall x, x < next w -> objs w' x = objs w x) /\
  Forall2 (resolved ase (next w) (objs w')) blocks bs /\
  (forall b c, In (b, c) bs -> b < next w') /\
  numbers = flat_map (fun lc => get_atomic_numbers (objs w' (fst lc))) bs.
Proof.
  induction blocks as [|[b c] rest IH]; intros w bs numbers w' G H.
  - inversion H; subst. split; [lia|]. split; [auto|]. split; [constructor|].
    split; [intros b c []|reflexivity].
  - cbn [resolve_blocks] in H.
    apply bind_ret in H. destruct H as (l & w1 & Hr & H).
    rewrite bind_load in H.
    apply bind_ret in H. destruct H as ([bs' numbers'] & w2 & Hrest & H).
    inversion H; subst; clear H.
    assert (R1 : next w <= next w1 /\ l < next w1 /\
                 (forall x, x < next w -> objs w1 x = objs w x) /\
                 resolved ase (next w) (objs w1) (b, c) (l, c)).
    { destruct b as [l0|s]; cbn [resolve] in Hr.
      - inversion Hr; subst. split; [lia|].
        split; [apply (G l c); left; reflexivity|].
        split; [auto|]. split; reflexivity.
      - unfold resolved. cbn [fst snd].
        destruct (atomic_numbers ase s) as [z|].
        + apply alloc_inv in Hr. destruct Hr as [_ A2 A3 A4 A5].
          split; [lia|]. split; [lia|].
          split; [intros x Hx; apply A5; lia|].
          split; [reflexivity|]. split; [lia|exact A4].
        + destruct (molecule ase s) as [a|]; [|discriminate].
          apply alloc_inv in Hr. destruct Hr as [_ A2 A3 A4 A5].
          split; [lia|]. split; [lia|].
          split; [intros x Hx; apply A5; lia|].
          split; [reflexivity|]. split; [lia|]. rewrite A4. reflexivity. }
    destruct R1 as (N1 & L1 & F1 & Res1).
    apply IH in Hrest.
    2:{ intros l0 c0 Hin. specialize (G l0 c0 (or_intror Hin)). lia. }
    destruct Hrest as (N2 & F2 & Res2 & B2 & Nu2).
    split; [lia|].
    split; [intros x Hx; rewrite F2 by lia; apply F1; exact Hx|].
    split.
    { constructor.
      - destruct Res1 as (E1 & E2). split; [exact E1|].
        cbn [fst snd] in *. destruct b as [l0|s]; [exact E2|].
        destruct E2 as (E2 & E3). split; [exact E2|].
        rewrite (F2 l L1). exact E3.
      - eapply Forall2_impl; [|exact Res2].
        intros [b0 c0] [l0 c0'] (E1 & E2). split; [exact E1|].
        cbn [fst snd] in *. destruct b0 as [l1|s]; [exact E2|].
        destruct E2 as (E2 & E3). split; [lia|exact E3]. }
    split.
    { intros b0 c0 [E|Hin]; [inversion E; subst; lia|]. eapply B2; eauto. }
    cbn [flat_map fst]. rewrite (F2 l L1), Nu2. reflexivity.
Qed.

(** X2: [self.blocks] has one entry for each block argument, in the same
    order and with the same count.  A block given as an [Atoms] object is
    kept by reference, the very same object; a block given by a name is a
    new object, [Atoms(name)] when the name is a chemical symbol, even if
    a molecule has that name too, and [molecule(name)] otherwise.  The
    objects that existed before are not changed, and every block of the
    new generator is an object of the store. *)
Theorem init_blocks blocks blmin volume cellbounds cell splits w w' :
  (forall l c, In (BAtoms l, c) blocks -> l < next w) ->
  __init__ ase blocks blmin volume cellbounds cell splits w = Ret tt w' ->
  Forall2 (resolved ase (next w) (objs w')) blocks (self_blocks (self w')) /\
  map snd (self_blocks (self w')) = map snd blocks /\
  (forall x, x < next w -> objs w' x = objs w x) /\
  (forall b c, In (b, c) (self_blocks (self w')) -> b < next w').
Proof.
  intros G H. apply init_inv in H.
  destruct H as (s' & bs & numbers & w1 & _ & Hr & Hs & Ho & Hn).
  apply resolve_blocks_resolved in Hr; [|exact G].
  destruct Hr as (N1 & F1 & Res & B1 & _).
  rewrite Hs, Ho, Hn. cbn [self_blocks].
  split; [exact Res|]. split; [|split; [exact F1|exact B1]].
  clear -Res. induction Res as [|bc lc l m (E & _) _ IH]; [reflexivity|].
  cbn [map]. rewrite E, IH. reflexivity.
Qed.

(** X3: when [blmin] is a number, the table is made by
    [closest_distances_generator] from that number and from the atomic
    numbers of the blocks, each of them once: every atomic number of an
    atom of a block, and no other. *)
Theorem init_table_numbers blocks ratio volume cellbounds cell splits w w' :
  (forall l c, In (BAtoms l, c) blocks -> l < next w) ->
  __init__ ase blocks (BlNumber ratio) volume cellbounds cell splits w = Ret tt w' ->
  exists numbers,
    self_blmin (self w') = closest_distances_generator ase numbers ratio /\
    NoDup numbers /\
    forall z, In z numbers <->
      exists b c, In (b, c) (self_blocks (self w')) /\
                  In z (get_atomic_numbers (objs w' b)).
Proof.
  intros G H. apply init_inv in H.
  destruct H as (s' & bs & numbers & w1 & _ & Hr & Hs & Ho & Hn).
  apply resolve_blocks_resolved in Hr; [|exact G].
  destruct Hr as (_ & _ & _ & _ & Nu).
  exists (nodup Nat.eq_dec numbers).
  rewrite Hs, Ho. cbn [self_blmin self_blocks].
  split; [reflexivity|]. split; [apply NoDup_nodup|].
  intros z. rewrite nodup_In, Nu, in_flat_map. split.
  - intros ([b c] & Hin & Hz). exists b, c. auto.
  - intros (b & c & Hin & Hz). exists (b, c). auto.
Qed.

End WithImports.

Lemma example_init_returns :
  exists w',
    __init__ ase0 [(BAtoms 0, 3); (BName hydrogen, 2)] (BlNumber (7 / 10)) 40 None None
         [([2%positive], 1%R); ([1%positive], 3%R)] world_caller = Ret tt w'.
Proof.
  apply init_returns.
  - intros (_ & D). unfold Rsum in D. cbn in D. lra.
  - intros X. inversion X as [x r U|x r U]; subst; [exact U|].
    inversion U as [x' r' U'|x' r' U']; subst.
    + destruct U' as (U' & _). cbn in U'. discriminate.
    + inversion U'.
Qed.

Lemma init_splits_normalized_witness :
  exists w',
    __init__ ase0 [(BAtoms 0, 3); (BName hydrogen, 2)] (BlNumber (7 / 10)) 40 None None
         [([2%positive], 1%R); ([1%positive], 3%R)] world_caller = Ret tt w' /\
    map snd (self_splits (self w')) = [(1 * 1 / (1 + (3 + 0)))%R; (3 * 1 / (1 + (3 + 0)))%R].
Proof.
  destruct example_init_returns as (w' & E).
  exists w'. split; [exact E|].
  exact (proj1 (proj2 (init_splits_normalized ase0 _ _ _ _ _ _ _ _ E))).
Defined.

Lemma caller_blocks_known l (c : nat) :
  In (BAtoms l, c) [(BAtoms 0, 3); (BName hydrogen, 2)] -> l < next world_caller.
Proof.
  intros [E|[E|[]]]; inversion E; subst. cbn. lia.
Qed.

Lemma init_blocks_witness :
  exists w',
    __init__ ase0 [(BAtoms 0, 3); (BName hydrogen, 2)] (BlNumber (7 / 10)) 40 None None
         [([2%positive], 1%R); ([1%positive], 3%R)] world_caller = Ret tt w' /\
    map snd (self_blocks (self w')) = [3; 2].
Proof.
  destruct example_init_returns as (w' & E).
  exists w'. split; [exact E|].
  exact (proj1 (proj2 (init_blocks ase0 _ _ _ _ _ _ _ _ caller_blocks_known E))).
Defined.

Lemma init_table_numbers_witness :
  exists w' numbers,
    __init__ ase0 [(BAtoms 0, 3); (BName hydrogen, 2)] (BlNumber (7 / 10)) 40 None None
         [([2%positive], 1%R); ([1%positive], 3%R)] world_caller = Ret tt w' /\
    self_blmin (self w') = map (fun p => (p, (7 / 10)%R)) (list_prod numbers numbers) /\
    NoDup numbers.
Proof.
  destruct example_init_returns as (w' & E).
  destruct (init_table_numbers ase0 _ _ _ _ _ _ _ _ caller_blocks_known E)
    as (numbers & T & ND & _).
  exists w', numbers. split; [exact E|]. split; [exact T|exact ND].
Defined.

End Construction.

Export Construction.

(* ================================================================== *)
(** ** The split taken *)

Module Splitting.

Open Scope nat_scope.

Lemma choose_split_over pre s p post r : forall c d,
  (forall k, 1 <= k <= length pre ->
     ~ (c + Rsum (map snd (firstn k pre)) > r)%R) ->
  (c + Rsum (map snd pre) + p > r)%R ->
  choose_split (pre ++ (s, p) :: post) c r d = Some s.
Proof.
  induction pre as [|[s0 p0] pre IH]; intros c d Hle Hgt.
  - cbn [app choose_split]. unfold Rsum in Hgt. cbn in Hgt.
    destruct (Rgt_dec (c + p) r) as [_|N]; [reflexivity|]. exfalso. apply N. lra.
  - cbn [app choose_split].
    destruct (Rgt_dec (c + p0) r) as [G|_].
    + exfalso. apply (Hle 1); [cbn [length]; lia|].
      unfold Rsum. cbn. lra.
    + apply IH.
      * intros k Hk. specialize (Hle (S k)). cbn [length firstn map] in Hle.
        unfold Rsum in *. cbn [fold_right snd] in Hle.
        intros G. apply Hle; [lia|]. lra.
      * unfold Rsum in *. cbn [map fold_right snd] in Hgt. lra.
Qed.

Lemma choose_split_under items r : forall c d,
  (forall k, 1 <= k <= length items ->
     ~ (c + Rsum (map snd (firstn k items)) > r)%R) ->
  choose_split items c r d
  = match items with
    | [] => d
    | _ :: _ => Some (fst (last items ([], 0%R)))
    end.
Proof.
  induction items as [|[s0 p0] rest IH]; intros c d Hle; [reflexivity|].
  cbn [choose_split].
  destruct (Rgt_dec (c + p0) r) as [G|_].
  - exfalso. apply (Hle 1); [cbn [length]; lia|]. unfold Rsum. cbn. lra.
  - rewrite IH.
    + destruct rest as [|kv rest']; reflexivity.
    + intros k Hk. specialize (Hle (S k)). cbn [length firstn map] in Hle.
      unfold Rsum in *. cbn [fold_right snd] in Hle.
      intros G. apply Hle; [lia|]. lra.
Qed.

(** X4: the loop over [self.splits] stops at the first split whose
    cumulated probability is above the number drawn, and that split is
    taken. *)
Theorem choose_split_first_over pre s p post r :
  (forall k, 1 <= k <= length pre ->
     (Rsum (map snd (firstn k pre)) <= r)%R) ->
  (Rsum (map snd pre) + p > r)%R ->
  choose_split (pre ++ (s, p) :: post) 0 r None = Some s.
Proof.
  intros Hle Hgt. apply choose_split_over.
  - intros k Hk G. specialize (Hle k Hk). lra.
  - lra.
Qed.

(** X5: when no cumulated probability is above the number drawn (the
    weights are not positive, or they sum to less than the number drawn),
    the loop runs to its end and the last split of [self.splits] is
    taken; with no split at all, none is. *)
Theorem choose_split_falls_through items r :
  (forall k, 1 <= k <= length items ->
     (Rsum (map snd (firstn k items)) <= r)%R) ->
  choose_split items 0 r None
  = match items with
    | [] => None
    | _ :: _ => Some (fst (last items ([], 0%R)))
    end.
Proof.
  intros Hle. apply choose_split_under.
  intros k Hk G. specialize (Hle k Hk). lra.
Qed.

Lemma choose_split_first_over_witness :
  choose_split ([([2%positive], (1 / 4)%R)] ++ ([1%positive], (3 / 4)%R) :: [])
               0 (5 / 10) None
  = Some [1%positive].
Proof.
  apply choose_split_first_over.
  - intros k Hk. cbn [length] in Hk. assert (k = 1) by lia. subst k.
    unfold Rsum. cbn. lra.
  - unfold Rsum. cbn. lra.
Defined.

Lemma choose_split_falls_through_witness :
  choose_split [([2%positive], (-1)%R); ([3%positive], (-2)%R)] 0 (5 / 10) None
  = Some [3%positive].
Proof.
  apply (choose_split_falls_through
           [([2%positive], (-1)%R); ([3%positive], (-2)%R)] (5 / 10)).
  intros k Hk. cbn [length] in Hk.
  assert (k = 1 \/ k = 2) as [-> | ->] by lia; unfold Rsum; cbn; lra.
Defined.

Lemma product_set_axis rep d f :
  d < 3 -> axis rep d = 1%positive ->
  product (set_axis rep d f) = (product rep * f)%positive.
Proof.
  destruct rep as [[a b] c]. intros Hd Ha.
  destruct d as [|[|[|d]]]; [| | |lia]; cbn [axis] in Ha; subst;
    cbn [set_axis product]; lia.
Qed.

Lemma axis_set_axis rep d f d' :
  d' <> d -> axis (set_axis rep d f) d' = axis rep d'.
Proof.
  destruct rep as [[a b] c]. intros N.
  destruct d as [|[|[|d]]], d' as [|[|[|d']]]; try reflexivity; contradiction.
Qed.

Lemma product_fold dirs : forall split rep,
  NoDup dirs -> (forall d, In d dirs -> d < 3) ->
  length dirs = length split ->
  (forall d, In d dirs -> axis rep d = 1%positive) ->
  product (fold_left (fun rep ds => set_axis rep (fst ds) (snd ds))
                     (combine dirs split) rep)
  = (product rep * fold_right Pos.mul 1 split)%positive.
Proof.
  induction dirs as [|d dirs IH]; intros split rep ND B L A.
  - destruct split; [|discriminate]. cbn. lia.
  - destruct split as [|f split]; [discriminate|].
    cbn [combine fold_left fst snd fold_right].
    inversion ND as [|x l Hx ND']; subst.
    rewrite IH.
    + rewrite product_set_axis; [lia|apply B; left; reflexivity|apply A; left; reflexivity].
    + exact ND'.
    + intros d' Hd'. apply B. right. exact Hd'.
    + cbn [length] in L. lia.
    + intros d' Hd'. rewrite axis_set_axis.
      * apply A. right. exact Hd'.
      * intros E. subst d'. contradiction.
Qed.

(** X6: whatever directions [sample] gives for the factors of the split,
    the number of subcells is the product of the factors of the split. *)
Theorem nparts_is_product split w dirs w' :
  sample_range 3 (length split) w = Ret dirs w' ->
  product (assign_factors dirs split) = fold_right Pos.mul 1%positive split.
Proof.
  intros H.
  pose proof (sample_range_inv _ _ _ _ _ H) as (_ & L).
  destruct (sample_range_spec 3 (length split) w L)
    as (dirs0 & w0 & E & Ld & Bd & ND & _).
  rewrite E in H. inversion H; subst dirs0 w0; clear H.
  unfold assign_factors. rewrite product_fold; auto.
  intros d Hd. apply Bd in Hd. destruct d as [|[|[|d]]]; try reflexivity; lia.
Qed.

Lemma nparts_is_product_witness :
  exists dirs w',
    sample_range 3 2 (world_of gen_fixed) = Ret dirs w' /\
    product (assign_factors dirs [2%positive; 3%positive]) = 6%positive.
Proof.
  destruct (sample_range_spec 3 2 (world_of gen_fixed) ltac:(lia))
    as (dirs & w' & E & _).
  exists dirs, w'. split; [exact E|].
  exact (nparts_is_product [2%positive; 3%positive] _ _ _ E).
Defined.

End Splitting.

Export Splitting.

(* ================================================================== *)
(** ** Why a call raises *)

Module Failures.

Open Scope nat_scope.

Lemma choose_split_some items r : forall c s,
  choose_split items c r (Some s) <> None.
Proof.
  induction items as [|[s0 p0] rest IH]; intros c s; cbn [choose_split].
  - discriminate.
  - destruct (Rgt_dec (c + p0) r); [discriminate|apply IH].
Qed.

Lemma choose_split_none items r c :
  choose_split items c r None = None -> items = [].
Proof.
  destruct items as [|[s0 p0] rest]; [reflexivity|].
  cbn [choose_split]. destruct (Rgt_dec (c + p0) r); [discriminate|].
  intros H. exfalso. revert H. apply choose_split_some.
Qed.

Section WithImports.
Variable ase : Imports.


End WithImports.


End Failures.

Export Failures.

(* ================================================================== *)
(** ** The shape of the cells *)

Module CellShape.

Open Scope nat_scope.

Lemma pow033_nonneg x : (0 <= pow033 x)%R.
Proof.
  unfold pow033. destruct (Rlt_dec 0 x); [|lra].
  unfold Rpower. left. apply exp_pos.
Qed.

Lemma tilted_raw tv r :
  (forall j, 0 <= r j <= 1)%R -> tilted (rescale tv (raw_cell tv r)).
Proof.
  intros Hr. unfold rescale.
  set (s := pow033 _). assert (Hs : (0 <= s)%R) by apply pow033_nonneg.
  clearbody s. unfold raw_cell.
  pose proof (pow033_nonneg tv) as Hl. set (l := pow033 tv) in *. clearbody l.
  pose proof (Hr 0) as H0. pose proof (Hr 1) as H1. pose proof (Hr 2) as H2.
  pose proof (Hr 3) as H3. pose proof (Hr 4) as H4. pose proof (Hr 5) as H5.
  set (r0 := r 0) in *. set (r1 := r 1) in *. set (r2 := r 2) in *.
  set (r3 := r 3) in *. set (r4 := r 4) in *. set (r5 := r 5) in *.
  clearbody r0 r1 r2 r3 r4 r5.
  cbn [mscale vscale tilted].
  assert (A : (0 <= s * (r0 * l))%R) by (apply Rmult_le_pos; [|apply Rmult_le_pos]; lra).
  assert (B : (0 <= s * (r2 * l))%R) by (apply Rmult_le_pos; [|apply Rmult_le_pos]; lra).
  assert (C : (0 <= s * (r5 * l))%R) by (apply Rmult_le_pos; [|apply Rmult_le_pos]; lra).
  assert (T : forall t x, (0 <= t <= 1)%R -> (0 <= x)%R ->
                (Rabs (s * ((t - 5 / 10) * x)) <= s * x / 2)%R).
  { intros t x Ht Hx.
    assert (P : (0 <= s * x)%R) by (apply Rmult_le_pos; lra).
    replace (s * ((t - 5 / 10) * x))%R with ((t - 5 / 10) * (s * x))%R by ring.
    apply Rabs_le. split; nra. }
  split; [repeat split; ring|]. split; [repeat split; assumption|].
  assert (X0 : (0 <= r0 * l)%R) by (apply Rmult_le_pos; lra).
  assert (X2 : (0 <= r2 * l)%R) by (apply Rmult_le_pos; lra).
  repeat split; apply T; assumption.
Qed.

Lemma sample_cell_drawn tv rep fuel : forall w c full w',
  sample_cell fuel tv rep w = Ret (c, full) w' ->
  exists k, c = rescale tv (raw_cell tv (fun j => floats w (k + j))).
Proof.
  induction fuel as [|fuel IH]; intros w c full w' H; [discriminate|].
  cbn [sample_cell] in H. rewrite bind_get_self in H.
  destruct (Rmax_list _) as [m|] eqn:Em; [|discriminate].
  apply bind_ret in H. destruct H as (c1 & w1 & Hs & H).
  apply sample_once_spec in Hs. destruct Hs as (Ec & RO & _ & IP).
  destruct (is_valid _ m c1 _) eqn:V.
  - inversion H; subst; clear H. exists (fpos w). reflexivity.
  - apply IH in H. destruct H as (k & H). exists k.
    rewrite (ro_floats _ _ RO) in H. exact H.
Qed.

Lemma det_mul_rows rep c :
  det (mul_rows (to_nat3 rep) c)
  = (INR (Pos.to_nat (product rep)) * det c)%R.
Proof.
  destruct rep as [[n0 n1] n2]. destruct c as [[[[a b] c] [[d e] f]] [[g h] i]].
  unfold to_nat3, product, mul_rows, vscale, det.
  rewrite !Pos2Nat.inj_mul, !mult_INR. ring.
Qed.

Section WithImports.
Variable ase : Imports.

(** The cell of a structure returned is the full cell that [make_cell]
    gave, for the [repeat] drawn. *)
Lemma call_cell fuel w l w' :
  get_new_candidate ase fuel w = Ret l w' -> wf w ->
  exists rep w2 w3 c,
    rng_only w w2 /\
    make_cell fuel (self_volume (self w) / INR (Pos.to_nat (product rep)))%R
              rep w2 = Ret (c, cell (objs w' l)) w3.
Proof.
  intros H WF. unfold get_new_candidate in H.
  rewrite bind_get_self in H.
  apply bind_ret in H. destruct H as (r & w1 & Hr & H).
  apply random_inv in Hr.
  destruct (choose_split _ _ _ _) as [split|]; [|discriminate].
  apply bind_ret in H. destruct H as (directions & w2 & Hd & H).
  apply sample_range_inv in Hd. destruct Hd as (RO2 & _).
  set (rep := assign_factors directions split) in *.
  apply bind_ret in H. destruct H as ([c full] & w3 & Hc & H).
  pose proof (make_cell_spec _ _ _ _ _ _ _ Hc) as (RO3 & _).
  assert (RO12 : rng_only w w2) by eauto using rng_only_trans.
  assert (RO13 : rng_only w w3) by eauto using rng_only_trans.
  destruct (expand 0 (Pos.to_nat (product rep)) (self_blocks (self w)))
    as [[blocksE surplus] indicesE] eqn:EE.
  apply bind_ret in H. destruct H as (order & w4 & Ho & H).
  apply permutation_inv in Ho. destruct Ho as (PO & RO4).
  assert (RO14 : rng_only w w4) by eauto using rng_only_trans.
  apply bind_ret in H. destruct H as (cand & w5 & Hal & H).
  apply alloc_inv in Hal. destruct Hal as [A1 A2 A3 A4 A5].
  apply bind_ret in H. destruct H as (cand_list & w6 & Hp & H).
  pose (t0 := mkTrace rep c full order [] (Atoms_empty c pbc3) []).
  assert (TB : t_blocks (self w) t0 = map (fun i => nth i blocksE 0) order).
  { unfold t_blocks, t_blocksE, t_expand, t_nparts. cbn. rewrite EE. reflexivity. }
  assert (TN : t_N (self w) t0 = length blocksE).
  { unfold t_N, t_blocksE, t_expand, t_nparts. cbn. rewrite EE. reflexivity. }
  assert (N4 : next w4 = next w) by (apply (ro_next _ _ RO14)).
  assert (S4 : self w4 = self w) by (apply (ro_self _ _ RO14)).
  assert (BB : forall b, In b (map (fun i => nth i blocksE 0) order) ->
                 b < next w).
  { intros b Hb. rewrite <- TB in Hb.
    apply blocks_are_blocks in Hb.
    - destruct Hb as (c0 & Hb). eapply WF; eauto.
    - rewrite TN. exact PO. }
  apply place_all_spec in Hp; [|lia|].
  2:{ intros b Hb. apply BB in Hb. lia. }
  destruct Hp as (P1 & P2 & insts & P3 & P4).
  pose proof (ev_next _ _ P1) as N6.
  assert (S6 : self w6 = self w).
  { rewrite (ev_self _ _ P1), (ev_self _ _ A1). exact S4. }
  apply rebuild_spec in H; [|lia|].
  2:{ intros b c0 Hin. rewrite S6 in Hin. apply WF in Hin. lia. }
  cbn zeta in H. destruct H as (_ & _ & _ & _ & keptss & _ & _ & R7 & _).
  exists rep, w2, w3, c. split; [exact RO12|].
  rewrite R7. exact Hc.
Qed.


(** X9: the full cell is the subcell repeated: row [i] of the full cell
    is [repeat[i]] times row [i] of the subcell, with a fixed cell (where
    the subcell comes from a division) as with a sampled one, and the
    determinant of the full cell is [nparts] times that of the subcell. *)
Theorem full_cell_of_subcell fuel tv rep w c full w' :
  make_cell fuel tv rep w = Ret (c, full) w' ->
  full = mul_rows (to_nat3 rep) c /\
  det full = (INR (Pos.to_nat (product rep)) * det c)%R.
Proof.
  intros H.
  pose proof (make_cell_spec _ _ _ _ _ _ _ H) as (_ & _ & F & _).
  split; [exact F|]. rewrite F. apply det_mul_rows.
Qed.

End WithImports.


Lemma full_cell_of_subcell_witness :
  make_cell 0 64%R (2, 1, 1)%positive (world_of gen_split)
    = Ret (div_rows (cubic 8) (2%nat, 1%nat, 1%nat), cubic 8) (world_of gen_split) /\
  det (cubic 8) = (INR 2 * det (div_rows (cubic 8) (2%nat, 1%nat, 1%nat)))%R.
Proof.
  split; [reflexivity|].
  exact (proj2 (full_cell_of_subcell 0 64%R (2, 1, 1)%positive (world_of gen_split)
                  (div_rows (cubic 8) (2%nat, 1%nat, 1%nat)) (cubic 8) (world_of gen_split)
                  eq_refl)).
Defined.

End CellShape.

Export CellShape.

(* ================================================================== *)
(** ** Expanding, shuffling and placing *)

Module Placement.

Open Scope nat_scope.

Ltac vec3 := apply (f_equal2 pair); [apply (f_equal2 pair)|]; ring.

Lemma surplus_of_ceil n b c : 0 < n -> surplus_of n (b, c) (n * ceil_div c n - c).
Proof.
  intros Hn. pose proof (ceil_div_ge c n Hn) as G.
  pose proof (ceil_div_surplus c n Hn) as S.
  split; [exact S|]. cbn [snd]. split; [lia|]. split.
  - intros Z. exists (ceil_div c n). lia.
  - intros (k & ->).
    assert (E : ceil_div (k * n) n = k).
    { unfold ceil_div. replace (k * n + n - 1) with (n - 1 + k * n) by lia.
      rewrite Nat.div_add by lia. rewrite Nat.div_small; lia. }
    rewrite E. lia.
Qed.

(** X10: the surplus of every block is smaller than [nparts], it is the
    number of instances that [nparts] subcells of [count_part] instances
    hold beyond [count], and it is zero exactly when [nparts] divides
    [count]; the list of instances to place has the sum of the
    [count_part]s as its length, as the list of their block indices. *)
Theorem expand_surplus_small nparts bs blocks surplus indices :
  0 < nparts ->
  expand 0 nparts bs = (blocks, surplus, indices) ->
  Forall2 (surplus_of nparts) bs surplus /\
  length blocks = list_sum (map (fun bc => ceil_div (snd bc) nparts) bs) /\
  length indices = length blocks.
Proof.
  intros Hn. generalize 0 as i0. revert blocks surplus indices.
  induction bs as [|[b c] rest IH]; intros blocks surplus indices i0 H.
  - inversion H; subst. repeat split; constructor.
  - cbn [expand] in H.
    destruct (expand (S i0) nparts rest) as [[B Su] I] eqn:E.
    inversion H; subst; clear H.
    destruct (IH _ _ _ _ E) as (F & L & LI).
    split; [|split].
    + constructor; [apply surplus_of_ceil; exact Hn|exact F].
    + rewrite length_app, repeat_length, L. reflexivity.
    + rewrite !length_app, !repeat_length, LI. reflexivity.
Qed.

Lemma expand_surplus_small_witness :
  Forall2 (surplus_of 3) [(0, 7); (1, 6)] [2; 0] /\
  length (fst (fst (expand 0 3 [(0, 7); (1, 6)]))) = 5.
Proof.
  destruct (expand_surplus_small 3 [(0, 7); (1, 6)]
              [0; 0; 0; 1; 1] [2; 0] [0; 0; 0; 1; 1] ltac:(lia) eq_refl)
    as (F & L & _).
  split; [exact F|exact L].
Defined.

Lemma nth_seq_map_gen {A} (d : A) (l : list A) :
  map (fun i => nth i l d) (seq 0 (length l)) = l.
Proof.
  induction l as [|x r IH]; [reflexivity|].
  simpl. f_equal. rewrite <- seq_shift, map_map. exact IH.
Qed.

Lemma combine_reorder (bl il order : list nat) :
  length bl = length il ->
  (forall o, In o order -> o < length bl) ->
  combine (map (fun i => nth i bl 0) order) (map (fun i => nth i il 0) order)
  = map (fun i => nth i (combine bl il) (0, 0)) order.
Proof.
  intros L B. induction order as [|o r IH]; [reflexivity|].
  cbn [map combine]. rewrite IH by (intros o' Ho'; apply B; right; exact Ho').
  f_equal. symmetry. apply combine_nth. exact L.
Qed.

(** X11: the shuffle puts [blocks] and [indices] in one and the same new
    order: every instance keeps the index of its block, no instance is
    lost or doubled, and nothing but the stream of integers drawn moves
    (the objects, [self] and the floats drawn stay as they are). *)
Theorem shuffle_keeps_pairs (blocks indices : list nat) w order w' :
  length blocks = length indices ->
  shuffle_range (length blocks) w = Ret order w' ->
  Permutation
    (combine (map (fun i => nth i blocks 0) order)
             (map (fun i => nth i indices 0) order))
    (combine blocks indices) /\
  self w' = self w /\ objs w' = objs w /\ next w' = next w /\
  fpos w' = fpos w.
Proof.
  intros L H. unfold shuffle_range in H.
  destruct (permutation_spec (length blocks) w) as (p & w1 & E & P & RO & F).
  rewrite E in H. inversion H; subst p w1; clear H.
  split.
  - rewrite combine_reorder.
    + apply (Permutation_map (fun i => nth i (combine blocks indices) (0, 0))) in P.
      assert (LC : length (combine blocks indices) = length blocks).
      { rewrite length_combine. lia. }
      rewrite <- LC in P. rewrite nth_seq_map_gen in P. exact P.
    + exact L.
    + intros o Ho. apply (Permutation_in _ P) in Ho. apply in_seq in Ho. lia.
  - destruct RO. auto.
Qed.

Lemma shuffle_keeps_pairs_witness :
  exists order w',
    shuffle_range 3 (world_of gen_fixed) = Ret order w' /\
    Permutation
      (combine (map (fun i => nth i [7; 7; 9] 0) order)
               (map (fun i => nth i [0; 0; 1] 0) order))
      [(7, 0); (7, 0); (9, 1)].
Proof.
  destruct (permutation_spec 3 (world_of gen_fixed)) as (p & w1 & E & _).
  exists p, w1. split; [exact E|].
  exact (proj1 (shuffle_keeps_pairs [7; 7; 9] [0; 0; 1] _ _ _ eq_refl E)).
Defined.

Lemma vsum_moved v l :
  vsum (map position (map (move (vadd v)) l))
  = vadd (vscale (INR (length l)) v) (vsum (map position l)).
Proof.
  induction l as [|x r IH].
  - destruct v as [[a b] c]. cbn. vec3.
  - cbn [map length vsum fold_right]. fold (vsum (map position (map (move (vadd v)) r))).
    fold (vsum (map position r)). rewrite IH. rewrite S_INR.
    cbn [move position].
    destruct v as [[a b] c]. destruct (position x) as [[p q] s].
    destruct (vsum (map position r)) as [[t u] z].
    cbn [vadd vscale]. vec3.
Qed.

(** The centre of a block that is not empty moves with the block. *)
Lemma mean_position_translate v a :
  0 < len a -> mean_position (translate v a) = vadd v (mean_position a).
Proof.
  intros H. unfold mean_position, translate, len in *.
  cbn [atoms_list with_atoms]. rewrite vsum_moved, length_map.
  assert (N : INR (length (atoms_list a)) <> 0%R) by (apply not_0_INR; lia).
  set (n := INR (length (atoms_list a))) in *. clearbody n.
  destruct v as [[x y] z].
  destruct (vsum (map position (atoms_list a))) as [[t u] s].
  cbn [vadd vscale vdiv]. apply (f_equal2 pair); [apply (f_equal2 pair)|]; field; exact N.
Qed.

Lemma random_pos_value c w p w' :
  random_pos c w = Ret p w' ->
  p = lattice (floats w (fpos w), floats w (S (fpos w)), floats w (S (S (fpos w)))) c /\
  fpos w' = S (S (S (fpos w))).
Proof.
  unfold random_pos. rewrite !bind_random. unfold ret.
  intros H. inversion H; subst; clear H.
  cbn [floats fpos]. split; [|reflexivity].
  destruct c as [[r0 r1] r2]. cbn [row lattice].
  destruct r0 as [[a b] d]. destruct r1 as [[e f] g]. destruct r2 as [[h i] j].
  cbn [vadd vscale vzero]. vec3.
Qed.

Section WithImports.
Variable ase : Imports.

(** X12: one attempt for a block that is not rotated (a block of one
    atom) moves the copy of the block so that its centre is at the point
    [r0 * cell[0] + r1 * cell[1] + r2 * cell[2]], with [r0], [r1], [r2]
    the next three numbers drawn; the attempt is a new object and [cand]
    stays as it was, so that a refused attempt leaves no trace in it. *)
Theorem try_position_centre cand atoms cell w attempt w' :
  cand <> atoms -> cand < next w -> atoms < next w ->
  0 < len (objs w atoms) ->
  try_position ase cand atoms false cell w = Ret attempt w' ->
  mean_position (objs w' atoms)
    = lattice (floats w (fpos w), floats w (S (fpos w)),
               floats w (S (S (fpos w)))) cell /\
  objs w' cand = objs w cand /\
  attempt = next w /\
  fpos w' = S (S (S (fpos w))).
Proof.
  intros Hne Hc Ha Hl H.
  unfold try_position, random_pos, add in H.
  autorewrite with run in H. unfold ret in H.
  inversion H; subst attempt w'; clear H.
  cbn [objs fpos next floats].
  rewrite !(upd_other _ (next w)) by lia.
  rewrite upd_same.
  split; [|split; [|split]]; try reflexivity.
  - rewrite mean_position_translate by exact Hl.
    destruct cell as [[r0 r1] r2]. cbn [row lattice].
    destruct r0 as [[a b] d]. destruct r1 as [[e f] g]. destruct r2 as [[h i] j].
    destruct (mean_position (objs w atoms)) as [[t u] s].
    cbn [vsub vadd vscale vzero]. vec3.
  - apply upd_other. exact Hne.
Qed.

End WithImports.

Lemma try_position_centre_witness :
  exists attempt w',
    try_position ase0 0 1 false (cubic 4) world_placing = Ret attempt w' /\
    mean_position (objs w' 1)
      = lattice (5 / 10, 5 / 10, 5 / 10)%R (cubic 4) /\
    objs w' 0 = Atoms_symbol 1.
Proof.
  destruct (try_position_total ase0 0 1 false (cubic 4) world_placing)
    as (a & w' & E). exists a, w'. split; [exact E|].
  destruct (try_position_centre ase0 0 1 (cubic 4) world_placing a w'
              ltac:(lia) ltac:(cbn; lia) ltac:(cbn; lia) ltac:(cbn; lia) E)
    as (C & K & _).
  split; [exact C|exact K].
Defined.

End Placement.

Export Placement.

(* ================================================================== *)
(** ** From the constructor to the structure *)

Module Whole.

Open Scope nat_scope.

Lemma numbers_block_groups nums : forall c tc,
  map fst (block_groups nums tc c) = concat (repeat nums c).
Proof.
  induction c as [|c IH]; intros tc; [reflexivity|].
  cbn [block_groups repeat concat]. rewrite map_app, IH, map_map. cbn [fst].
  rewrite map_id. reflexivity.
Qed.

Lemma numbers_layout h bs : forall tc,
  map fst (layout h tc bs)
  = flat_map (fun bc => concat (repeat (get_atomic_numbers (h (fst bc))) (snd bc))) bs.
Proof.
  induction bs as [|[b c] r IH]; intros tc; [reflexivity|].
  cbn [layout flat_map fst snd]. rewrite map_app, numbers_block_groups, IH.
  reflexivity.
Qed.

Section WithImports.
Variable ase : Imports.

Lemma resolved_numbers n h0 h blocks bs :
  (forall x, x < n -> h x = h0 x) ->
  (forall l c, In (BAtoms l, c) blocks -> l < n) ->
  Forall2 (resolved ase n h) blocks bs ->
  flat_map (fun bc => concat (repeat (get_atomic_numbers (h (fst bc))) (snd bc))) bs
  = flat_map (fun bc => concat (repeat (numbers_of ase h0 (fst bc)) (snd bc))) blocks.
Proof.
  intros Fr G F. induction F as [|[b c] [l c'] blocks bs R F IH]; [reflexivity|].
  cbn [flat_map fst snd]. rewrite IH by (intros l0 c0 Hin; apply (G l0 c0); right; exact Hin).
  f_equal. destruct R as (Ec & R). cbn [fst snd] in *. subst c'. f_equal. f_equal.
  destruct b as [l0|s]; cbn [numbers_of].
  - subst l. rewrite Fr; [reflexivity|]. apply (G l0 c). left. reflexivity.
  - destruct R as (_ & R). destruct (atomic_numbers ase s) as [z|].
    + rewrite R. reflexivity.
    + rewrite R. reflexivity.
Qed.

(** X13: every atom of a structure returned is a copy, with its atomic
    number, of an atom of the subcell structure as it was when the last
    block was placed, moved by a whole number of subcell vectors
    [np.dot(m, cell)] for an image [m] of [repeat]; the atoms of the
    subcell structure are those of the instances placed, and nothing
    else moves an atom after its instance was accepted. *)
Theorem returned_atoms_are_images fuel w l w' :
  wf w -> get_new_candidate ase fuel w = Ret l w' ->
  exists t,
    explains ase fuel w (objs w' l) t /\
    atoms_list (t_cand t) = concat (map atoms_list (t_insts t)) /\
    forall x, In x (atoms_list (objs w' l)) ->
      exists u m,
        In u (atoms_list (t_cand t)) /\
        In m (images (to_nat3 (t_repeat t))) /\
        number x = number u /\
        position x = vadd (position u) (lattice (INR3 m) (t_cell t)).
Proof.
  intros WF H.
  destruct (get_new_candidate_spec ase fuel w l w' H WF) as (_ & _ & _ & _ & t & EX).
  exists t. split; [exact EX|].
  pose proof (explains_shape _ _ _ _ _ EX) as (_ & _ & UA & UC).
  split; [exact UA|].
  intros x Hx. rewrite (ex_atoms _ _ _ _ _ EX) in Hx.
  destruct (In_nth _ _ default_atom Hx) as (i & Li & Ei).
  destruct (groups_nth _ _ _ _ Li) as (n & g & y & _ & Hy & _ & Ey).
  rewrite Ei in Ey.
  unfold t_cand_full, tagged_full in Hy.
  apply tagged_from_In in Hy.
  destruct Hy as (idx & m & u & Hu & _ & Hm & ->).
  exists u, m. split; [exact Hu|]. split; [eapply nth_error_In; exact Hm|].
  rewrite Ey, UC. cbn [retag image_atom number position snd]. auto.
Qed.

(** X14: a generator made by the constructor returns structures whose
    atomic numbers are, block after block in the order the blocks were
    given, [count] times the atomic numbers of the block: those of the
    [Atoms] object given, the number of the element named, or those of
    the molecule named. *)
Theorem constructed_composition blocks blmin volume cellbounds cell splits
    fuel w w1 l w2 :
  (forall b c, In (BAtoms b, c) blocks -> b < next w) ->
  __init__ ase blocks blmin volume cellbounds cell splits w = Ret tt w1 ->
  get_new_candidate ase fuel w1 = Ret l w2 ->
  get_atomic_numbers (objs w2 l)
  = flat_map (fun bc => concat (repeat (numbers_of ase (objs w) (fst bc)) (snd bc)))
             blocks.
Proof.
  intros G Hi Hc.
  pose proof (init_wf ase _ _ _ _ _ _ _ _ G Hi) as WF.
  pose proof (returned_layout ase fuel w1 l w2 WF Hc) as L.
  apply init_inv in Hi.
  destruct Hi as (s' & bs & numbers & w0 & _ & Hr & Hs & Ho & Hn).
  apply resolve_blocks_resolved in Hr; [|exact G].
  destruct Hr as (_ & Fr & Res & _ & _).
  unfold get_atomic_numbers at 1.
  replace (map number (atoms_list (objs w2 l)))
    with (map fst (map number_tag (atoms_list (objs w2 l))))
    by (rewrite map_map; reflexivity).
  rewrite L, numbers_layout, Hs. cbn [self_blocks]. rewrite Ho.
  apply (resolved_numbers (next w)); assumption.
Qed.

End WithImports.

Lemma returned_atoms_are_images_witness :
  exists l w' t,
    get_new_candidate ase0 1 (world_of gen_split) = Ret l w' /\
    explains ase0 1 (world_of gen_split) (objs w' l) t /\
    atoms_list (t_cand t) = concat (map atoms_list (t_insts t)).
Proof.
  destruct split_returns as (l & w' & E).
  destruct (returned_atoms_are_images ase0 1 (world_of gen_split) l w'
              (wf_world_of gen_split 2 eq_refl) E) as (t & EX & UA & _).
  exists l, w', t. split; [exact E|]. split; [exact EX|exact UA].
Defined.

(** The constructor on the arguments of the first example. *)
Lemma made_world :
  exists w1,
    __init__ ase0 [(BName hydrogen, 1)] (BlDict [((1, 1), 1%R)]) 64%R None
         (Some (cubic 4)) [([1%positive], 1%R)] world_before = Ret tt w1 /\
    self w1 = gen_fixed /\ objs w1 0 = Atoms_symbol 1 /\ next w1 = 1 /\
    floats w1 (fpos w1) = (5 / 10)%R.
Proof.
  unfold __init__.
  destruct (normalize_outcome [([1%positive], 1%R)] world_before)
    as [[(_ & D) _]|[_ (s' & E)]].
  { unfold Rsum in D. cbn in D. lra. }
  rewrite (bind_eq _ E).
  apply normalize_inv in E. destruct E as (-> & _).
  cbn [resolve_blocks resolve ase0 atomic_numbers].
  change (String.eqb hydrogen hydrogen) with true. cbn iota.
  autorewrite with run. unfold ret, set_self.
  eexists. split; [reflexivity|].
  cbn [self objs next floats fpos world_before].
  split; [|split; [apply upd_same|split; reflexivity]].
  unfold gen_fixed. f_equal. cbn [map fst snd]. unfold Rsum. cbn [fold_right].
  f_equal. f_equal. field.
Qed.

Lemma constructed_composition_witness :
  exists w1 l w2,
    __init__ ase0 [(BName hydrogen, 1)] (BlDict [((1, 1), 1%R)]) 64%R None
         (Some (cubic 4)) [([1%positive], 1%R)] world_before = Ret tt w1 /\
    get_new_candidate ase0 1 w1 = Ret l w2 /\
    get_atomic_numbers (objs w2 l) = [1].
Proof.
  destruct made_world as (w1 & Hi & Hs & Ho & Hn & Hf).
  assert (R : returns (get_new_candidate ase0 1) w1).
  { apply (one_block_returns gen_fixed w1 4%R 1%R); try reflexivity.
    - exact Hs.
    - lra.
    - rewrite Hf. lra.
    - exact Ho.
    - lia.
    - intros w2 RO. apply fixed_cell_returns.
      + rewrite (ro_self _ _ RO). exact Hs.
      + reflexivity. }
  destruct R as (l & w2 & Hc).
  exists w1, l, w2. split; [exact Hi|]. split; [exact Hc|].
  exact (constructed_composition ase0 [(BName hydrogen, 1)] _ _ _ _ _ 1 world_before w1 l w2
           ltac:(intros b c [X|[]]; discriminate X) Hi Hc).
Defined.

End Whole.

Export Whole.

(* ================================================================== *)
(** ** Attempts that are all refused *)

Module Crowded.

Open Scope nat_scope.

Lemma ceil_div_pos c n : 0 < n -> 0 < c -> 0 < ceil_div c n.
Proof.
  intros Hn Hc. pose proof (ceil_div_ge c n Hn). nia.
Qed.

Lemma expand_nonempty n bs : forall i,
  0 < n -> Exists (fun bc => 0 < snd bc) bs ->
  0 < length (fst (fst (expand i n bs))).
Proof.
  induction bs as [|[b c] rest IH]; intros i Hn X; [inversion X|].
  cbn [expand]. specialize (IH (S i) Hn).
  destruct (expand (S i) n rest) as [[B Su] I]. cbn [fst] in *.
  rewrite length_app, repeat_length.
  inversion X as [x r Hx|x r Hx]; subst.
  - cbn [snd] in Hx. pose proof (ceil_div_pos c n Hn Hx). lia.
  - specialize (IH Hx). lia.
Qed.

Section WithImports.
Variable ase : Imports.

Lemma place_block_refused cand atoms rotate cell blmin :
  (forall a, atoms_too_close ase a blmin = true) ->
  forall fuel w, place_block ase fuel cand atoms rotate cell blmin w = OutOfFuel.
Proof.
  intros T. induction fuel as [|fuel IH]; intros w; [reflexivity|].
  cbn [place_block].
  destruct (try_position_total ase cand atoms rotate cell w) as (att & w1 & E).
  rewrite (bind_eq _ E), bind_load, T. apply IH.
Qed.

(** X15: the placement loop has no way out but an accepted attempt: with
    a fixed cell, a split that [sample] can place and at least one block
    to place, a call whose attempts are all refused by the too-close
    test is still looping after any number of turns; it neither raises
    nor returns a structure with fewer blocks. *)
Theorem refused_never_ends fuel w c split :
  (forall a, atoms_too_close ase a (self_blmin (self w)) = true) ->
  self_cell (self w) = Some c ->
  choose_split (self_splits (self w)) 0 (floats w (fpos w)) None = Some split ->
  length split <= 3 ->
  Exists (fun bc => 0 < snd bc) (self_blocks (self w)) ->
  get_new_candidate ase fuel w = OutOfFuel.
Proof.
  intros T Ecell Ec L X. unfold get_new_candidate.
  rewrite bind_get_self, bind_random, Ec.
  match goal with |- bind _ _ ?w1 = _ =>
    destruct (sample_range_spec 3 (length split) w1 L)
      as (dirs & w2 & Hd & _ & _ & _ & RO & _)
  end.
  rewrite (bind_eq _ Hd).
  set (rep := assign_factors dirs split).
  assert (Hm : forall tv, make_cell fuel tv rep w2
                 = Ret (div_rows c (to_nat3 rep), c) w2).
  { intros tv. unfold make_cell. rewrite bind_get_self, (ro_self _ _ RO).
    cbn [self]. rewrite Ecell. reflexivity. }
  rewrite (bind_eq _ (Hm _)).
  pose proof (expand_nonempty (Pos.to_nat (product rep)) (self_blocks (self w)) 0
                (Pos2Nat.is_pos _) X) as NE.
  destruct (expand 0 (Pos.to_nat (product rep)) (self_blocks (self w)))
    as [[blocksE surplus] indicesE] eqn:EE.
  cbn [fst] in NE.
  destruct (permutation_spec (length blocksE) w2) as (order & w3 & Ep & P & _).
  unfold shuffle_range. rewrite (bind_eq _ Ep).
  destruct order as [|o order].
  { apply Permutation_length in P. rewrite length_seq in P. cbn in P. lia. }
  unfold Atoms_init. rewrite bind_alloc.
  apply bind_fuel_eq. cbn [map place_all].
  unfold copy. autorewrite with run.
  apply bind_fuel_eq. apply place_block_refused. exact T.
Qed.

End WithImports.

Lemma refused_never_ends_witness :
  get_new_candidate ase_refusing 5 (world_of gen_fixed) = OutOfFuel.
Proof.
  apply (refused_never_ends ase_refusing 5 (world_of gen_fixed) (cubic 4)
           [1%positive]).
  - reflexivity.
  - reflexivity.
  - cbn [world_of gen_fixed self self_splits floats fpos choose_split].
    destruct (Rgt_dec (0 + 1) (5 / 10)) as [_|N]; [reflexivity|].
    exfalso. apply N. lra.
  - cbn. lia.
  - left. cbn. lia.
Defined.

End Crowded.

Export Crowded.
